(** * PSET view: stream navigation and segwit signature hash

    A shallow embedding of [libs/common/bitcoin/liquid/psetview.py]:
    the commitment skipper, the lazy view of the unsigned global Liquid
    transaction ([GlobalLTransactionView]) and the PSET view with its
    signature-hash engine ([PSETView]).

    Python objects are records, attribute mutation is explicit state
    passing in a small state-and-exception monad, [bytes] are lists of
    [Byte.byte], Python integers are [Z]. *)

From Stdlib Require Import String.
From Stdlib.Strings Require Import Byte.
From Stdlib Require Import ZArith List Lia Bool.
Import ListNotations.
Open Scope Z_scope.

Set Implicit Arguments.

(** ** Bytes and integers *)

Definition bytes := list byte.

Definition byte_to_Z (b : byte) : Z := Z.of_N (Byte.to_N b).

Definition byte_of_Z (z : Z) : byte :=
  match Byte.of_N (Z.to_N (z mod 256)) with
  | Some b => b
  | None => x00
  end.

Definition bytes_eqb (a b : bytes) : bool :=
  if list_eq_dec Byte.byte_eq_dec a b then true else false.

(** [b"\x00" * n]: a negative count gives the empty string. *)
Definition bytes_mul (b : bytes) (n : Z) : bytes :=
  concat (repeat b (Z.to_nat n)).

(** [int.from_bytes(b, "little")] *)
Fixpoint int_from_bytes_little (b : bytes) : Z :=
  match b with
  | [] => 0
  | x :: r => byte_to_Z x + 256 * int_from_bytes_little r
  end.

(** The [len] low-order base-256 digits of [n], least significant first. *)
Fixpoint le_digits (len : nat) (n : Z) : bytes :=
  match len with
  | O => []
  | S k => byte_of_Z (n mod 256) :: le_digits k (n / 256)
  end.

(** ** Exceptions *)

Inductive exn : Type :=
| PSBTError (msg : string)
| AssertionError
| NotImplementedError
| OverflowError
| TypeError
| ValueError
| CollaboratorError (msg : string).

Inductive result (A : Type) : Type :=
| Ok (a : A)
| Raise (e : exn).

Arguments Ok {A} a.
Arguments Raise {A} e.

Inductive byteorder := little | big.

(** [n.to_bytes(len, order)]: Python raises [OverflowError] for a negative
    [n] and for an [n] that does not fit in [len] bytes. *)
Definition int_to_bytes (n : Z) (len : nat) (order : byteorder) : result bytes :=
  if (n <? 0) || (2 ^ (8 * Z.of_nat len) <=? n) then Raise OverflowError
  else Ok (match order with
           | little => le_digits len n
           | big => rev (le_digits len n)
           end).

(** ** hashlib.sha256 (FIPS 180-4), on 32-bit words kept in [Z] *)

Module hashlib.

Definition w32 (x : Z) : Z := x mod 2 ^ 32.

Definition add32 (x y : Z) : Z := w32 (x + y).

Definition rotr (n x : Z) : Z :=
  Z.lor (Z.shiftr x n) (w32 (Z.shiftl x (32 - n))).

Definition not32 (x : Z) : Z := Z.lxor x 0xFFFFFFFF.

Definition Ch (x y z : Z) : Z :=
  Z.lxor (Z.land x y) (Z.land (not32 x) z).

Definition Maj (x y z : Z) : Z :=
  Z.lxor (Z.lxor (Z.land x y) (Z.land x z)) (Z.land y z).

Definition bsig0 (x : Z) : Z :=
  Z.lxor (Z.lxor (rotr 2 x) (rotr 13 x)) (rotr 22 x).

Definition bsig1 (x : Z) : Z :=
  Z.lxor (Z.lxor (rotr 6 x) (rotr 11 x)) (rotr 25 x).

Definition ssig0 (x : Z) : Z :=
  Z.lxor (Z.lxor (rotr 7 x) (rotr 18 x)) (Z.shiftr x 3).

Definition ssig1 (x : Z) : Z :=
  Z.lxor (Z.lxor (rotr 17 x) (rotr 19 x)) (Z.shiftr x 10).

Definition round_constants : list Z :=
  [ 0x428A2F98; 0x71374491; 0xB5C0FBCF; 0xE9B5DBA5;
    0x3956C25B; 0x59F111F1; 0x923F82A4; 0xAB1C5ED5;
    0xD807AA98; 0x12835B01; 0x243185BE; 0x550C7DC3;
    0x72BE5D74; 0x80DEB1FE; 0x9BDC06A7; 0xC19BF174;
    0xE49B69C1; 0xEFBE4786; 0x0FC19DC6; 0x240CA1CC;
    0x2DE92C6F; 0x4A7484AA; 0x5CB0A9DC; 0x76F988DA;
    0x983E5152; 0xA831C66D; 0xB00327C8; 0xBF597FC7;
    0xC6E00BF3; 0xD5A79147; 0x06CA6351; 0x14292967;
    0x27B70A85; 0x2E1B2138; 0x4D2C6DFC; 0x53380D13;
    0x650A7354; 0x766A0ABB; 0x81C2C92E; 0x92722C85;
    0xA2BFE8A1; 0xA81A664B; 0xC24B8B70; 0xC76C51A3;
    0xD192E819; 0xD6990624; 0xF40E3585; 0x106AA070;
    0x19A4C116; 0x1E376C08; 0x2748774C; 0x34B0BCB5;
    0x391C0CB3; 0x4ED8AA4A; 0x5B9CCA4F; 0x682E6FF3;
    0x748F82EE; 0x78A5636F; 0x84C87814; 0x8CC70208;
    0x90BEFFFA; 0xA4506CEB; 0xBEF9A3F7; 0xC67178F2 ].

Definition initial_state : list Z :=
  [ 0x6A09E667; 0xBB67AE85; 0x3C6EF372; 0xA54FF53A;
    0x510E527F; 0x9B05688C; 0x1F83D9AB; 0x5BE0CD19 ].

(** Big-endian value of a byte string. *)
Definition be_value (b : bytes) : Z :=
  fold_left (fun acc x => acc * 256 + byte_to_Z x) b 0.

(** Message padding: a [0x80] byte, zeros up to 56 mod 64, then the bit
    length on 8 bytes, big-endian. *)
Definition pad (msg : bytes) : bytes :=
  let l := Z.of_nat (length msg) in
  let k := (55 - l) mod 64 in
  msg ++ x80 :: repeat x00 (Z.to_nat k) ++ rev (le_digits 8 (8 * l)).

Fixpoint words_of (n : nat) (b : bytes) : list Z :=
  match n with
  | O => []
  | S k => be_value (firstn 4 b) :: words_of k (skipn 4 b)
  end.

(** One round: [st] is the working state a..h, [w] the sliding window of
    the sixteen most recent schedule words. *)
Definition round (acc : list Z * list Z) (k : Z) : list Z * list Z :=
  let '(st, w) := acc in
  match st with
  | [a; b; c; d; e; f; g; h] =>
      let wt := nth 0 w 0 in
      let t1 := add32 (add32 (add32 (add32 h (bsig1 e)) (Ch e f g)) k) wt in
      let t2 := add32 (bsig0 a) (Maj a b c) in
      let wn := add32 (add32 (add32 (ssig1 (nth 14 w 0)) (nth 9 w 0))
                              (ssig0 (nth 1 w 0))) wt in
      ([add32 t1 t2; a; b; c; add32 d t1; e; f; g], tl w ++ [wn])
  | _ => acc
  end.

Definition compress (st : list Z) (block : bytes) : list Z :=
  let '(st', _) := fold_left round round_constants (st, words_of 16 block) in
  map (fun p => add32 (fst p) (snd p)) (combine st st').

Fixpoint blocks (n : nat) (st : list Z) (b : bytes) : list Z :=
  match n with
  | O => st
  | S k => blocks k (compress st (firstn 64 b)) (skipn 64 b)
  end.

(** [hashlib.sha256(msg).digest()] *)
Definition sha256 (msg : bytes) : bytes :=
  let p := pad msg in
  let st := blocks (length p / 64)%nat initial_state p in
  flat_map (fun w => rev (le_digits 4 w)) st.

(** A [hashlib.sha256()] object is the data fed to it so far:
    [h.update(b)] appends, [h.digest()] hashes what was accumulated. *)
Definition hasher := bytes.
Definition new : hasher := [].
Definition update (h : hasher) (b : bytes) : hasher := h ++ b.
Definition digest (h : hasher) : bytes := sha256 h.

End hashlib.

(** ** State and exceptions

    A method of an object of type [S] that returns an [A]: it runs on the
    object's current state and either returns a value with the updated
    object or raises. *)

Definition M (S A : Type) : Type := S -> result (A * S).

Definition ret {S A : Type} (a : A) : M S A := fun s => Ok (a, s).

Definition raise {S A : Type} (e : exn) : M S A := fun _ => Raise e.

Definition bind {S A B : Type} (m : M S A) (k : A -> M S B) : M S B :=
  fun s => match m s with
           | Ok (a, s') => k a s'
           | Raise e => Raise e
           end.

Definition get {S : Type} : M S S := fun s => Ok (s, s).

Definition put {S : Type} (s : S) : M S unit := fun _ => Ok (tt, s).

(** A result computed without touching the object. *)
Definition lift {S A : Type} (r : result A) : M S A :=
  fun s => match r with
           | Ok a => Ok (a, s)
           | Raise e => Raise e
           end.

Declare Scope py_scope.
Delimit Scope py_scope with py.
Notation "x <- m ;; k" := (bind m (fun x => k))
  (at level 61, m at next level, right associativity) : py_scope.
Notation "m ;; k" := (bind m (fun _ => k))
  (at level 61, right associativity) : py_scope.
Notation "' p <- m ;; k" := (bind m (fun x => match x with p => k end))
  (at level 61, p pattern, m at next level, right associativity) : py_scope.
Open Scope py_scope.

(** [range(n)]: empty for a negative [n]. *)
Definition range (n : Z) : list Z := map Z.of_nat (seq 0 (Z.to_nat n)).

(** [for x in l: body], threading what the body updates. *)
Fixpoint for_in {S A B : Type} (l : list B) (body : B -> A -> M S A) (a : A) : M S A :=
  match l with
  | [] => ret a
  | x :: r => a' <- body x a ;; for_in r body a'
  end.

(** ** Byte stream

    The stream the views borrow, with the behaviour of [io.BytesIO]: a
    buffer and a position; [read] returns what is left when less than
    asked for remains; a relative [seek] may move past the end, as far as
    a position can go. *)

Record BytesIO : Type := mkBytesIO { buf : bytes; pos : nat }.

(** The range of a [Py_ssize_t], the type of a stream position and of the
    offset of a seek. *)
Definition PY_SSIZE_T_MAX : Z := 2 ^ 63 - 1.
Definition PY_SSIZE_T_MIN : Z := - 2 ^ 63.

Module io.

(** The states that stand for a stream. The buffer of a stream is a
    [bytes] object, which holds at most [PY_SSIZE_T_MAX - 33] bytes (the
    header of the object takes 32 bytes and the closing zero one), and
    its position is a [Py_ssize_t]. *)
Definition valid (s : BytesIO) : bool :=
  (Z.of_nat (length (buf s)) <=? PY_SSIZE_T_MAX - 33)
  && (Z.of_nat (pos s) <=? PY_SSIZE_T_MAX).

(** [stream.read(n)]: a negative [n] reads to the end. *)
Definition read (n : Z) : M BytesIO bytes := fun s =>
  let rest := skipn (pos s) (buf s) in
  let data := if n <? 0 then rest else firstn (Z.to_nat n) rest in
  Ok (data, mkBytesIO (buf s) (pos s + length data)).

(** [stream.seek(offset)] *)
Definition seek (offset : Z) : M BytesIO Z := fun s =>
  if offset <? 0 then Raise ValueError
  else Ok (offset, mkBytesIO (buf s) (Z.to_nat offset)).

(** [stream.seek(offset, 1)]: an offset that is no [Py_ssize_t] raises
    [OverflowError], and so does a target beyond [PY_SSIZE_T_MAX]; a
    target before the start is moved to the start. On a state that stands
    for no stream the position has no bound to pass. *)
Definition seek_cur (offset : Z) : M BytesIO Z := fun s =>
  let p := Z.max 0 (Z.of_nat (pos s) + offset) in
  let moved := Ok (p, mkBytesIO (buf s) (Z.to_nat p)) in
  if (offset <? PY_SSIZE_T_MIN) || (PY_SSIZE_T_MAX <? offset)
  then Raise OverflowError
  else if PY_SSIZE_T_MAX - Z.of_nat (pos s) <? offset
  then if valid s then Raise OverflowError else moved
  else moved.

End io.

(** ** skip_commitment *)

Definition skip_commitment : M BytesIO Z :=
  c <- io.read 1 ;;
  if negb (length c =? 1)%nat then raise AssertionError else
  if bytes_eqb c [x00] then ret 1 else
  if bytes_eqb c [x01] then
    _ <- io.seek_cur 8 ;;
    ret 9
  else
    _ <- io.seek_cur 32 ;;
    ret 33.

(** Total size of a commitment, as its tag byte determines it. *)
Definition commitment_size (tag : byte) : Z :=
  match tag with
  | x00 => 1
  | x01 => 9
  | _ => 33
  end.

(** ** Value objects of the collaborating modules

    [transaction.py], [script.py] and [pset.py] are not part of this file's
    source. Their immutable value objects are records of what the view
    observes of them: the attributes it reads and the bytes their
    [serialize()] returns. *)

Module Script.
(** Modelled from the spec: a script ([script.py], not under src/), of
    which the view uses the serialized form only. *)
Record t : Type := mk { serialize : bytes }.
End Script.

Module LTransactionInput.
(** Modelled from the spec: the input record ([transaction.py], not under
    src/) with the fields the view reads and sets,
    [LTransactionInput(txid, vout, sequence=sequence)]. *)
Record t : Type := mk { txid : bytes; vout : Z; sequence : Z }.
End LTransactionInput.

Module LTransactionOutput.
(** Modelled from the spec: the output record ([transaction.py], not under
    src/); the view hands it on without looking into it. *)
Record t : Type := mk { serialize : bytes }.
End LTransactionOutput.

Module RangeProof.
(** Modelled from the spec: the range proof of an output
    ([transaction.py], not under src/), of which the view uses the
    serialized form only. *)
Record t : Type := mk { serialize : bytes }.
End RangeProof.

Module SurjectionProof.
(** Modelled from the spec: the surjection proof of an output
    ([transaction.py], not under src/), of which the view uses the
    serialized form only. *)
Record t : Type := mk { serialize : bytes }.
End SurjectionProof.

Module TxOutWitness.
(** Modelled from the spec: the witness of an output ([transaction.py], not
    under src/): its two proofs and its own serialized form. *)
Record t : Type := mk {
  range_proof : RangeProof.t;
  surjection_proof : SurjectionProof.t;
  serialize : bytes }.
End TxOutWitness.

Module BlindedLTransactionOutput.
(** Modelled from the spec: the blinded output record ([pset.py], not under
    src/): its serialized form and its witness. *)
Record t : Type := mk { serialize : bytes; witness : TxOutWitness.t }.
End BlindedLTransactionOutput.

Module LOutputScope.
(** Modelled from the spec: the per-output scope ([pset.py], not under
    src/), of which the view reads the properties [vout] and
    [blinded_vout]. *)
Record t : Type := mk {
  vout : LTransactionOutput.t;
  blinded_vout : BlindedLTransactionOutput.t }.
End LOutputScope.

(** The [value] argument of [sighash_segwit]: an [int] amount or the
    [bytes] of a value commitment. *)
Inductive amount : Type :=
| IntValue (n : Z)
| BytesValue (b : bytes).

(** ** Collaborating functions

    Functions and constants the view calls and that live in modules outside
    this source file: the compact-size codec, the parsers of transaction
    inputs and outputs, the sighash constants and the sighash-flag
    decoder. The view is verified for every implementation of them. *)

Class Collaborators : Type := {
  (** [compact.read_from(stream)] *)
  compact_read_from : M BytesIO Z;
  (** [compact.to_bytes(n)] *)
  compact_to_bytes : Z -> result bytes;
  (** [LTransactionInput.read_from(stream)] *)
  LTransactionInput_read_from : M BytesIO LTransactionInput.t;
  (** [LTransactionOutput.read_from(stream)] *)
  LTransactionOutput_read_from : M BytesIO LTransactionOutput.t;
  (** [SIGHASH.DEFAULT], [SIGHASH.ALL], [SIGHASH.NONE], [SIGHASH.SINGLE] *)
  SIGHASH_DEFAULT : Z;
  SIGHASH_ALL : Z;
  SIGHASH_NONE : Z;
  SIGHASH_SINGLE : Z;
  (** [LSIGHASH.RANGEPROOF] *)
  LSIGHASH_RANGEPROOF : Z;
  (** [LSIGHASH.check(sighash)]: base type, anyonecanpay, rangeproof *)
  LSIGHASH_check : Z -> result (Z * bool * bool)
}.

(** ** Reference collaborators

    One implementation of the collaborating functions, to run the view on
    concrete documents. *)

Module Reference.

Definition short_read : exn := CollaboratorError "short read".

(** [stream.read(n)] that insists on [n] bytes. *)
Definition read_exactly (n : Z) : M BytesIO bytes :=
  b <- io.read n ;;
  if (length b =? Z.to_nat n)%nat then ret b else raise short_read.

(** Modelled from the spec: the compact-size codec's [read]
    ([compact.py], not under src/): one byte below [0xfd] is the value;
    [0xfd], [0xfe], [0xff] announce 2, 4, 8 little-endian bytes. *)
Definition compact_read_from : M BytesIO Z :=
  c <- read_exactly 1 ;;
  let v := int_from_bytes_little c in
  if v <? 0xfd then ret v
  else
    b <- read_exactly (2 ^ (v - 0xfc)) ;;
    ret (int_from_bytes_little b).

(** Modelled from the spec: the compact-size codec's encoder
    ([compact.py], not under src/). *)
Definition compact_to_bytes (n : Z) : result bytes :=
  if n <? 0 then Raise ValueError
  else if n <? 0xfd then Ok (le_digits 1 n)
  else if n <? 2 ^ 16 then Ok (xfd :: le_digits 2 n)
  else if n <? 2 ^ 32 then Ok (xfe :: le_digits 4 n)
  else if n <? 2 ^ 64 then Ok (xff :: le_digits 8 n)
  else Raise ValueError.

(** Modelled from the spec: the parser of one input of the unsigned
    transaction ([transaction.py], not under src/): txid in wire order,
    little-endian vout, signature script, little-endian sequence. *)
Definition LTransactionInput_read_from : M BytesIO LTransactionInput.t :=
  txid <- read_exactly 32 ;;
  vout <- read_exactly 4 ;;
  l <- compact_read_from ;;
  _ <- read_exactly l ;;
  sequence <- read_exactly 4 ;;
  ret (LTransactionInput.mk (rev txid) (int_from_bytes_little vout)
         (int_from_bytes_little sequence)).

(** Modelled from the spec: the parser of one output of the unsigned
    transaction ([transaction.py], not under src/): asset, value
    commitment, optional ecdh pubkey, script. *)
Definition LTransactionOutput_read_from : M BytesIO LTransactionOutput.t :=
  asset <- read_exactly 33 ;;
  c <- read_exactly 1 ;;
  value <- read_exactly (if bytes_eqb c [x01] then 8 else 32) ;;
  e <- read_exactly 1 ;;
  ecdh <- read_exactly (if bytes_eqb e [x00] then 0 else 32) ;;
  l <- compact_read_from ;;
  enc <- lift (compact_to_bytes l) ;;
  script <- read_exactly l ;;
  ret (LTransactionOutput.mk (asset ++ c ++ value ++ e ++ ecdh ++ enc ++ script)).

(** Modelled from the spec: the sighash base types and flag bits
    ([transaction.py], not under src/), with the values the network
    gives them. *)
Definition DEFAULT : Z := 0.
Definition ALL : Z := 1.
Definition NONE : Z := 2.
Definition SINGLE : Z := 3.
Definition ANYONECANPAY : Z := 0x80.
Definition RANGEPROOF : Z := 0x40.

(** Modelled from the spec: the sighash-flag decoder ([transaction.py],
    not under src/): the ANYONECANPAY and RANGEPROOF bits are taken off,
    what is left has to be a base type. *)
Definition check (sighash : Z) : result (Z * bool * bool) :=
  let anyonecanpay := negb (Z.land sighash ANYONECANPAY =? 0) in
  let sighash := if anyonecanpay then Z.lxor sighash ANYONECANPAY else sighash in
  let rangeproof := negb (Z.land sighash RANGEPROOF =? 0) in
  let sighash := if rangeproof then Z.lxor sighash RANGEPROOF else sighash in
  if existsb (Z.eqb sighash) [DEFAULT; ALL; NONE; SINGLE]
  then Ok (sighash, anyonecanpay, rangeproof)
  else Raise (CollaboratorError "Invalid SIGHASH type").

Definition collaborators : Collaborators :=
  Build_Collaborators compact_read_from compact_to_bytes
    LTransactionInput_read_from LTransactionOutput_read_from
    DEFAULT ALL NONE SINGLE RANGEPROOF check.

End Reference.

(** ** GlobalLTransactionView *)

Module GlobalLTransactionView.

Record t : Type := mk {
  stream : BytesIO;
  offset : Z;
  _num_vin : option Z;
  _vin0_offset : option Z;
  _num_vout : option Z;
  _vout0_offset : option Z;
  _num_vout_offset : option Z }.

Definition NUM_VIN_OFFSET : Z := 5.

(** [__init__]: every cache starts unknown. *)
Definition init (stream : BytesIO) (offset : Z) : t :=
  mk stream offset None None None None None.

Definition set_stream (s : BytesIO) (v : t) : t :=
  mk s (offset v) (_num_vin v) (_vin0_offset v) (_num_vout v)
     (_vout0_offset v) (_num_vout_offset v).

Definition set__num_vin (n : Z) (v : t) : t :=
  mk (stream v) (offset v) (Some n) (_vin0_offset v) (_num_vout v)
     (_vout0_offset v) (_num_vout_offset v).

Definition set__vin0_offset (n : Z) (v : t) : t :=
  mk (stream v) (offset v) (_num_vin v) (Some n) (_num_vout v)
     (_vout0_offset v) (_num_vout_offset v).

Definition set__num_vout (n : Z) (v : t) : t :=
  mk (stream v) (offset v) (_num_vin v) (_vin0_offset v) (Some n)
     (_vout0_offset v) (_num_vout_offset v).

Definition set__vout0_offset (n : Z) (v : t) : t :=
  mk (stream v) (offset v) (_num_vin v) (_vin0_offset v) (_num_vout v)
     (Some n) (_num_vout_offset v).

Definition set__num_vout_offset (n : Z) (v : t) : t :=
  mk (stream v) (offset v) (_num_vin v) (_vin0_offset v) (_num_vout v)
     (_vout0_offset v) (Some n).

(** A call on [self.stream]. *)
Definition on_stream {A : Type} (m : M BytesIO A) : M t A := fun self =>
  match m (stream self) with
  | Ok (a, s') => Ok (a, set_stream s' self)
  | Raise e => Raise e
  end.

Definition modify (f : t -> t) : M t unit := fun self => Ok (tt, f self).

Section Methods.
Context {C : Collaborators}.

(** Modelled from the spec: the property [num_vin] of the base class
    [GlobalTransactionView] ([psbtview.py], not under src/): the
    compact-size input count found [NUM_VIN_OFFSET] bytes after the
    start of the transaction, memoized. *)
Definition num_vin : M t Z :=
  self <- get ;;
  match _num_vin self with
  | Some n => ret n
  | None =>
      _ <- on_stream (io.seek (offset self + NUM_VIN_OFFSET)) ;;
      n <- on_stream compact_read_from ;;
      modify (set__num_vin n) ;;
      ret n
  end.

(** Modelled from the spec: the property [vin0_offset] of the base
    class [GlobalTransactionView] ([psbtview.py], not under src/): the
    position after the encoded input count, memoized. *)
Definition vin0_offset : M t Z :=
  self <- get ;;
  match _vin0_offset self with
  | Some off => ret off
  | None =>
      n <- num_vin ;;
      enc <- lift (compact_to_bytes n) ;;
      let off := offset self + NUM_VIN_OFFSET + Z.of_nat (length enc) in
      modify (set__vin0_offset off) ;;
      ret off
  end.

Definition _skip_input : M t Z :=
  let off := 32 + 4 + 5 in
  _ <- on_stream (io.seek_cur 32) ;;
  b <- on_stream (io.read 4) ;;
  let vout := int_from_bytes_little b in
  _ <- on_stream (io.seek_cur 5) ;;
  if negb (vout =? 0xFFFFFFFF) then
    let is_pegin := negb (Z.land vout (Z.shiftl 1 30) =? 0) in
    let has_issuance := negb (Z.land vout (Z.shiftl 1 31) =? 0) in
    if has_issuance then
      _ <- on_stream (io.seek_cur (32 + 32)) ;;
      let off := off + 64 in
      n1 <- on_stream skip_commitment ;;
      let off := off + n1 in
      n2 <- on_stream skip_commitment ;;
      let off := off + n2 in
      ret off
    else ret off
  else ret off.

Definition num_vout_offset : M t Z :=
  self <- get ;;
  match _num_vout_offset self with
  | Some off => ret off
  | None =>
      off <- vin0_offset ;;
      _ <- on_stream (io.seek off) ;;
      n <- num_vin ;;
      off <- for_in (range n)
               (fun _ off => d <- _skip_input ;; ret (off + d)) off ;;
      modify (set__num_vout_offset off) ;;
      ret off
  end.

Definition num_vout : M t Z :=
  self <- get ;;
  match _num_vout self with
  | Some n => ret n
  | None =>
      off <- num_vout_offset ;;
      _ <- on_stream (io.seek off) ;;
      n <- on_stream compact_read_from ;;
      modify (set__num_vout n) ;;
      ret n
  end.

Definition vout0_offset : M t Z :=
  self <- get ;;
  match _vout0_offset self with
  | Some off => ret off
  | None =>
      off <- num_vout_offset ;;
      n <- num_vout ;;
      enc <- lift (compact_to_bytes n) ;;
      let off := off + Z.of_nat (length enc) in
      modify (set__vout0_offset off) ;;
      ret off
  end.

Definition vin (i : Z) : M t LTransactionInput.t :=
  invalid <- (if i <? 0 then ret true
              else n <- num_vin ;; ret (i >=? n)) ;;
  if (invalid : bool) then raise (PSBTError "Invalid input index") else
  off <- vin0_offset ;;
  _ <- on_stream (io.seek off) ;;
  _ <- for_in (range i) (fun _ _ => _ <- _skip_input ;; ret tt) tt ;;
  on_stream LTransactionInput_read_from.

Definition _skip_output : M t unit :=
  _ <- on_stream (io.seek_cur 33) ;;
  c <- on_stream (io.read 1) ;;
  _ <- (if negb (bytes_eqb c [x01])
        then on_stream (io.seek_cur 32)
        else on_stream (io.seek_cur 8)) ;;
  c <- on_stream (io.read 1) ;;
  _ <- (if negb (bytes_eqb c [x00])
        then _ <- on_stream (io.seek_cur 32) ;; ret tt
        else ret tt) ;;
  l <- on_stream compact_read_from ;;
  _ <- on_stream (io.seek_cur l) ;;
  ret tt.

(** The guard leaves [0 <= i], so [while n: ...; n -= 1] started at
    [n = i] runs its body exactly [i] times. *)
Definition vout (i : Z) : M t LTransactionOutput.t :=
  invalid <- (if i <? 0 then ret true
              else n <- num_vout ;; ret (i >=? n)) ;;
  if (invalid : bool) then raise (PSBTError "Invalid input index") else
  off <- vout0_offset ;;
  _ <- on_stream (io.seek off) ;;
  _ <- for_in (range i) (fun _ _ => _skip_output) tt ;;
  on_stream LTransactionOutput_read_from.

End Methods.

End GlobalLTransactionView.


(** ** PSETView *)

Module PSETView.

(** The attributes of the view. [num_inputs], [num_outputs], [tx] and
    [_hash_outputs] are set by the base class [PSBTView]. The base class's
    reading methods are not part of this source file; each of them seeks
    before it reads, so the view sees them as lookups in the document:
    [scope_value i key] is [seek_to_scope(i)] followed by
    [_get_value(key, from_current=True)], [output_scope] is the per-output
    record builder, [tx_version], [locktime], [hash_prevouts] and
    [hash_sequence] are the base class's members of these names. *)
Record t : Type := mk {
  num_inputs : Z;
  num_outputs : Z;
  tx : option GlobalLTransactionView.t;
  scope_value : Z -> bytes -> result (option bytes);
  output_scope : Z -> result LOutputScope.t;
  tx_version : result Z;
  locktime : result Z;
  hash_prevouts : result bytes;
  hash_sequence : result bytes;
  _hash_outputs : option bytes;
  _hash_rangeproofs : option bytes;
  _hash_issuances : option bytes }.

Definition set_tx (v : option GlobalLTransactionView.t) (s : t) : t :=
  mk (num_inputs s) (num_outputs s) v (scope_value s) (output_scope s)
     (tx_version s) (locktime s) (hash_prevouts s) (hash_sequence s)
     (_hash_outputs s) (_hash_rangeproofs s) (_hash_issuances s).

Definition set__hash_outputs (d : option bytes) (s : t) : t :=
  mk (num_inputs s) (num_outputs s) (tx s) (scope_value s) (output_scope s)
     (tx_version s) (locktime s) (hash_prevouts s) (hash_sequence s)
     d (_hash_rangeproofs s) (_hash_issuances s).

Definition set__hash_rangeproofs (d : option bytes) (s : t) : t :=
  mk (num_inputs s) (num_outputs s) (tx s) (scope_value s) (output_scope s)
     (tx_version s) (locktime s) (hash_prevouts s) (hash_sequence s)
     (_hash_outputs s) d (_hash_issuances s).

Definition set__hash_issuances (d : option bytes) (s : t) : t :=
  mk (num_inputs s) (num_outputs s) (tx s) (scope_value s) (output_scope s)
     (tx_version s) (locktime s) (hash_prevouts s) (hash_sequence s)
     (_hash_outputs s) (_hash_rangeproofs s) d.

Definition modify (f : t -> t) : M t unit := fun self => Ok (tt, f self).

(** A lookup in the document behind the view. *)
Definition call {A : Type} (f : t -> result A) : M t A :=
  fun self => lift (f self) self.

(** A method call on [self.tx]. *)
Definition on_tx {A : Type} (m : M GlobalLTransactionView.t A) : M t A :=
  fun self =>
    match tx self with
    | Some v =>
        match m v with
        | Ok (a, v') => Ok (a, set_tx (Some v') self)
        | Raise e => Raise e
        end
    | None => Raise TypeError
    end.

(** [v or d] for an optional byte string: [None] and [b""] are falsy. *)
Definition or_bytes (v : option bytes) (d : bytes) : bytes :=
  match v with
  | Some (x :: r) => x :: r
  | _ => d
  end.

(** [bytes(reversed(v))] and [int.from_bytes(v, "little")] on what
    [_get_value] returned: [None] is a [TypeError]. *)
Definition bytes_reversed (v : option bytes) : result bytes :=
  match v with
  | Some b => Ok (rev b)
  | None => Raise TypeError
  end.

Definition int_from_value (v : option bytes) : result Z :=
  match v with
  | Some b => Ok (int_from_bytes_little b)
  | None => Raise TypeError
  end.

(** [isinstance(value, int)] branch and its [else] (lines 188-191): what
    [h.update] receives for the spent output's value. *)
Definition sighash_value_term (value : amount) : result bytes :=
  match value with
  | IntValue n =>
      match int_to_bytes n 8 big with
      | Ok b => Ok ([x01] ++ b)
      | Raise e => Raise e
      end
  | BytesValue b => Ok b
  end.

(** The cache of [hash_issuances] is empty or holds the digest. *)
Definition issuances_cache_ok (self : t) : Prop :=
  _hash_issuances self = None \/
  _hash_issuances self = Some (hashlib.sha256 (bytes_mul [x00] (num_inputs self))).

(** What the methods other than [hash_issuances] and [clear_cache] leave
    as it is. *)
Definition same_issuances (s s' : t) : Prop :=
  num_inputs s' = num_inputs s /\ _hash_issuances s' = _hash_issuances s.

Definition zero : bytes := bytes_mul [x00] 32.

Section Methods.
Context {C : Collaborators}.

Definition clear_cache : M t unit :=
  _ <- modify (set__hash_outputs None) ;;
  _ <- modify (set__hash_rangeproofs None) ;;
  modify (set__hash_issuances None).

Definition vin (i : Z) : M t LTransactionInput.t :=
  self <- get ;;
  if (i <? 0) || (i >=? num_inputs self)
  then raise (PSBTError "Invalid input index") else
  match tx self with
  | Some _ => on_tx (GlobalLTransactionView.vin i)
  | None =>
      v <- call (fun self => scope_value self i [x0e]) ;;
      txid <- lift (bytes_reversed v) ;;
      v <- call (fun self => scope_value self i [x0f]) ;;
      vout <- lift (int_from_value v) ;;
      v <- call (fun self => scope_value self i [x10]) ;;
      let v := or_bytes v [xff; xff; xff; xff] in
      let sequence := int_from_bytes_little v in
      ret (LTransactionInput.mk txid vout sequence)
  end.

(** Modelled from the spec: [PSBTView.output(i)] ([psbtview.py], not under
    src/), the per-output record accessor: an index outside
    [0, num_outputs) raises the invalid-index error, any other index gives
    the output scope built from the document. *)
Definition output (i : Z) : M t LOutputScope.t :=
  self <- get ;;
  if (i <? 0) || (i >=? num_outputs self)
  then raise (PSBTError "Invalid output index")
  else call (fun self => output_scope self i).

Definition vout (i : Z) : M t LTransactionOutput.t :=
  o <- output i ;;
  ret (LOutputScope.vout o).

Definition blinded_vout (i : Z) : M t BlindedLTransactionOutput.t :=
  o <- output i ;;
  ret (LOutputScope.blinded_vout o).

Definition hash_issuances : M t bytes :=
  self <- get ;;
  match _hash_issuances self with
  | Some d => ret d
  | None =>
      let d := hashlib.digest
                 (hashlib.update hashlib.new (bytes_mul [x00] (num_inputs self))) in
      _ <- modify (set__hash_issuances (Some d)) ;;
      ret d
  end.

Definition hash_rangeproofs : M t bytes :=
  self <- get ;;
  match _hash_rangeproofs self with
  | Some d => ret d
  | None =>
      h <- for_in (range (num_outputs self))
             (fun i h =>
                out <- blinded_vout i ;;
                let w := BlindedLTransactionOutput.witness out in
                let h := hashlib.update h (RangeProof.serialize (TxOutWitness.range_proof w)) in
                let h := hashlib.update h (SurjectionProof.serialize (TxOutWitness.surjection_proof w)) in
                ret h)
             hashlib.new ;;
      let d := hashlib.digest h in
      _ <- modify (set__hash_rangeproofs (Some d)) ;;
      ret d
  end.

Definition hash_outputs : M t bytes :=
  self <- get ;;
  match _hash_outputs self with
  | Some d => ret d
  | None =>
      h <- for_in (range (num_outputs self))
             (fun i h =>
                out <- blinded_vout i ;;
                ret (hashlib.update h (BlindedLTransactionOutput.serialize out)))
             hashlib.new ;;
      let d := hashlib.digest h in
      _ <- modify (set__hash_outputs (Some d)) ;;
      ret d
  end.

(** [sh in [SIGHASH.NONE, SIGHASH.SINGLE]] *)
Definition in_none_single (sh : Z) : bool :=
  existsb (Z.eqb sh) [SIGHASH_NONE; SIGHASH_SINGLE].

(** Lines 193-202: what the [h.update] calls of the outputs branch feed to
    the hasher, in order. *)
Definition sighash_outputs_term (sh : Z) (hash_rangeproofs_flag : bool)
    (input_index : Z) : M t bytes :=
  self <- get ;;
  if negb (in_none_single sh) then
    ho <- hash_outputs ;;
    let fed := hashlib.sha256 ho in
    if hash_rangeproofs_flag then
      hr <- hash_rangeproofs ;;
      ret (fed ++ hashlib.sha256 hr)
    else ret fed
  else if (sh =? SIGHASH_SINGLE) && (input_index <? num_outputs self) then
    out <- blinded_vout input_index ;;
    let fed := hashlib.sha256 (hashlib.sha256 (BlindedLTransactionOutput.serialize out)) in
    if hash_rangeproofs_flag then
      out <- blinded_vout input_index ;;
      let w := BlindedLTransactionOutput.witness out in
      ret (fed ++ hashlib.sha256 (hashlib.sha256 (TxOutWitness.serialize w)))
    else ret fed
  else ret zero.

(** The default of the [sighash] parameter. *)
Definition sighash_segwit_default : Z := Z.lor SIGHASH_ALL LSIGHASH_RANGEPROOF.

(** [sighash_segwit] up to line 204: the hasher [h] after its last
    [update]. The optional [sighash] is [None] when the caller leaves the
    argument out. *)
Definition sighash_segwit_hasher (input_index : Z) (script_pubkey : Script.t)
    (value : amount) (sighash : option Z) : M t hashlib.hasher :=
  let sighash := match sighash with
                 | Some s => s
                 | None => sighash_segwit_default
                 end in
  self <- get ;;
  if (input_index <? 0) || (input_index >=? num_inputs self)
  then raise (PSBTError "Invalid input index") else
  '(sh, anyonecanpay, hash_rangeproofs_flag) <- lift (LSIGHASH_check sighash) ;;
  inp <- vin input_index ;;
  let h := hashlib.new in
  ver <- call tx_version ;;
  b <- lift (int_to_bytes ver 4 little) ;;
  let h := hashlib.update h b in
  h <- (if (anyonecanpay : bool) then ret (hashlib.update h zero)
        else hp <- call hash_prevouts ;;
             ret (hashlib.update h (hashlib.sha256 hp))) ;;
  h <- (if anyonecanpay || in_none_single sh then ret (hashlib.update h zero)
        else hs <- call hash_sequence ;;
             ret (hashlib.update h (hashlib.sha256 hs))) ;;
  hi <- hash_issuances ;;
  let h := hashlib.update h (hashlib.sha256 hi) in
  let h := hashlib.update h (rev (LTransactionInput.txid inp)) in
  b <- lift (int_to_bytes (LTransactionInput.vout inp) 4 little) ;;
  let h := hashlib.update h b in
  let h := hashlib.update h (Script.serialize script_pubkey) in
  b <- lift (sighash_value_term value) ;;
  let h := hashlib.update h b in
  b <- lift (int_to_bytes (LTransactionInput.sequence inp) 4 little) ;;
  let h := hashlib.update h b in
  b <- sighash_outputs_term sh hash_rangeproofs_flag input_index ;;
  let h := hashlib.update h b in
  lt <- call locktime ;;
  b <- lift (int_to_bytes lt 4 little) ;;
  let h := hashlib.update h b in
  b <- lift (int_to_bytes sighash 4 little) ;;
  let h := hashlib.update h b in
  ret h.

Definition sighash_segwit (input_index : Z) (script_pubkey : Script.t)
    (value : amount) (sighash : option Z) : M t bytes :=
  h <- sighash_segwit_hasher input_index script_pubkey value sighash ;;
  ret (hashlib.sha256 (hashlib.digest h)).

Definition sighash_legacy (input_index : Z) (script_pubkey : Script.t)
    (sighash : option Z) : M t bytes :=
  raise NotImplementedError.

Definition sighash_taproot (input_index : Z) (script_pubkeys : list Script.t)
    (values : list amount) (sighash : option Z) : M t bytes :=
  raise NotImplementedError.

End Methods.

End PSETView.

(** ** Sample documents

    A two-input, one-output unsigned Liquid transaction and two PSET views,
    one with the transaction attached and one with per-input scopes only,
    on which the view is run. *)

Module Sample.

(** Input 0: a plain input spending output 1. *)
Definition input0 : bytes :=
  repeat x11 32 ++ [x01; x00; x00; x00] ++ [x00] ++ [xfe; xff; xff; xff].

(** Input 1: bit 31 of vout set, so an issuance follows: nonce, entropy,
    an explicit amount and no token amount. *)
Definition input1 : bytes :=
  repeat x22 32 ++ [x00; x00; x00; x80] ++ [x00] ++ [xff; xff; xff; xff]
  ++ repeat x00 32 ++ repeat x33 32
  ++ [x01; x00; x00; x00; x00; x00; x00; x03; xe8] ++ [x00].

(** Output 0: explicit asset and value, no ecdh pubkey, a two-byte script. *)
Definition output0 : bytes :=
  x01 :: repeat xaa 32
  ++ [x01; x00; x00; x00; x00; x00; x00; x27; x10]
  ++ [x00] ++ [x02; x51; x52].

Definition tx_bytes : bytes :=
  [x02; x00; x00; x00] ++ [x00] ++ [x02] ++ input0 ++ input1
  ++ [x01] ++ output0 ++ [x00; x00; x00; x00].

Definition tx_view : GlobalLTransactionView.t :=
  GlobalLTransactionView.init (mkBytesIO tx_bytes 0) 0.

(** A view of a transaction without inputs and outputs. *)
Definition empty_tx_view : GlobalLTransactionView.t :=
  GlobalLTransactionView.init
    (mkBytesIO [x02; x00; x00; x00; x00; x00; x00; x00; x00; x00; x00] 0) 0.

Definition blinded_output0 : BlindedLTransactionOutput.t :=
  BlindedLTransactionOutput.mk output0
    (TxOutWitness.mk (RangeProof.mk [x01; xc0]) (SurjectionProof.mk [x01; xd0])
       [x01; xd0; x01; xc0]).

Definition output_scope (i : Z) : result LOutputScope.t :=
  if i =? 0
  then Ok (LOutputScope.mk (LTransactionOutput.mk output0) blinded_output0)
  else Raise (CollaboratorError "no such scope").

(** The view of a PSET that embeds the transaction. *)
Definition pset : PSETView.t :=
  PSETView.mk 2 1 (Some tx_view)
    (fun _ _ => Ok None) output_scope
    (Ok 2) (Ok 0) (Ok (repeat x44 32)) (Ok (repeat x55 32))
    None None None.

(** Per-input scopes of a PSET without embedded transaction: key type
    [0x0e] is the previous txid, [0x0f] the previous vout, [0x10] the
    sequence, which input 1 does not give. *)
Definition scope_value (i : Z) (key : bytes) : result (option bytes) :=
  if bytes_eqb key [x0e] then Ok (Some (repeat (if i =? 0 then x11 else x22) 31 ++ [x99]))
  else if bytes_eqb key [x0f] then Ok (Some [x01; x00; x00; x00])
  else if bytes_eqb key [x10] && (i =? 0) then Ok (Some [xfe; xff; xff; xff])
  else Ok None.

Definition pset_v2 : PSETView.t :=
  PSETView.mk 2 1 None
    scope_value output_scope
    (Ok 2) (Ok 0) (Ok (repeat x44 32)) (Ok (repeat x55 32))
    None None None.

Definition script_pubkey : Script.t := Script.mk [x02; x51; x52].

End Sample.


(** ** Shapes of streams

    Decidable descriptions of what lies in a buffer, for the statements
    about the transaction view. *)

Module Layout.

(** At position [p] starts an input whose four vout bytes are there and
    announce no issuance: the field is [0xFFFFFFFF] or has bit 31 clear. *)
Definition plain_input_at (b : bytes) (p : nat) : bool :=
  let field := firstn 4 (skipn (p + 32) b) in
  (length field =? 4)%nat
  && ((int_from_bytes_little field =? 0xFFFFFFFF)
      || negb (Z.testbit (int_from_bytes_little field) 31)).

(** [k] such inputs follow each other from position [p] on. *)
Fixpoint plain_inputs (b : bytes) (p : nat) (k : nat) : bool :=
  match k with
  | O => true
  | S k' => plain_input_at b p && plain_inputs b (p + 41) k'
  end.

(** Payload sizes that [_skip_output] derives from the two tag bytes of an
    output. *)
Definition value_payload (tag : byte) : nat :=
  if bytes_eqb [tag] [x01] then 8 else 32.

Definition ecdh_payload (tag : byte) : nat :=
  if bytes_eqb [tag] [x00] then 0 else 32.

End Layout.

(** What a PSET view takes from its document: the counts and the reading
    methods of the base class. The methods of the view change the attached
    transaction view and the digest caches only. *)
Definition same_document (s s' : PSETView.t) : Prop :=
  PSETView.num_inputs s' = PSETView.num_inputs s
  /\ PSETView.num_outputs s' = PSETView.num_outputs s
  /\ PSETView.scope_value s' = PSETView.scope_value s
  /\ PSETView.output_scope s' = PSETView.output_scope s
  /\ PSETView.tx_version s' = PSETView.tx_version s
  /\ PSETView.locktime s' = PSETView.locktime s
  /\ PSETView.hash_prevouts s' = PSETView.hash_prevouts s
  /\ PSETView.hash_sequence s' = PSETView.hash_sequence s.

(** The serialized outputs and proofs that the digests run over. *)
Definition serialized_output (o : LOutputScope.t) : bytes :=
  BlindedLTransactionOutput.serialize (LOutputScope.blinded_vout o).

Definition serialized_proofs (o : LOutputScope.t) : bytes :=
  let w := BlindedLTransactionOutput.witness (LOutputScope.blinded_vout o) in
  RangeProof.serialize (TxOutWitness.range_proof w)
  ++ SurjectionProof.serialize (TxOutWitness.surjection_proof w).

(** The fields [sighash_segwit] feeds to its hasher, in order, with where
    each comes from: [h] is what the hasher holds after the last [update]
    of a run on [self] with the flags [flags] that ends on [self']. *)
Definition sighash_fields {C : Collaborators} (self self' : PSETView.t)
    (input_index : Z) (script_pubkey : Script.t) (value : amount) (flags : Z)
    (h : hashlib.hasher) : Prop :=
  exists sh anyonecanpay rangeproof inp s1 s2
         b_version t_prevouts t_sequence hi b_vout b_value b_sequence
         t_outputs b_locktime b_flags,
    0 <= input_index < PSETView.num_inputs self
    /\ LSIGHASH_check flags = Ok (sh, anyonecanpay, rangeproof)
    /\ PSETView.vin input_index self = Ok (inp, s1)
    /\ (exists ver, PSETView.tx_version s1 = Ok ver
                   /\ int_to_bytes ver 4 little = Ok b_version)
    /\ (if anyonecanpay then t_prevouts = PSETView.zero
        else exists hp, PSETView.hash_prevouts s1 = Ok hp
                        /\ t_prevouts = hashlib.sha256 hp)
    /\ (if anyonecanpay || PSETView.in_none_single sh then t_sequence = PSETView.zero
        else exists hs, PSETView.hash_sequence s1 = Ok hs
                        /\ t_sequence = hashlib.sha256 hs)
    /\ PSETView.hash_issuances s1 = Ok (hi, s2)
    /\ int_to_bytes (LTransactionInput.vout inp) 4 little = Ok b_vout
    /\ PSETView.sighash_value_term value = Ok b_value
    /\ int_to_bytes (LTransactionInput.sequence inp) 4 little = Ok b_sequence
    /\ PSETView.sighash_outputs_term sh rangeproof input_index s2 = Ok (t_outputs, self')
    /\ (exists lock, PSETView.locktime self' = Ok lock
                    /\ int_to_bytes lock 4 little = Ok b_locktime)
    /\ int_to_bytes flags 4 little = Ok b_flags
    /\ h = b_version ++ t_prevouts ++ t_sequence ++ hashlib.sha256 hi
           ++ rev (LTransactionInput.txid inp) ++ b_vout
           ++ Script.serialize script_pubkey ++ b_value ++ b_sequence
           ++ t_outputs ++ b_locktime ++ b_flags.

(** ** More sample documents *)

Module Sample2.

(** A second plain input, with the vout [0xFFFFFFFF]. *)
Definition input_ff : bytes :=
  repeat x66 32 ++ [xff; xff; xff; xff] ++ [x00] ++ [xff; xff; xff; xff].

(** A transaction of two inputs without issuance and one output. *)
Definition plain_tx_bytes : bytes :=
  [x02; x00; x00; x00] ++ [x00] ++ [x02] ++ Sample.input0 ++ input_ff
  ++ [x01] ++ Sample.output0 ++ [x00; x00; x00; x00].

Definition plain_tx_view : GlobalLTransactionView.t :=
  GlobalLTransactionView.init (mkBytesIO plain_tx_bytes 0) 0.

(** A stream that ends two bytes into the vout field of an input. *)
Definition truncated_view : GlobalLTransactionView.t :=
  GlobalLTransactionView.init (mkBytesIO (repeat x11 32 ++ [x01; x00]) 0) 0.

(** An empty stream that stands ten bytes before the last position, as
    [stream.seek(2**63 - 11)] leaves it. *)
Definition far_position : nat := Z.to_nat (PY_SSIZE_T_MAX - 10).

Definition far_view : GlobalLTransactionView.t :=
  GlobalLTransactionView.init (mkBytesIO [] far_position) 0.

(** A PSET of two outputs whose second output cannot be read. *)
Definition output_scope (i : Z) : result LOutputScope.t :=
  if i =? 0
  then Ok (LOutputScope.mk (LTransactionOutput.mk Sample.output0) Sample.blinded_output0)
  else Raise (CollaboratorError "unreadable output").

Definition pset_unreadable : PSETView.t :=
  PSETView.mk 1 2 None Sample.scope_value output_scope
    (Ok 2) (Ok 0) (Ok (repeat x44 32)) (Ok (repeat x55 32))
    None None None.

(** A PSET whose input scope has a txid and a vout and an empty sequence
    field, and one whose input scope has no field at all. *)
Definition scope_empty_sequence (i : Z) (key : bytes) : result (option bytes) :=
  if bytes_eqb key [x0e] then Ok (Some (repeat x11 32))
  else if bytes_eqb key [x0f] then Ok (Some [x01; x00; x00; x00])
  else if bytes_eqb key [x10] then Ok (Some [])
  else Ok None.

Definition pset_empty_sequence : PSETView.t :=
  PSETView.mk 1 1 None scope_empty_sequence Sample.output_scope
    (Ok 2) (Ok 0) (Ok (repeat x44 32)) (Ok (repeat x55 32))
    None None None.

Definition pset_no_fields : PSETView.t :=
  PSETView.mk 1 1 None (fun _ _ => Ok None) Sample.output_scope
    (Ok 2) (Ok 0) (Ok (repeat x44 32)) (Ok (repeat x55 32))
    None None None.

(** The same PSET with a byte in the cache of [hash_outputs]. *)
Definition pset_unreadable_cached : PSETView.t :=
  PSETView.set__hash_outputs (Some [x07]) pset_unreadable.

(** An output whose script announces [2^64 - 1] bytes: asset, explicit
    value, no ecdh key, and the compact length [0xff] before eight bytes
    [0xff]. *)
Definition long_script_output : bytes :=
  repeat x0a 33 ++ [x01] ++ repeat x00 8 ++ [x00] ++ [xff] ++ repeat xff 8.

Definition long_script_view : GlobalLTransactionView.t :=
  GlobalLTransactionView.init (mkBytesIO long_script_output 0) 0.

(** A view with a stale digest in every cache. *)
Definition pset_stale : PSETView.t :=
  PSETView.mk 2 1 None Sample.scope_value Sample.output_scope
    (Ok 2) (Ok 0) (Ok (repeat x44 32)) (Ok (repeat x55 32))
    (Some [x00]) (Some [x01]) (Some [x02]).

End Sample2.


(** * Properties *)

(** ** Bytes *)

Lemma bytes_eqb_eq (a b : bytes) : bytes_eqb a b = true <-> a = b.
Proof.
  unfold bytes_eqb. destruct (list_eq_dec byte_eq_dec a b); split; congruence.
Qed.

Lemma bytes_eqb_refl (a : bytes) : bytes_eqb a a = true.
Proof. now apply bytes_eqb_eq. Qed.

Lemma bytes_eqb_neq (a b : bytes) : a <> b -> bytes_eqb a b = false.
Proof.
  intros H. destruct (bytes_eqb a b) eqn:E; [|reflexivity].
  apply bytes_eqb_eq in E. contradiction.
Qed.

Lemma byte_to_Z_range (b : byte) : 0 <= byte_to_Z b < 256.
Proof.
  unfold byte_to_Z. pose proof (Byte.to_N_bounded b) as H. lia.
Qed.

Lemma int_from_bytes_little_range (b : bytes) :
  0 <= int_from_bytes_little b < 2 ^ (8 * Z.of_nat (length b)).
Proof.
  induction b as [|x r IH]; cbn [int_from_bytes_little].
  - simpl. lia.
  - pose proof (byte_to_Z_range x) as Hx.
    replace (8 * Z.of_nat (length (x :: r))) with (8 + 8 * Z.of_nat (length r))
      by (simpl length; lia).
    rewrite Z.pow_add_r by lia. change (2 ^ 8) with 256.
    set (P := 2 ^ (8 * Z.of_nat (length r))) in *. lia.
Qed.

Lemma le_digits_length (len : nat) (n : Z) : length (le_digits len n) = len.
Proof.
  revert n. induction len as [|k IH]; intros n; simpl; [reflexivity|].
  now rewrite IH.
Qed.

Lemma bytes_mul_zero_length (n : Z) :
  0 <= n -> Z.of_nat (length (bytes_mul [x00] n)) = n.
Proof.
  intros Hn. unfold bytes_mul.
  assert (H : forall k, length (concat (repeat [x00] k)) = k).
  { induction k as [|k IH]; simpl; [reflexivity|now rewrite IH]. }
  rewrite H. lia.
Qed.

Lemma bytes_mul_zero_repeat (n : Z) :
  bytes_mul [x00] n = repeat x00 (Z.to_nat n).
Proof.
  unfold bytes_mul. induction (Z.to_nat n) as [|k IH]; simpl; [reflexivity|].
  now rewrite IH.
Qed.

Lemma int_to_bytes_ok (n : Z) (len : nat) (order : byteorder) :
  0 <= n < 2 ^ (8 * Z.of_nat len) ->
  exists b, int_to_bytes n len order = Ok b /\ length b = len.
Proof.
  intros [H0 H1]. unfold int_to_bytes.
  replace (n <? 0) with false by (symmetry; apply Z.ltb_ge; lia).
  replace (2 ^ (8 * Z.of_nat len) <=? n) with false
    by (symmetry; apply Z.leb_gt; lia).
  simpl. eexists. split; [reflexivity|].
  destruct order; [|rewrite length_rev]; apply le_digits_length.
Qed.

Lemma int_to_bytes_length (n : Z) (len : nat) (order : byteorder) (b : bytes) :
  int_to_bytes n len order = Ok b -> length b = len.
Proof.
  unfold int_to_bytes. destruct (_ || _); [discriminate|].
  intros H. injection H as <-.
  destruct order; [|rewrite length_rev]; apply le_digits_length.
Qed.

(** Bit [k] of [v] is what [v & (1 << k) != 0] tests. *)
Lemma land_shiftl_testbit (v k : Z) :
  0 <= k -> negb (Z.land v (Z.shiftl 1 k) =? 0) = Z.testbit v k.
Proof.
  intros Hk. rewrite Z.shiftl_1_l.
  destruct (Z.testbit v k) eqn:E.
  - apply negb_true_iff, Z.eqb_neq. intros H0.
    assert (Hb : Z.testbit (Z.land v (2 ^ k)) k = true).
    { rewrite Z.land_spec, E, Z.pow2_bits_true by lia. reflexivity. }
    rewrite H0, Z.bits_0 in Hb. discriminate.
  - apply negb_false_iff, Z.eqb_eq. apply Z.bits_inj'. intros n Hn.
    rewrite Z.land_spec, Z.bits_0, Z.pow2_bits_eqb by lia.
    destruct (Z.eqb_spec k n) as [->|]; [rewrite E|]; now rewrite ?andb_false_r.
Qed.

(** ** hashlib *)

Module hashlibFacts.
Import hashlib.

Lemma round_state_length (acc : list Z * list Z) (k : Z) :
  length (fst acc) = 8%nat -> length (fst (round acc k)) = 8%nat.
Proof.
  destruct acc as [st w]. cbn [fst]. intros H.
  do 9 (destruct st as [|? st]; try discriminate H).
  reflexivity.
Qed.

Lemma rounds_state_length (ks : list Z) (acc : list Z * list Z) :
  length (fst acc) = 8%nat -> length (fst (fold_left round ks acc)) = 8%nat.
Proof.
  revert acc. induction ks as [|k r IH]; intros acc H; [exact H|].
  cbn [fold_left]. apply IH. now apply round_state_length.
Qed.

Lemma compress_length (st : list Z) (block : bytes) :
  length st = 8%nat -> length (compress st block) = 8%nat.
Proof.
  intros H. unfold compress.
  pose proof (rounds_state_length round_constants (st, words_of 16 block) H) as R.
  destruct (fold_left round round_constants (st, words_of 16 block)) as [st' w].
  cbn [fst] in R. now rewrite length_map, length_combine, H, R.
Qed.

Lemma blocks_length (n : nat) (st : list Z) (b : bytes) :
  length st = 8%nat -> length (blocks n st b) = 8%nat.
Proof.
  revert st b. induction n as [|k IH]; intros st b H; [exact H|].
  cbn [blocks]. apply IH. now apply compress_length.
Qed.

(** A digest is 32 bytes long. *)
Lemma sha256_length (msg : bytes) : length (sha256 msg) = 32%nat.
Proof.
  unfold sha256.
  assert (H : forall l : list Z,
             length (flat_map (fun w => rev (le_digits 4 w)) l)
             = (4 * length l)%nat).
  { induction l as [|w l IH]; [reflexivity|].
    cbn [flat_map]. rewrite length_app, length_rev, le_digits_length, IH.
    cbn [length]. lia. }
  rewrite H, blocks_length; reflexivity.
Qed.

End hashlibFacts.

(** ** Stream *)

Lemma read_one_some (l : bytes) (n : nat) (x : byte) :
  nth_error l n = Some x -> firstn 1 (skipn n l) = [x].
Proof.
  revert l. induction n as [|n IH]; intros [|y l]; simpl; try discriminate.
  - now intros [= ->].
  - apply IH.
Qed.

Lemma read_one_none (l : bytes) (n : nat) :
  nth_error l n = None -> firstn 1 (skipn n l) = [].
Proof.
  intros H. apply nth_error_None in H. now rewrite skipn_all2.
Qed.

Lemma valid_bounds (s : BytesIO) :
  io.valid s = true ->
  Z.of_nat (length (buf s)) <= PY_SSIZE_T_MAX - 33
  /\ Z.of_nat (pos s) <= PY_SSIZE_T_MAX.
Proof.
  unfold io.valid. intros H. apply andb_true_iff in H. destruct H as [A B].
  apply Z.leb_le in A, B. now split.
Qed.

(** A relative seek forward that stays in the range of positions. *)
Lemma seek_cur_forward (n : Z) (s : BytesIO) :
  0 <= n <= PY_SSIZE_T_MAX ->
  (io.valid s = true -> Z.of_nat (pos s) + n <= PY_SSIZE_T_MAX) ->
  io.seek_cur n s =
  Ok (Z.of_nat (pos s) + n, mkBytesIO (buf s) (pos s + Z.to_nat n)).
Proof.
  intros Hn Hroom. unfold io.seek_cur. cbv zeta.
  rewrite Z.max_r by lia.
  replace (Z.to_nat (Z.of_nat (pos s) + n)) with (pos s + Z.to_nat n)%nat by lia.
  replace (n <? PY_SSIZE_T_MIN) with false
    by (symmetry; apply Z.ltb_ge; unfold PY_SSIZE_T_MIN; lia).
  replace (PY_SSIZE_T_MAX <? n) with false by (symmetry; apply Z.ltb_ge; lia).
  cbn [orb].
  destruct (Z.ltb_spec (PY_SSIZE_T_MAX - Z.of_nat (pos s)) n) as [Hover|_];
    [|reflexivity].
  destruct (io.valid s) eqn:V; [|reflexivity].
  specialize (Hroom eq_refl). lia.
Qed.

(** A seek over at most 33 bytes from a position inside the buffer: a
    [bytes] object ends 33 bytes before the last position at least. *)
Lemma seek_cur_inside (n : Z) (s : BytesIO) :
  0 <= n <= 33 ->
  (pos s <= length (buf s))%nat ->
  io.seek_cur n s =
  Ok (Z.of_nat (pos s) + n, mkBytesIO (buf s) (pos s + Z.to_nat n)).
Proof.
  intros Hn Hin. apply seek_cur_forward.
  - unfold PY_SSIZE_T_MAX. lia.
  - intros V. apply valid_bounds in V. lia.
Qed.

(** A relative seek forward returns, or raises [OverflowError] when its
    target is no position. *)
Lemma seek_cur_cases (n : Z) (s : BytesIO) :
  0 <= n ->
  io.seek_cur n s =
  Ok (Z.of_nat (pos s) + n, mkBytesIO (buf s) (pos s + Z.to_nat n))
  \/ (io.seek_cur n s = Raise OverflowError
      /\ PY_SSIZE_T_MAX < Z.of_nat (pos s) + n).
Proof.
  intros Hn.
  destruct (Z.le_gt_cases (Z.of_nat (pos s) + n) PY_SSIZE_T_MAX) as [Hfit|Hover].
  - left. apply seek_cur_forward; [lia|now intros _].
  - unfold io.seek_cur. cbv zeta.
    rewrite Z.max_r by lia.
    replace (Z.to_nat (Z.of_nat (pos s) + n)) with (pos s + Z.to_nat n)%nat by lia.
    destruct ((n <? PY_SSIZE_T_MIN) || (PY_SSIZE_T_MAX <? n)); [now right|].
    destruct (PY_SSIZE_T_MAX - Z.of_nat (pos s) <? n); [|now left].
    destruct (io.valid s); [now right|now left].
Qed.

(** The seek that raises: a target beyond the last position of a
    stream. *)
Lemma seek_cur_overflow (n : Z) (s : BytesIO) :
  0 <= n ->
  PY_SSIZE_T_MAX < Z.of_nat (pos s) + n ->
  io.valid s = true ->
  io.seek_cur n s = Raise OverflowError.
Proof.
  intros Hn Hover V. unfold io.seek_cur. cbv zeta.
  destruct ((n <? PY_SSIZE_T_MIN) || (PY_SSIZE_T_MAX <? n)); [reflexivity|].
  replace (PY_SSIZE_T_MAX - Z.of_nat (pos s) <? n) with true
    by (symmetry; apply Z.ltb_lt; lia).
  now rewrite V.
Qed.

Lemma nth_error_inside {A : Type} (l : list A) (n : nat) (x : A) :
  nth_error l n = Some x -> (n < length l)%nat.
Proof. intros H. apply nth_error_Some. congruence. Qed.

Lemma commitment_size_cases (tag : byte) :
  commitment_size tag =
  if bytes_eqb [tag] [x00] then 1 else if bytes_eqb [tag] [x01] then 9 else 33.
Proof. destruct tag; reflexivity. Qed.

Lemma commitment_size_other (tag : byte) :
  tag <> x00 -> tag <> x01 -> commitment_size tag = 33.
Proof. destruct tag; intros H0 H1; try reflexivity; contradiction. Qed.

Lemma commitment_size_pos (tag : byte) : 0 < commitment_size tag.
Proof. destruct tag; reflexivity. Qed.

Lemma skip_commitment_tag (s : BytesIO) (tag : byte) :
  nth_error (buf s) (pos s) = Some tag ->
  skip_commitment s =
  Ok (commitment_size tag,
      mkBytesIO (buf s) (pos s + Z.to_nat (commitment_size tag))).
Proof.
  intros H. unfold skip_commitment, bind, io.read.
  change (1 <? 0) with false. change (Z.to_nat 1) with 1%nat. cbv zeta.
  rewrite (read_one_some _ _ H). cbn [length Nat.eqb negb].
  rewrite commitment_size_cases. apply nth_error_inside in H.
  destruct (bytes_eqb [tag] [x00]); [reflexivity|].
  destruct (bytes_eqb [tag] [x01]);
    (rewrite seek_cur_inside by (cbn [buf pos length]; lia));
    unfold ret; cbn [buf pos]; do 2 f_equal; f_equal; simpl length; lia.
Qed.

Lemma skip_commitment_short (s : BytesIO) :
  nth_error (buf s) (pos s) = None -> skip_commitment s = Raise AssertionError.
Proof.
  intros H. unfold skip_commitment, bind, io.read.
  change (1 <? 0) with false. change (Z.to_nat 1) with 1%nat. cbv zeta.
  rewrite (read_one_none _ _ H). reflexivity.
Qed.

(** C5. The commitment skipper reads the one tag byte under the position
    and is determined by it alone: it returns 1, 9 or 33 for the tags
    [0x00], [0x01] and any other byte, leaves the buffer as it was and the
    position advanced by exactly the returned count; it raises only when
    no byte is left to read at the position (a short read). *)
Theorem skip_commitment_consumes (s : BytesIO) :
  match nth_error (buf s) (pos s) with
  | Some tag =>
      skip_commitment s =
      Ok (commitment_size tag,
          mkBytesIO (buf s) (pos s + Z.to_nat (commitment_size tag)))
      /\ (tag = x00 -> commitment_size tag = 1)
      /\ (tag = x01 -> commitment_size tag = 9)
      /\ (tag <> x00 -> tag <> x01 -> commitment_size tag = 33)
  | None =>
      skip_commitment s = Raise AssertionError
      /\ (length (buf s) <= pos s)%nat
  end.
Proof.
  destruct (nth_error (buf s) (pos s)) as [tag|] eqn:E.
  - split; [now apply skip_commitment_tag|].
    repeat split.
    + now intros ->.
    + now intros ->.
    + apply commitment_size_other.
  - split; [now apply skip_commitment_short|].
    now apply nth_error_None.
Qed.

(** ** The monad *)

Lemma bind_ok {S A B : Type} (m : M S A) (k : A -> M S B) (s s' : S) (a : A) :
  m s = Ok (a, s') -> bind m k s = k a s'.
Proof. intros H. unfold bind. now rewrite H. Qed.

Lemma bind_raise {S A B : Type} (m : M S A) (k : A -> M S B) (s : S) (e : exn) :
  m s = Raise e -> bind m k s = Raise e.
Proof. intros H. unfold bind. now rewrite H. Qed.

Lemma bind_inv {S A B : Type} (m : M S A) (k : A -> M S B) (s s2 : S) (b : B) :
  bind m k s = Ok (b, s2) ->
  exists a s1, m s = Ok (a, s1) /\ k a s1 = Ok (b, s2).
Proof.
  unfold bind. destruct (m s) as [[a s1]|e]; [|discriminate].
  intros H. now exists a, s1.
Qed.

Lemma skip_commitment_ok_inv (s s' : BytesIO) (n : Z) :
  skip_commitment s = Ok (n, s') ->
  buf s' = buf s /\ Z.of_nat (pos s') = Z.of_nat (pos s) + n
  /\ (n = 1 \/ n = 9 \/ n = 33).
Proof.
  destruct (nth_error (buf s) (pos s)) as [tag|] eqn:E.
  - rewrite (skip_commitment_tag _ E). intros H. injection H as <- <-.
    cbn [buf pos]. pose proof (commitment_size_pos tag).
    repeat split; [lia|].
    rewrite commitment_size_cases.
    destruct (bytes_eqb [tag] [x00]); [now left|].
    destruct (bytes_eqb [tag] [x01]); [now right; left|now right; right].
  - rewrite (skip_commitment_short _ E). discriminate.
Qed.

Module GlobalLTransactionViewFacts.
Import GlobalLTransactionView.

Lemma stream_set_stream (s : BytesIO) (v : t) : stream (set_stream s v) = s.
Proof. reflexivity. Qed.

Lemma set_stream_twice (s s' : BytesIO) (v : t) :
  set_stream s (set_stream s' v) = set_stream s v.
Proof. reflexivity. Qed.

Lemma on_stream_ok {A : Type} (m : M BytesIO A) (v : t) (a : A) (s' : BytesIO) :
  m (stream v) = Ok (a, s') -> on_stream m v = Ok (a, set_stream s' v).
Proof. intros H. unfold on_stream. now rewrite H. Qed.

Lemma on_stream_raise {A : Type} (m : M BytesIO A) (v : t) (e : exn) :
  m (stream v) = Raise e -> on_stream m v = Raise e.
Proof. intros H. unfold on_stream. now rewrite H. Qed.

Lemma valid_earlier (s s' : BytesIO) :
  buf s = buf s' -> (pos s <= pos s')%nat ->
  io.valid s' = true -> io.valid s = true.
Proof.
  intros Hb Hp V. apply valid_bounds in V. destruct V as [A B].
  unfold io.valid. rewrite Hb. apply andb_true_iff.
  split; apply Z.leb_le; lia.
Qed.

(** The first 41 bytes of an input: txid, vout, empty scriptsig and
    sequence, on a stream whose positions reach that far. The position
    moves by 41, less what the vout field is short of, and the vout field
    is what four bytes were read 32 bytes in. *)
Lemma skip_input_unfold (v : t) :
  let s := stream v in
  let field := firstn 4 (skipn (pos s + 32) (buf s)) in
  let vout := int_from_bytes_little field in
  let v1 := set_stream (mkBytesIO (buf s) (pos s + 32 + length field + 5)) v in
  (io.valid s = true ->
   Z.of_nat (pos s) + 37 + Z.of_nat (length field) <= PY_SSIZE_T_MAX) ->
  _skip_input v =
  if negb (vout =? 0xFFFFFFFF) then
    if negb (Z.land vout (Z.shiftl 1 31) =? 0) then
      (_ <- on_stream (io.seek_cur (32 + 32)) ;;
       n1 <- on_stream skip_commitment ;;
       n2 <- on_stream skip_commitment ;;
       ret (32 + 4 + 5 + 64 + n1 + n2)) v1
    else Ok (41, v1)
  else Ok (41, v1).
Proof.
  intros s field vout v1 Hroom. unfold _skip_input.
  erewrite bind_ok.
  2:{ apply on_stream_ok, seek_cur_forward; [unfold PY_SSIZE_T_MAX; lia|].
      fold s. intros V. specialize (Hroom V). lia. }
  erewrite bind_ok by (apply on_stream_ok; reflexivity).
  cbn [stream set_stream buf pos].
  change (4 <? 0) with false. cbv iota.
  change (Z.to_nat 32) with 32%nat. change (Z.to_nat 4) with 4%nat.
  fold s. fold field.
  erewrite bind_ok.
  2:{ apply on_stream_ok, seek_cur_forward; [unfold PY_SSIZE_T_MAX; lia|].
      cbn [stream set_stream buf pos]. intros V.
      assert (V' : io.valid s = true)
        by (eapply valid_earlier; [| |exact V]; cbn [buf pos]; [reflexivity|lia]).
      specialize (Hroom V'). lia. }
  cbn [stream set_stream buf pos].
  change (Z.to_nat 5) with 5%nat. rewrite !set_stream_twice.
  fold vout. fold v1.
  destruct (negb (vout =? 0xFFFFFFFF)); [|reflexivity].
  destruct (negb (Z.land vout (Z.shiftl 1 31) =? 0)); reflexivity.
Qed.

(** The 64 bytes of nonce and entropy behind an issuance flag. *)
Lemma skip_issuance_unfold (v : t) :
  let s := stream v in
  (io.valid s = true -> Z.of_nat (pos s) + 64 <= PY_SSIZE_T_MAX) ->
  (_ <- on_stream (io.seek_cur (32 + 32)) ;;
   n1 <- on_stream skip_commitment ;;
   n2 <- on_stream skip_commitment ;;
   ret (32 + 4 + 5 + 64 + n1 + n2)) v
  = (n1 <- on_stream skip_commitment ;;
     n2 <- on_stream skip_commitment ;;
     ret (32 + 4 + 5 + 64 + n1 + n2))
      (set_stream (mkBytesIO (buf s) (pos s + 64)) v).
Proof.
  intros s Hroom.
  erewrite bind_ok.
  2:{ apply on_stream_ok, seek_cur_forward; [unfold PY_SSIZE_T_MAX; lia|].
      fold s. intros V. specialize (Hroom V). lia. }
  reflexivity.
Qed.

(** A commitment that was skipped had its tag byte in the buffer. *)
Lemma skip_commitment_ok_inside (s s' : BytesIO) (n : Z) :
  skip_commitment s = Ok (n, s') -> (pos s < length (buf s))%nat.
Proof.
  destruct (nth_error (buf s) (pos s)) as [tag|] eqn:E.
  - intros _. now apply nth_error_inside in E.
  - rewrite (skip_commitment_short _ E). discriminate.
Qed.

(** Four bytes read at a place lie inside the buffer. *)
Lemma field_inside (b : bytes) (p k : nat) :
  (0 < k)%nat -> length (firstn k (skipn p b)) = k -> (p + k <= length b)%nat.
Proof.
  rewrite length_firstn, length_skipn. lia.
Qed.

(** C4. For an input whose four-byte vout field is in the stream:
    when the field is [0xFFFFFFFF] or has bit 31 clear, [_skip_input]
    returns 41 and moves the position by 41; when it is not [0xFFFFFFFF]
    and has bit 31 set, [_skip_input] skips 64 more bytes, then two
    commitments, and returns 41 + 64 plus the two counts that
    [skip_commitment] returned, the position having moved by that
    total. *)
Theorem skip_input_consumes (v : t) (field : bytes) :
  let s := stream v in
  firstn 4 (skipn (pos s + 32) (buf s)) = field ->
  length field = 4%nat ->
  let vout := int_from_bytes_little field in
  (vout = 0xFFFFFFFF \/ Z.testbit vout 31 = false ->
   _skip_input v = Ok (41, set_stream (mkBytesIO (buf s) (pos s + 41)) v))
  /\
  (vout <> 0xFFFFFFFF -> Z.testbit vout 31 = true ->
   forall n1 s1 n2 s2,
     skip_commitment (mkBytesIO (buf s) (pos s + 41 + 64)) = Ok (n1, s1) ->
     skip_commitment s1 = Ok (n2, s2) ->
     _skip_input v = Ok (41 + 64 + n1 + n2, set_stream s2 v)
     /\ buf s2 = buf s
     /\ Z.of_nat (pos s2) = Z.of_nat (pos s) + (41 + 64 + n1 + n2)).
Proof.
  intros s Hfield Hlen vout.
  assert (Hin : (pos s + 32 + 4 <= length (buf s))%nat).
  { apply field_inside; [lia|]. now rewrite Hfield. }
  assert (U := skip_input_unfold v). cbv zeta in U. fold s in U.
  rewrite Hfield in U. fold vout in U. rewrite Hlen in U.
  assert (Hroom : io.valid s = true ->
                  Z.of_nat (pos s) + 37 + Z.of_nat 4 <= PY_SSIZE_T_MAX).
  { intros V. apply valid_bounds in V. lia. }
  specialize (U Hroom). rewrite land_shiftl_testbit in U by lia.
  replace (pos s + 32 + 4 + 5)%nat with (pos s + 41)%nat in U by lia.
  split.
  - intros [H|H]; rewrite U.
    + rewrite H. reflexivity.
    + rewrite H. now destruct (negb (vout =? 0xFFFFFFFF)).
  - intros Hne Hbit n1 s1 n2 s2 H1 H2. rewrite U, Hbit.
    apply Z.eqb_neq in Hne. rewrite Hne. cbn [negb].
    pose proof (skip_commitment_ok_inside _ H1) as Hin1. cbn [buf pos] in Hin1.
    rewrite skip_issuance_unfold.
    2:{ cbn [stream set_stream buf pos]. intros V. apply valid_bounds in V.
        cbn [buf pos] in V. lia. }
    cbn [stream set_stream buf pos]. rewrite set_stream_twice.
    erewrite bind_ok by (apply on_stream_ok; exact H1).
    erewrite bind_ok by (apply on_stream_ok; rewrite stream_set_stream; exact H2).
    rewrite set_stream_twice. unfold ret.
    split; [reflexivity|].
    apply skip_commitment_ok_inv in H1, H2. cbn [buf pos] in H1.
    destruct H1 as (B1 & P1 & _), H2 as (B2 & P2 & _).
    split; [congruence|lia].
Qed.

End GlobalLTransactionViewFacts.

Lemma lift_inv {S A : Type} (r : result A) (s s' : S) (a : A) :
  lift r s = Ok (a, s') -> r = Ok a /\ s' = s.
Proof. unfold lift. destruct r; [|discriminate]. intros [= -> ->]. now split. Qed.

Lemma lift_ok {S A : Type} (r : result A) (s : S) (a : A) :
  r = Ok a -> lift r s = Ok (a, s).
Proof. now intros ->. Qed.

Module PSETViewFacts.
Import PSETView.

Lemma call_inv {A : Type} (f : t -> result A) (s s' : t) (a : A) :
  call f s = Ok (a, s') -> f s = Ok a /\ s' = s.
Proof. unfold call. apply lift_inv. Qed.

Lemma call_ok {A : Type} (f : t -> result A) (s : t) (a : A) :
  f s = Ok a -> call f s = Ok (a, s).
Proof. unfold call. apply lift_ok. Qed.

Section WithCollaborators.
Context {C : Collaborators}.

(** *** Bounds checks *)

Lemma tx_vin_negative (i : Z) (v : GlobalLTransactionView.t) :
  i < 0 ->
  GlobalLTransactionView.vin i v = Raise (PSBTError "Invalid input index").
Proof.
  intros H. unfold GlobalLTransactionView.vin.
  apply Z.ltb_lt in H. rewrite H. reflexivity.
Qed.

Lemma tx_vin_beyond (i n : Z) (v v' : GlobalLTransactionView.t) :
  GlobalLTransactionView.num_vin v = Ok (n, v') -> n <= i ->
  GlobalLTransactionView.vin i v = Raise (PSBTError "Invalid input index").
Proof.
  intros Hn H. unfold GlobalLTransactionView.vin.
  destruct (i <? 0); [reflexivity|].
  unfold bind at 1. unfold bind at 1. rewrite Hn. unfold ret.
  replace (i >=? n) with true by (symmetry; apply Z.geb_le; lia).
  reflexivity.
Qed.

Lemma tx_vout_negative (i : Z) (v : GlobalLTransactionView.t) :
  i < 0 ->
  GlobalLTransactionView.vout i v = Raise (PSBTError "Invalid input index").
Proof.
  intros H. unfold GlobalLTransactionView.vout.
  apply Z.ltb_lt in H. rewrite H. reflexivity.
Qed.

Lemma tx_vout_beyond (i n : Z) (v v' : GlobalLTransactionView.t) :
  GlobalLTransactionView.num_vout v = Ok (n, v') -> n <= i ->
  GlobalLTransactionView.vout i v = Raise (PSBTError "Invalid input index").
Proof.
  intros Hn H. unfold GlobalLTransactionView.vout.
  destruct (i <? 0); [reflexivity|].
  unfold bind at 1. unfold bind at 1. rewrite Hn. unfold ret.
  replace (i >=? n) with true by (symmetry; apply Z.geb_le; lia).
  reflexivity.
Qed.

Lemma out_of_range (i n : Z) :
  i < 0 \/ n <= i -> (i <? 0) || (i >=? n) = true.
Proof.
  intros [H|H]; apply orb_true_iff; [left; now apply Z.ltb_lt|right].
  apply Z.geb_le. lia.
Qed.

Lemma in_range (i n : Z) :
  0 <= i < n -> (i <? 0) || (i >=? n) = false.
Proof.
  intros H. apply orb_false_iff. split; [now apply Z.ltb_ge|].
  rewrite Z.geb_leb. apply Z.leb_gt. lia.
Qed.

Lemma vin_out_of_range (i : Z) (self : t) :
  i < 0 \/ num_inputs self <= i ->
  vin i self = Raise (PSBTError "Invalid input index").
Proof.
  intros H. unfold vin, bind, get. now rewrite (out_of_range H).
Qed.

Lemma output_out_of_range (i : Z) (self : t) :
  i < 0 \/ num_outputs self <= i ->
  output i self = Raise (PSBTError "Invalid output index").
Proof.
  intros H. unfold output, bind, get. now rewrite (out_of_range H).
Qed.

(** C3. An index below zero or not below the count makes [vin] and [vout]
    raise the invalid-index error, whatever the count, zero included: on
    the transaction stream view against the counts [num_vin] and
    [num_vout] read from the stream, on the PSET view against
    [num_inputs] and [num_outputs]. *)
Theorem vin_vout_invalid_index (i : Z) :
  (forall v, i < 0 ->
     GlobalLTransactionView.vin i v = Raise (PSBTError "Invalid input index"))
  /\ (forall v n v', GlobalLTransactionView.num_vin v = Ok (n, v') -> n <= i ->
     GlobalLTransactionView.vin i v = Raise (PSBTError "Invalid input index"))
  /\ (forall v, i < 0 ->
     GlobalLTransactionView.vout i v = Raise (PSBTError "Invalid input index"))
  /\ (forall v n v', GlobalLTransactionView.num_vout v = Ok (n, v') -> n <= i ->
     GlobalLTransactionView.vout i v = Raise (PSBTError "Invalid input index"))
  /\ (forall self, i < 0 \/ num_inputs self <= i ->
     vin i self = Raise (PSBTError "Invalid input index"))
  /\ (forall self, i < 0 \/ num_outputs self <= i ->
     vout i self = Raise (PSBTError "Invalid output index")).
Proof.
  repeat split; intros.
  - now apply tx_vin_negative.
  - eapply tx_vin_beyond; eassumption.
  - now apply tx_vout_negative.
  - eapply tx_vout_beyond; eassumption.
  - now apply vin_out_of_range.
  - unfold vout. apply bind_raise. now apply output_out_of_range.
Qed.

(** *** The issuance digest and its cache *)

Lemma clear_cache_issuances (self self' : t) (u : unit) :
  clear_cache self = Ok (u, self') ->
  issuances_cache_ok self' /\ num_inputs self' = num_inputs self.
Proof.
  unfold clear_cache, bind, modify. intros [= _ <-].
  split; [now left|reflexivity].
Qed.

Lemma hash_issuances_run (self : t) :
  issuances_cache_ok self ->
  let d := hashlib.sha256 (bytes_mul [x00] (num_inputs self)) in
  hash_issuances self = Ok (d, set__hash_issuances (Some d) self).
Proof.
  intros H d. unfold hash_issuances, bind, get.
  destruct H as [H|H]; rewrite H.
  - reflexivity.
  - unfold ret. do 2 f_equal. destruct self. cbn in *. now rewrite H.
Qed.

(** C6. On a view whose issuance cache is empty or was filled by
    [hash_issuances], the method returns the SHA-256 digest of
    [num_inputs] zero bytes, a value that depends on nothing but
    [num_inputs], and stores it: the view it leaves is the view with
    [_hash_issuances] set to that digest, and a further call on it returns
    the same digest and leaves it as it is. The method is memoized: a
    cache that holds [c] answers [c], whatever [c] is, and the view stays
    as it is. *)
Theorem hash_issuances_digest (self : t) :
  let zeros := repeat x00 (Z.to_nat (num_inputs self)) in
  let d := hashlib.sha256 zeros in
  let filled := set__hash_issuances (Some d) self in
  (issuances_cache_ok self ->
   hash_issuances self = Ok (d, filled)
   /\ _hash_issuances filled = Some d
   /\ hash_issuances filled = Ok (d, filled)
   /\ issuances_cache_ok filled
   /\ num_inputs filled = num_inputs self)
  /\ (forall c, _hash_issuances self = Some c ->
      hash_issuances self = Ok (c, self))
  /\ (0 <= num_inputs self -> Z.of_nat (length zeros) = num_inputs self).
Proof.
  intros zeros d filled. split; [|split].
  - intros H. pose proof (hash_issuances_run H) as R. cbv zeta in R.
    rewrite bytes_mul_zero_repeat in R. fold zeros in R. fold d in R.
    fold filled in R.
    assert (H' : issuances_cache_ok filled).
    { right. cbn. now rewrite bytes_mul_zero_repeat. }
    split; [exact R|]. split; [reflexivity|].
    split; [|split; [exact H'|reflexivity]].
    pose proof (hash_issuances_run H') as R'. cbv zeta in R'.
    cbn [num_inputs set__hash_issuances filled] in R'.
    rewrite bytes_mul_zero_repeat in R'. fold zeros in R'. fold d in R'.
    exact R'.
  - intros c Hc. unfold hash_issuances, bind, get. now rewrite Hc.
  - intros Hn. unfold zeros. rewrite repeat_length. lia.
Qed.

(** *** Inputs read from the per-input scope *)

(** C7. With no transaction view attached and an index in range, [vin]
    builds the input from the three fields of the per-input scope: the
    txid is the stored bytes reversed, the vout is the stored bytes read
    little-endian (an unsigned 32-bit value when four bytes are stored),
    and the sequence is the stored bytes read little-endian, or
    [0xFFFFFFFF] when the field is absent, in which case nothing is
    raised. The view is left as it was. *)
Theorem vin_from_scope (self : t) (i : Z) (stored_txid stored_vout : bytes)
    (stored_sequence : option bytes) :
  tx self = None ->
  0 <= i < num_inputs self ->
  scope_value self i [x0e] = Ok (Some stored_txid) ->
  scope_value self i [x0f] = Ok (Some stored_vout) ->
  scope_value self i [x10] = Ok stored_sequence ->
  exists sequence,
    vin i self =
      Ok (LTransactionInput.mk (rev stored_txid)
            (int_from_bytes_little stored_vout) sequence, self)
    /\ (stored_sequence = None -> sequence = 0xFFFFFFFF)
    /\ (forall b, stored_sequence = Some b -> b <> [] ->
        sequence = int_from_bytes_little b)
    /\ (length stored_vout = 4%nat ->
        0 <= int_from_bytes_little stored_vout < 2 ^ (8 * 4))
    /\ (forall b, stored_sequence = Some b -> length b = 4%nat ->
        0 <= sequence < 2 ^ (8 * 4)).
Proof.
  intros Htx Hi Ht Hv Hs.
  exists (int_from_bytes_little (or_bytes stored_sequence [xff; xff; xff; xff])).
  split.
  - unfold vin, bind, get. rewrite (in_range Hi), Htx.
    rewrite (call_ok (fun self => scope_value self i [x0e]) self Ht).
    cbn [lift bytes_reversed].
    rewrite (call_ok (fun self => scope_value self i [x0f]) self Hv).
    cbn [lift int_from_value].
    rewrite (call_ok (fun self => scope_value self i [x10]) self Hs).
    reflexivity.
  - split; [|split; [|split]].
    + intros ->. reflexivity.
    + intros b -> Hb. destruct b; [contradiction|reflexivity].
    + intros Hl. pose proof (int_from_bytes_little_range stored_vout) as R.
      rewrite Hl in R. exact R.
    + intros b -> Hb. destruct b as [|x r]; [discriminate|]. cbn [or_bytes].
      pose proof (int_from_bytes_little_range (x :: r)) as R.
      rewrite Hb in R. exact R.
Qed.

(** *** Unsupported digests *)

(** C8. [sighash_legacy] and [sighash_taproot] raise
    [NotImplementedError] on every view and for all arguments, the
    optional [sighash] given or not; they return no digest, and the
    exception is none of those an index or a malformed stream raises. *)
Theorem sighash_legacy_taproot_unsupported (self : t) (input_index : Z)
    (script_pubkey : Script.t) (script_pubkeys : list Script.t)
    (values : list amount) (sighash : option Z) :
  sighash_legacy input_index script_pubkey sighash self = Raise NotImplementedError
  /\ sighash_taproot input_index script_pubkeys values sighash self
     = Raise NotImplementedError
  /\ (forall d self', sighash_legacy input_index script_pubkey sighash self
                      <> Ok (d, self'))
  /\ (forall d self', sighash_taproot input_index script_pubkeys values sighash self
                      <> Ok (d, self'))
  /\ (forall msg, NotImplementedError <> PSBTError msg)
  /\ NotImplementedError <> AssertionError
  /\ NotImplementedError <> ValueError
  /\ (forall msg, NotImplementedError <> CollaboratorError msg).
Proof.
  repeat split; try reflexivity; try discriminate; intros; discriminate.
Qed.

(** *** Order of the checks in [sighash_segwit] *)

(** C10. An input index out of range makes [sighash_segwit] raise the
    invalid-index error whatever the other arguments are and whatever the
    flag decoder would answer, so also for flags the decoder rejects: the
    index is checked first. With an index in range, flags the decoder
    rejects raise the decoder's exception. *)
Theorem sighash_segwit_index_before_flags (self : t) (input_index : Z)
    (script_pubkey : Script.t) (value : amount) (sighash : option Z) :
  (input_index < 0 \/ num_inputs self <= input_index ->
   sighash_segwit input_index script_pubkey value sighash self
   = Raise (PSBTError "Invalid input index"))
  /\ (forall flags e,
        0 <= input_index < num_inputs self ->
        LSIGHASH_check flags = Raise e ->
        sighash_segwit input_index script_pubkey value (Some flags) self = Raise e).
Proof.
  split.
  - intros H. unfold sighash_segwit. apply bind_raise.
    unfold sighash_segwit_hasher, bind, get. now rewrite (out_of_range H).
  - intros flags e Hi He. unfold sighash_segwit. apply bind_raise.
    unfold sighash_segwit_hasher, bind, get. rewrite (in_range Hi).
    unfold lift. now rewrite He.
Qed.

(** *** The data fed to the hasher by [sighash_segwit] *)

Lemma output_pure (i : Z) (self self' : t) (o : LOutputScope.t) :
  output i self = Ok (o, self') -> self' = self.
Proof.
  unfold output, bind, get. destruct (_ || _); [discriminate|].
  intros H. now apply call_inv in H.
Qed.

Lemma blinded_vout_pure (i : Z) (self self' : t) (o : BlindedLTransactionOutput.t) :
  blinded_vout i self = Ok (o, self') -> self' = self.
Proof.
  unfold blinded_vout. intros H. apply bind_inv in H.
  destruct H as (a & s1 & H1 & H2). apply output_pure in H1. subst s1.
  now injection H2 as _ <-.
Qed.

Lemma sighash_value_term_int (n : Z) :
  0 <= n < 2 ^ 64 ->
  sighash_value_term (IntValue n) = Ok (x01 :: rev (le_digits 8 n)).
Proof.
  intros [H0 H1]. unfold sighash_value_term, int_to_bytes.
  replace (n <? 0) with false by (symmetry; apply Z.ltb_ge; lia).
  replace (2 ^ (8 * Z.of_nat 8) <=? n) with false
    by (symmetry; apply Z.leb_gt; exact H1).
  reflexivity.
Qed.

Lemma sighash_value_term_overflow (n : Z) :
  n < 0 \/ 2 ^ 64 <= n ->
  sighash_value_term (IntValue n) = Raise OverflowError.
Proof.
  intros H. unfold sighash_value_term, int_to_bytes.
  replace ((n <? 0) || (2 ^ (8 * Z.of_nat 8) <=? n)) with true; [reflexivity|].
  symmetry. apply orb_true_iff.
  destruct H as [H|H]; [left; now apply Z.ltb_lt|right; now apply Z.leb_le].
Qed.

Ltac bind_step H a s Hm :=
  apply bind_inv in H; destruct H as (a & s & Hm & H).

Ltac lift_step H a Hm :=
  let s := fresh "s" in
  bind_step H a s Hm; apply lift_inv in Hm; destruct Hm as [Hm ->].

Ltac call_step H a Hm :=
  let s := fresh "s" in
  bind_step H a s Hm; apply call_inv in Hm; destruct Hm as [Hm ->].

(** What a successful run of [sighash_segwit_hasher] fed to the hasher,
    field by field and in order. *)
Lemma sighash_segwit_hasher_fed (self self' : t) (input_index : Z)
    (script_pubkey : Script.t) (value : amount) (sighash : option Z)
    (h : hashlib.hasher) :
  sighash_segwit_hasher input_index script_pubkey value sighash self = Ok (h, self') ->
  let flags := match sighash with
               | Some s => s
               | None => sighash_segwit_default
               end in
  exists sh anyonecanpay rangeproof inp s1 s2
         b_version t_prevouts t_sequence hi b_vout b_value b_sequence
         t_outputs b_locktime b_flags,
    0 <= input_index < num_inputs self
    /\ LSIGHASH_check flags = Ok (sh, anyonecanpay, rangeproof)
    /\ vin input_index self = Ok (inp, s1)
    /\ (exists ver, tx_version s1 = Ok ver
                   /\ int_to_bytes ver 4 little = Ok b_version)
    /\ (if anyonecanpay then t_prevouts = zero
        else exists hp, hash_prevouts s1 = Ok hp
                        /\ t_prevouts = hashlib.sha256 hp)
    /\ (if anyonecanpay || in_none_single sh then t_sequence = zero
        else exists hs, hash_sequence s1 = Ok hs
                        /\ t_sequence = hashlib.sha256 hs)
    /\ hash_issuances s1 = Ok (hi, s2)
    /\ int_to_bytes (LTransactionInput.vout inp) 4 little = Ok b_vout
    /\ sighash_value_term value = Ok b_value
    /\ int_to_bytes (LTransactionInput.sequence inp) 4 little = Ok b_sequence
    /\ sighash_outputs_term sh rangeproof input_index s2 = Ok (t_outputs, self')
    /\ (exists lock, locktime self' = Ok lock
                  /\ int_to_bytes lock 4 little = Ok b_locktime)
    /\ int_to_bytes flags 4 little = Ok b_flags
    /\ h = b_version ++ t_prevouts ++ t_sequence ++ hashlib.sha256 hi
           ++ rev (LTransactionInput.txid inp) ++ b_vout
           ++ Script.serialize script_pubkey ++ b_value ++ b_sequence
           ++ t_outputs ++ b_locktime ++ b_flags.
Proof.
  intros H flags. unfold sighash_segwit_hasher in H. fold flags in H.
  apply bind_inv in H. destruct H as (s0 & s0' & Hget & H).
  injection Hget as <- <-.
  destruct ((input_index <? 0) || (input_index >=? num_inputs self)) eqn:Hi;
    [discriminate|].
  lift_step H x Hcheck. destruct x as [[sh anyonecanpay] rangeproof].
  bind_step H inp s1 Hvin.
  call_step H ver Hver.
  lift_step H b_version Hbver.
  bind_step H h1 s1a Hprev.
  assert (Eprev : s1a = s1 /\ exists t_prevouts,
             h1 = b_version ++ t_prevouts
             /\ (if anyonecanpay then t_prevouts = zero
                 else exists hp, hash_prevouts s1 = Ok hp
                                 /\ t_prevouts = hashlib.sha256 hp)).
  { destruct anyonecanpay.
    - injection Hprev as <- <-. split; [reflexivity|]. now exists zero.
    - call_step Hprev hp Hhp. injection Hprev as <- <-.
      split; [reflexivity|]. exists (hashlib.sha256 hp).
      split; [reflexivity|]. now exists hp. }
  destruct Eprev as (-> & t_prevouts & -> & Eprev). clear Hprev.
  bind_step H h2 s1b Hseq.
  assert (Eseq : s1b = s1 /\ exists t_sequence,
             h2 = (b_version ++ t_prevouts) ++ t_sequence
             /\ (if anyonecanpay || in_none_single sh then t_sequence = zero
                 else exists hs, hash_sequence s1 = Ok hs
                                 /\ t_sequence = hashlib.sha256 hs)).
  { destruct (anyonecanpay || in_none_single sh).
    - injection Hseq as <- <-. split; [reflexivity|]. now exists zero.
    - call_step Hseq hs Hhs. injection Hseq as <- <-.
      split; [reflexivity|]. exists (hashlib.sha256 hs).
      split; [reflexivity|]. now exists hs. }
  destruct Eseq as (-> & t_sequence & -> & Eseq). clear Hseq.
  bind_step H hi s2 Hhi.
  lift_step H b_vout Hbvout.
  lift_step H b_value Hbvalue.
  lift_step H b_sequence Hbseq.
  bind_step H t_outputs s3 Hout.
  call_step H lock Hlt.
  lift_step H b_locktime Hblt.
  lift_step H b_flags Hbflags.
  injection H as <- <-.
  exists sh, anyonecanpay, rangeproof, inp, s1, s2,
         b_version, t_prevouts, t_sequence, hi, b_vout, b_value, b_sequence,
         t_outputs, b_locktime, b_flags.
  assert (Hrange : 0 <= input_index < num_inputs self).
  { apply orb_false_iff in Hi. destruct Hi as [Ha Hb].
    apply Z.ltb_ge in Ha. rewrite Z.geb_leb in Hb. apply Z.leb_gt in Hb. lia. }
  split; [exact Hrange|].
  repeat match goal with |- _ /\ _ => split end; try assumption.
  - now exists ver.
  - now exists lock.
  - unfold hashlib.update. now rewrite <- !app_assoc.
Qed.

(** *** The outputs term *)

Lemma in_none_single_false (sh : Z) :
  sh <> SIGHASH_NONE -> sh <> SIGHASH_SINGLE -> in_none_single sh = false.
Proof.
  intros H1 H2. unfold in_none_single. cbn [existsb].
  apply Z.eqb_neq in H1, H2. now rewrite H1, H2.
Qed.

Lemma in_none_single_none : in_none_single SIGHASH_NONE = true.
Proof. unfold in_none_single. cbn [existsb]. now rewrite Z.eqb_refl. Qed.

Lemma in_none_single_single : in_none_single SIGHASH_SINGLE = true.
Proof.
  unfold in_none_single. cbn [existsb]. rewrite Z.eqb_refl.
  now rewrite orb_true_r.
Qed.

Lemma zero_is_32_zero_bytes : zero = repeat x00 32.
Proof. reflexivity. Qed.

(** Base type neither NONE nor SINGLE. *)
Lemma outputs_term_all (self self' : t) (sh : Z) (rangeproof : bool)
    (input_index : Z) (term : bytes) :
  sh <> SIGHASH_NONE -> sh <> SIGHASH_SINGLE ->
  sighash_outputs_term sh rangeproof input_index self = Ok (term, self') <->
  exists ho s1,
    hash_outputs self = Ok (ho, s1)
    /\ if rangeproof
       then exists hr, hash_rangeproofs s1 = Ok (hr, self')
                       /\ term = hashlib.sha256 ho ++ hashlib.sha256 hr
       else self' = s1 /\ term = hashlib.sha256 ho.
Proof.
  intros H1 H2. unfold sighash_outputs_term.
  unfold bind at 1. unfold get at 1.
  rewrite (in_none_single_false H1 H2). cbn [negb]. split.
  - intros H. bind_step H ho s1 Hho. exists ho, s1. split; [exact Hho|].
    destruct rangeproof.
    + bind_step H hr s2 Hhr. injection H as <- <-. now exists hr.
    + injection H as <- <-. now split.
  - intros (ho & s1 & Hho & H). erewrite bind_ok by exact Hho.
    destruct rangeproof.
    + destruct H as (hr & Hhr & ->). now erewrite bind_ok by exact Hhr.
    + now destruct H as [-> ->].
Qed.

(** Base type SINGLE with an output at the index of the input. *)
Lemma outputs_term_single (self self' : t) (rangeproof : bool)
    (input_index : Z) (term : bytes) :
  input_index < num_outputs self ->
  sighash_outputs_term SIGHASH_SINGLE rangeproof input_index self = Ok (term, self') <->
  exists out,
    blinded_vout input_index self = Ok (out, self)
    /\ self' = self
    /\ term = hashlib.sha256 (hashlib.sha256 (BlindedLTransactionOutput.serialize out))
              ++ (if rangeproof
                  then hashlib.sha256 (hashlib.sha256
                         (TxOutWitness.serialize (BlindedLTransactionOutput.witness out)))
                  else []).
Proof.
  intros Hi. unfold sighash_outputs_term.
  unfold bind at 1. unfold get at 1.
  rewrite in_none_single_single, Z.eqb_refl. cbn [negb andb].
  apply Z.ltb_lt in Hi. rewrite Hi. split.
  - intros H. bind_step H out s1 Hout.
    pose proof (blinded_vout_pure _ _ Hout) as ->.
    exists out. split; [exact Hout|]. destruct rangeproof.
    + erewrite bind_ok in H by exact Hout. injection H as <- <-. now split.
    + injection H as <- <-. split; [reflexivity|now rewrite app_nil_r].
  - intros (out & Hout & -> & ->). erewrite bind_ok by exact Hout.
    destruct rangeproof.
    + now erewrite bind_ok by exact Hout.
    + now rewrite app_nil_r.
Qed.

(** Base type NONE, or SINGLE with no output at the index of the input. *)
Lemma outputs_term_zero (self : t) (sh : Z) (rangeproof : bool) (input_index : Z) :
  SIGHASH_NONE <> SIGHASH_SINGLE ->
  sh = SIGHASH_NONE \/ (sh = SIGHASH_SINGLE /\ num_outputs self <= input_index) ->
  sighash_outputs_term sh rangeproof input_index self = Ok (repeat x00 32, self).
Proof.
  intros Hd H. unfold sighash_outputs_term.
  unfold bind at 1. unfold get at 1.
  destruct H as [->|[-> Hi]].
  - rewrite in_none_single_none. cbn [negb].
    apply Z.eqb_neq in Hd. now rewrite Hd.
  - rewrite in_none_single_single, Z.eqb_refl. cbn [negb andb].
    replace (input_index <? num_outputs self) with false
      by (symmetry; apply Z.ltb_ge; lia).
    reflexivity.
Qed.

(** C1. The outputs term of [sighash_segwit]. What the outputs branch
    feeds to the hasher is: for a base type that is neither NONE nor
    SINGLE, the SHA-256 of [hash_outputs()], followed, when the
    RANGEPROOF bit is set, by the SHA-256 of [hash_rangeproofs()]; for
    SINGLE with [input_index < num_outputs], the double SHA-256 of the
    serialized output at that index, followed, when the RANGEPROOF bit is
    set, by the double SHA-256 of its serialized witness; for NONE, and
    for SINGLE with [input_index >= num_outputs], 32 zero bytes. In a run
    of [sighash_segwit] this term is fed after the sequence number and is
    followed by the 4-byte locktime and the 4-byte flags only. *)
Theorem sighash_outputs_term_cases :
  SIGHASH_NONE <> SIGHASH_SINGLE ->
  (forall self self' sh rangeproof input_index term,
     sh <> SIGHASH_NONE -> sh <> SIGHASH_SINGLE ->
     sighash_outputs_term sh rangeproof input_index self = Ok (term, self') <->
     exists ho s1,
       hash_outputs self = Ok (ho, s1)
       /\ if rangeproof
          then exists hr, hash_rangeproofs s1 = Ok (hr, self')
                          /\ term = hashlib.sha256 ho ++ hashlib.sha256 hr
          else self' = s1 /\ term = hashlib.sha256 ho)
  /\ (forall self self' rangeproof input_index term,
     input_index < num_outputs self ->
     sighash_outputs_term SIGHASH_SINGLE rangeproof input_index self = Ok (term, self') <->
     exists out,
       blinded_vout input_index self = Ok (out, self)
       /\ self' = self
       /\ term = hashlib.sha256 (hashlib.sha256 (BlindedLTransactionOutput.serialize out))
                 ++ (if rangeproof
                     then hashlib.sha256 (hashlib.sha256
                            (TxOutWitness.serialize (BlindedLTransactionOutput.witness out)))
                     else []))
  /\ (forall self sh rangeproof input_index,
     sh = SIGHASH_NONE \/ (sh = SIGHASH_SINGLE /\ num_outputs self <= input_index) ->
     sighash_outputs_term sh rangeproof input_index self = Ok (repeat x00 32, self))
  /\ (forall self self' input_index script_pubkey value sighash h,
     sighash_segwit_hasher input_index script_pubkey value sighash self = Ok (h, self') ->
     exists sh anyonecanpay rangeproof s prefix term b_locktime b_flags,
       LSIGHASH_check (match sighash with
                       | Some s => s
                       | None => sighash_segwit_default
                       end) = Ok (sh, anyonecanpay, rangeproof)
       /\ sighash_outputs_term sh rangeproof input_index s = Ok (term, self')
       /\ length b_locktime = 4%nat
       /\ length b_flags = 4%nat
       /\ h = prefix ++ term ++ b_locktime ++ b_flags).
Proof.
  intros Hd. split; [|split; [|split]].
  - intros. now apply outputs_term_all.
  - intros. now apply outputs_term_single.
  - intros. now apply outputs_term_zero.
  - intros self self' input_index script_pubkey value sighash h H.
    apply sighash_segwit_hasher_fed in H. cbv zeta in H.
    destruct H as (sh & acp & rp & inp & s1 & s2 & b_version & t_prevouts
                   & t_sequence & hi & b_vout & b_value & b_sequence & t_outputs
                   & b_locktime & b_flags & _ & Hcheck & _ & _ & _ & _ & _ & _
                   & _ & _ & Hterm & (lock & _ & Hlock) & Hflags & ->).
    exists sh, acp, rp, s2,
      (b_version ++ t_prevouts ++ t_sequence ++ hashlib.sha256 hi
       ++ rev (LTransactionInput.txid inp) ++ b_vout
       ++ Script.serialize script_pubkey ++ b_value ++ b_sequence),
      t_outputs, b_locktime, b_flags.
    split; [exact Hcheck|]. split; [exact Hterm|].
    split; [exact (int_to_bytes_length _ _ _ Hlock)|].
    split; [exact (int_to_bytes_length _ _ _ Hflags)|].
    now rewrite <- !app_assoc.
Qed.

(** *** The value term *)

Lemma byte_to_of_Z (z : Z) : byte_to_Z (byte_of_Z z) = z mod 256.
Proof.
  unfold byte_to_Z, byte_of_Z.
  pose proof (Z.mod_pos_bound z 256 ltac:(lia)) as Hm.
  destruct (Byte.of_N (Z.to_N (z mod 256))) as [b|] eqn:E.
  - apply Byte.to_of_N in E. rewrite E. lia.
  - apply Byte.of_N_None_iff in E. lia.
Qed.

Lemma int_from_bytes_little_le_digits (len : nat) (n : Z) :
  int_from_bytes_little (le_digits len n) = n mod 2 ^ (8 * Z.of_nat len).
Proof.
  revert n. induction len as [|k IH]; intros n.
  - cbn. now rewrite Z.mod_1_r.
  - cbn [le_digits int_from_bytes_little]. rewrite byte_to_of_Z, IH.
    rewrite Zmod_mod.
    replace (8 * Z.of_nat (S k)) with (8 + 8 * Z.of_nat k) by lia.
    rewrite Z.pow_add_r by lia. change (2 ^ 8) with 256.
    rewrite Z.rem_mul_r by lia. reflexivity.
Qed.

Lemma be_value_rev (b : bytes) :
  hashlib.be_value (rev b) = int_from_bytes_little b.
Proof.
  unfold hashlib.be_value. rewrite <- fold_left_rev_right, rev_involutive.
  induction b as [|x r IH]; [reflexivity|].
  cbn [fold_right int_from_bytes_little]. rewrite IH. lia.
Qed.

(** The eight big-endian bytes of an amount read back as the amount. *)
Lemma be_value_amount (n : Z) :
  0 <= n < 2 ^ 64 -> hashlib.be_value (rev (le_digits 8 n)) = n.
Proof.
  intros H. rewrite be_value_rev, int_from_bytes_little_le_digits.
  apply Z.mod_small. exact H.
Qed.

(** C2, as the code has it. An integer amount in the unsigned 64-bit
    range is fed to the hasher as the byte [0x01] followed by the amount on
    exactly eight bytes, big-endian; the bytes of a value commitment are
    fed as they are, with nothing put before them; an integer below zero
    or from [2^64] on raises [OverflowError]. In a run of
    [sighash_segwit] the term follows the serialized script. *)
Theorem sighash_value_term_encoding :
  (forall n, 0 <= n < 2 ^ 64 ->
     let b := rev (le_digits 8 n) in
     sighash_value_term (IntValue n) = Ok (x01 :: b)
     /\ length b = 8%nat
     /\ hashlib.be_value b = n)
  /\ (forall b, sighash_value_term (BytesValue b) = Ok b)
  /\ (forall n, n < 0 \/ 2 ^ 64 <= n ->
      sighash_value_term (IntValue n) = Raise OverflowError)
  /\ (forall self self' input_index script_pubkey value sighash h,
      sighash_segwit_hasher input_index script_pubkey value sighash self = Ok (h, self') ->
      exists prefix term suffix,
        sighash_value_term value = Ok term
        /\ h = prefix ++ Script.serialize script_pubkey ++ term ++ suffix).
Proof.
  split; [|split; [|split]].
  - intros n H b. split; [now apply sighash_value_term_int|].
    split; [unfold b; now rewrite length_rev, le_digits_length|].
    now apply be_value_amount.
  - reflexivity.
  - apply sighash_value_term_overflow.
  - intros self self' input_index script_pubkey value sighash h H.
    apply sighash_segwit_hasher_fed in H. cbv zeta in H.
    destruct H as (sh & acp & rp & inp & s1 & s2 & b_version & t_prevouts
                   & t_sequence & hi & b_vout & b_value & b_sequence & t_outputs
                   & b_locktime & b_flags & _ & _ & _ & _ & _ & _ & _ & _
                   & Hvalue & _ & _ & _ & _ & ->).
    exists (b_version ++ t_prevouts ++ t_sequence ++ hashlib.sha256 hi
            ++ rev (LTransactionInput.txid inp) ++ b_vout),
      b_value, (b_sequence ++ t_outputs ++ b_locktime ++ b_flags).
    split; [exact Hvalue|]. now rewrite <- !app_assoc.
Qed.

(** *** The default flags *)

(** C9. Leaving the [sighash] argument out is passing
    [SIGHASH.ALL | LSIGHASH.RANGEPROOF]. When the decoder reads that value
    as a base type other than NONE and SINGLE with the RANGEPROOF bit set,
    a run without the argument feeds, as its last three fields, the
    SHA-256 of [hash_outputs()] followed by the SHA-256 of
    [hash_rangeproofs()], the 4-byte locktime, and the four little-endian
    bytes of [SIGHASH.ALL | LSIGHASH.RANGEPROOF]. *)
Theorem sighash_segwit_default_argument (sh : Z) (anyonecanpay : bool) :
  LSIGHASH_check (Z.lor SIGHASH_ALL LSIGHASH_RANGEPROOF) = Ok (sh, anyonecanpay, true) ->
  sh <> SIGHASH_NONE -> sh <> SIGHASH_SINGLE ->
  forall self input_index script_pubkey value,
    sighash_segwit input_index script_pubkey value None self
    = sighash_segwit input_index script_pubkey value
        (Some (Z.lor SIGHASH_ALL LSIGHASH_RANGEPROOF)) self
    /\ forall h self',
       sighash_segwit_hasher input_index script_pubkey value None self = Ok (h, self') ->
       exists prefix s s1 ho hr b_locktime,
         hash_outputs s = Ok (ho, s1)
         /\ hash_rangeproofs s1 = Ok (hr, self')
         /\ length b_locktime = 4%nat
         /\ int_to_bytes (Z.lor SIGHASH_ALL LSIGHASH_RANGEPROOF) 4 little
            = Ok (le_digits 4 (Z.lor SIGHASH_ALL LSIGHASH_RANGEPROOF))
         /\ h = prefix ++ (hashlib.sha256 ho ++ hashlib.sha256 hr)
                ++ b_locktime
                ++ le_digits 4 (Z.lor SIGHASH_ALL LSIGHASH_RANGEPROOF)
         /\ sighash_segwit input_index script_pubkey value None self
            = Ok (hashlib.sha256 (hashlib.sha256 h), self').
Proof.
  intros Hcheck Hn Hs self input_index script_pubkey value.
  split; [reflexivity|].
  intros h self' H. pose proof H as Hrun.
  apply sighash_segwit_hasher_fed in H. cbv zeta in H.
  destruct H as (sh' & acp & rp & inp & s1 & s2 & b_version & t_prevouts
                 & t_sequence & hi & b_vout & b_value & b_sequence & t_outputs
                 & b_locktime & b_flags & _ & Hcheck' & _ & _ & _ & _ & _ & _
                 & _ & _ & Hterm & (lock & _ & Hlock) & Hflags & ->).
  unfold sighash_segwit_default in Hcheck', Hflags.
  rewrite Hcheck in Hcheck'. injection Hcheck' as <- <- <-.
  apply (outputs_term_all _ _ _ _ _ Hn Hs) in Hterm.
  destruct Hterm as (ho & s3 & Hho & hr & Hhr & ->).
  assert (Hfl : b_flags = le_digits 4 (Z.lor SIGHASH_ALL LSIGHASH_RANGEPROOF)).
  { unfold int_to_bytes in Hflags. destruct (_ || _); [discriminate|].
    now injection Hflags as <-. }
  subst b_flags.
  exists (b_version ++ t_prevouts ++ t_sequence ++ hashlib.sha256 hi
          ++ rev (LTransactionInput.txid inp) ++ b_vout
          ++ Script.serialize script_pubkey ++ b_value ++ b_sequence),
    s2, s3, ho, hr, b_locktime.
  split; [exact Hho|]. split; [exact Hhr|].
  split; [exact (int_to_bytes_length _ _ _ Hlock)|].
  split; [exact Hflags|].
  split; [now rewrite <- !app_assoc|].
  unfold sighash_segwit. erewrite bind_ok by exact Hrun. reflexivity.
Qed.

(** *** The issuance cache as an invariant of the view *)

Lemma same_issuances_refl (s : t) : same_issuances s s.
Proof. now split. Qed.

Lemma same_issuances_trans (s1 s2 s3 : t) :
  same_issuances s1 s2 -> same_issuances s2 s3 -> same_issuances s1 s3.
Proof. intros [A B] [A' B']. split; congruence. Qed.

Lemma same_issuances_cache_ok (s s' : t) :
  same_issuances s s' -> issuances_cache_ok s -> issuances_cache_ok s'.
Proof.
  intros [A B] H. unfold issuances_cache_ok in *. now rewrite A, B.
Qed.

Lemma on_tx_same {A : Type} (m : M GlobalLTransactionView.t A) (s s' : t) (a : A) :
  on_tx m s = Ok (a, s') -> same_issuances s s'.
Proof.
  unfold on_tx. destruct (tx s) as [v|]; [|discriminate].
  destruct (m v) as [[a' v']|e]; [|discriminate].
  intros [= _ <-]. now split.
Qed.

Lemma vin_same (i : Z) (s s' : t) (inp : LTransactionInput.t) :
  vin i s = Ok (inp, s') -> same_issuances s s'.
Proof.
  unfold vin. intros H. bind_step H s0 s0' Hget. injection Hget as <- <-.
  destruct (_ || _); [discriminate|].
  destruct (tx s); [now apply on_tx_same in H|].
  call_step H v1 H1. lift_step H txid H2. call_step H v2 H3.
  lift_step H vo H4. call_step H v3 H5. injection H as _ <-.
  apply same_issuances_refl.
Qed.

Lemma for_in_pure {A B : Type} (l : list B) (body : B -> A -> M t A) :
  (forall x a s a' s', body x a s = Ok (a', s') -> s' = s) ->
  forall a s a' s', for_in l body a s = Ok (a', s') -> s' = s.
Proof.
  intros Hb. induction l as [|x r IH]; intros a s a' s' H.
  - now injection H as _ <-.
  - cbn [for_in] in H. bind_step H a1 s1 H1.
    apply Hb in H1. subst s1. now apply IH in H.
Qed.

Lemma hash_outputs_same (s s' : t) (d : bytes) :
  hash_outputs s = Ok (d, s') -> same_issuances s s'.
Proof.
  unfold hash_outputs. intros H. bind_step H s0 s0' Hget.
  injection Hget as <- <-. destruct (_hash_outputs s).
  - injection H as _ <-. apply same_issuances_refl.
  - bind_step H h s1 Hloop. apply for_in_pure in Hloop.
    + subst s1. bind_step H u s2 Hm. injection Hm as _ <-.
      injection H as _ <-. now split.
    + intros x a s2 a' s2' Hb. bind_step Hb out s3 Hout.
      apply blinded_vout_pure in Hout. subst s3. now injection Hb as _ <-.
Qed.

Lemma hash_rangeproofs_same (s s' : t) (d : bytes) :
  hash_rangeproofs s = Ok (d, s') -> same_issuances s s'.
Proof.
  unfold hash_rangeproofs. intros H. bind_step H s0 s0' Hget.
  injection Hget as <- <-. destruct (_hash_rangeproofs s).
  - injection H as _ <-. apply same_issuances_refl.
  - bind_step H h s1 Hloop. apply for_in_pure in Hloop.
    + subst s1. bind_step H u s2 Hm. injection Hm as _ <-.
      injection H as _ <-. now split.
    + intros x a s2 a' s2' Hb. bind_step Hb out s3 Hout.
      apply blinded_vout_pure in Hout. subst s3. now injection Hb as _ <-.
Qed.

Lemma sighash_outputs_term_same (s s' : t) (sh : Z) (rangeproof : bool)
    (input_index : Z) (term : bytes) :
  sighash_outputs_term sh rangeproof input_index s = Ok (term, s') ->
  same_issuances s s'.
Proof.
  unfold sighash_outputs_term. intros H. bind_step H s0 s0' Hget.
  injection Hget as <- <-. destruct (negb (in_none_single sh)).
  - bind_step H ho s1 Hho. apply hash_outputs_same in Hho.
    destruct rangeproof.
    + bind_step H hr s2 Hhr. apply hash_rangeproofs_same in Hhr.
      injection H as _ <-. eapply same_issuances_trans; eassumption.
    + now injection H as _ <-.
  - destruct (_ && _).
    + bind_step H out s1 Hout. apply blinded_vout_pure in Hout. subst s1.
      destruct rangeproof.
      * bind_step H out2 s2 Hout2. apply blinded_vout_pure in Hout2. subst s2.
        injection H as _ <-. apply same_issuances_refl.
      * injection H as _ <-. apply same_issuances_refl.
    + injection H as _ <-. apply same_issuances_refl.
Qed.

Lemma hash_issuances_cache_ok (s s' : t) (d : bytes) :
  issuances_cache_ok s -> hash_issuances s = Ok (d, s') -> issuances_cache_ok s'.
Proof.
  intros H R. rewrite (hash_issuances_run H) in R. injection R as _ <-.
  now right.
Qed.

(** X19. The issuance cache stays sound across [sighash_segwit]: on a
    view whose issuance cache is empty or holds the digest of [num_inputs]
    zero bytes, a call that returns leaves a view of which this is true
    again. With [clear_cache_issuances], every state a view reaches from
    [clear_cache] through its methods has a sound issuance cache. *)
Lemma sighash_segwit_cache_ok (s s' : t) (input_index : Z)
    (script_pubkey : Script.t) (value : amount) (sighash : option Z) (d : bytes) :
  issuances_cache_ok s ->
  sighash_segwit input_index script_pubkey value sighash s = Ok (d, s') ->
  issuances_cache_ok s'.
Proof.
  intros H R. unfold sighash_segwit in R. bind_step R h s1 Hh.
  injection R as _ <-. apply sighash_segwit_hasher_fed in Hh. cbv zeta in Hh.
  destruct Hh as (sh & acp & rp & inp & s2 & s3 & b_version & t_prevouts
                  & t_sequence & hi & b_vout & b_value & b_sequence & t_outputs
                  & b_locktime & b_flags & _ & _ & Hvin & _ & _ & _ & Hhi & _
                  & _ & _ & Hterm & _).
  apply vin_same in Hvin. apply sighash_outputs_term_same in Hterm.
  eapply same_issuances_cache_ok; [exact Hterm|].
  eapply hash_issuances_cache_ok; [|exact Hhi].
  eapply same_issuances_cache_ok; [exact Hvin|exact H].
Qed.

(** *** When [sighash_segwit] returns *)

(** The converse of [sighash_segwit_hasher_fed]: when the index is in
    range, the flags decode, the collaborators answer and the integers fit
    their fields, [sighash_segwit] returns the double SHA-256 of the
    fields in order. *)
Lemma sighash_segwit_returns (self s1 s2 s3 : t) (input_index : Z)
    (script_pubkey : Script.t) (value : amount) (sighash : option Z)
    (sh : Z) (anyonecanpay rangeproof : bool) (inp : LTransactionInput.t)
    (ver lock : Z) (hp hs hi : bytes)
    (b_version b_vout b_value b_sequence t_outputs b_locktime b_flags : bytes) :
  let flags := match sighash with
               | Some s => s
               | None => sighash_segwit_default
               end in
  0 <= input_index < num_inputs self ->
  LSIGHASH_check flags = Ok (sh, anyonecanpay, rangeproof) ->
  vin input_index self = Ok (inp, s1) ->
  tx_version s1 = Ok ver ->
  int_to_bytes ver 4 little = Ok b_version ->
  hash_prevouts s1 = Ok hp ->
  hash_sequence s1 = Ok hs ->
  hash_issuances s1 = Ok (hi, s2) ->
  int_to_bytes (LTransactionInput.vout inp) 4 little = Ok b_vout ->
  sighash_value_term value = Ok b_value ->
  int_to_bytes (LTransactionInput.sequence inp) 4 little = Ok b_sequence ->
  sighash_outputs_term sh rangeproof input_index s2 = Ok (t_outputs, s3) ->
  locktime s3 = Ok lock ->
  int_to_bytes lock 4 little = Ok b_locktime ->
  int_to_bytes flags 4 little = Ok b_flags ->
  sighash_segwit input_index script_pubkey value sighash self =
  Ok (hashlib.sha256 (hashlib.sha256
        (b_version
         ++ (if anyonecanpay then zero else hashlib.sha256 hp)
         ++ (if anyonecanpay || in_none_single sh then zero else hashlib.sha256 hs)
         ++ hashlib.sha256 hi
         ++ rev (LTransactionInput.txid inp) ++ b_vout
         ++ Script.serialize script_pubkey ++ b_value ++ b_sequence
         ++ t_outputs ++ b_locktime ++ b_flags)), s3).
Proof.
  intros flags Hi Hcheck Hvin Hver Hbver Hhp Hhs Hhi Hbvout Hbval Hbseq Hterm
         Hlock Hblock Hbflags.
  unfold sighash_segwit, sighash_segwit_hasher. fold flags.
  unfold bind at 1. unfold bind at 1. unfold get at 1.
  rewrite (in_range Hi).
  erewrite bind_ok by (apply lift_ok; exact Hcheck).
  cbv beta iota.
  erewrite bind_ok by exact Hvin.
  erewrite bind_ok by (apply call_ok; exact Hver).
  erewrite bind_ok by (apply lift_ok; exact Hbver).
  erewrite (@bind_ok _ _ _ _ _ s1 s1
              (b_version ++ (if anyonecanpay then zero else hashlib.sha256 hp))).
  2:{ destruct anyonecanpay; [reflexivity|].
      erewrite bind_ok by (apply call_ok; exact Hhp). reflexivity. }
  erewrite (@bind_ok _ _ _ _ _ s1 s1
              ((b_version ++ (if anyonecanpay then zero else hashlib.sha256 hp))
               ++ (if anyonecanpay || in_none_single sh then zero
                   else hashlib.sha256 hs))).
  2:{ destruct (anyonecanpay || in_none_single sh); [reflexivity|].
      erewrite bind_ok by (apply call_ok; exact Hhs). reflexivity. }
  erewrite bind_ok by exact Hhi.
  erewrite bind_ok by (apply lift_ok; exact Hbvout).
  erewrite bind_ok by (apply lift_ok; exact Hbval).
  erewrite bind_ok by (apply lift_ok; exact Hbseq).
  erewrite bind_ok by exact Hterm.
  erewrite bind_ok by (apply call_ok; exact Hlock).
  erewrite bind_ok by (apply lift_ok; exact Hblock).
  erewrite bind_ok by (apply lift_ok; exact Hbflags).
  unfold ret, hashlib.digest, hashlib.update, hashlib.new. cbn [app].
  now rewrite <- !app_assoc.
Qed.

End WithCollaborators.
End PSETViewFacts.

(** ** Runs on the sample documents *)

Module SampleRuns.

Abbreviation refC := Reference.collaborators.

(** FIPS 180-4 test vectors. *)
Example sha256_empty :
  hashlib.sha256 [] =
  [ xe3; xb0; xc4; x42; x98; xfc; x1c; x14; x9a; xfb; xf4; xc8; x99; x6f; xb9; x24;
    x27; xae; x41; xe4; x64; x9b; x93; x4c; xa4; x95; x99; x1b; x78; x52; xb8; x55 ].
Proof. vm_compute. reflexivity. Qed.

Example sha256_abc :
  hashlib.sha256 [x61; x62; x63] =
  [ xba; x78; x16; xbf; x8f; x01; xcf; xea; x41; x41; x40; xde; x5d; xae; x22; x23;
    xb0; x03; x61; xa3; x96; x17; x7a; x9c; xb4; x10; xff; x61; xf2; x00; x15; xad ].
Proof. vm_compute. reflexivity. Qed.

(** An explicit commitment in the middle of a buffer. *)
Example skip_commitment_explicit :
  skip_commitment (mkBytesIO [xaa; x01; x10; x27] 1)
  = Ok (9, mkBytesIO [xaa; x01; x10; x27] 10).
Proof. reflexivity. Qed.

(** The offsets the transaction view finds in the sample transaction. *)
Example sample_num_vout_offset :
  exists v, GlobalLTransactionView.num_vout_offset (C:=refC) Sample.tx_view
            = Ok (162, v).
Proof. eexists. vm_compute. reflexivity. Qed.

Example sample_vout0_position :
  exists o v,
    GlobalLTransactionView.vout (C:=refC) 0 Sample.tx_view = Ok (o, v)
    /\ LTransactionOutput.serialize o = Sample.output0
    /\ pos (GlobalLTransactionView.stream v) = 209%nat.
Proof. do 2 eexists. vm_compute. repeat split. Qed.

(** C1, on the two-input one-output PSET: signing input 1 with SINGLE
    feeds 32 zero bytes. *)
Lemma sighash_outputs_term_cases_witness :
  @SIGHASH_NONE refC <> @SIGHASH_SINGLE refC
  /\ PSETView.sighash_outputs_term (C:=refC) (@SIGHASH_SINGLE refC) true 1 Sample.pset
     = Ok (repeat x00 32, Sample.pset).
Proof.
  assert (H : @SIGHASH_NONE refC <> @SIGHASH_SINGLE refC) by (cbv; discriminate).
  split; [exact H|].
  apply (proj1 (proj2 (proj2 (@PSETViewFacts.sighash_outputs_term_cases refC H)))).
  right. split; [reflexivity|]. cbn. lia.
Defined.

(** C2: an amount of [2^64] raises instead of being encoded, in the value
    term and so in [sighash_segwit]. *)
Lemma sighash_value_term_counterexample :
  PSETView.sighash_value_term (IntValue (2 ^ 64)) = Raise OverflowError
  /\ PSETView.sighash_segwit (C:=refC) 0 Sample.script_pubkey (IntValue (2 ^ 64))
       None Sample.pset = Raise OverflowError.
Proof. split; vm_compute; reflexivity. Qed.

Lemma sighash_value_term_encoding_witness :
  PSETView.sighash_value_term (IntValue 10000)
  = Ok [x01; x00; x00; x00; x00; x00; x00; x27; x10].
Proof.
  destruct (proj1 (@PSETViewFacts.sighash_value_term_encoding refC) 10000
              ltac:(lia)) as [H _].
  exact H.
Defined.

(** C3, on the sample views and on a transaction without inputs and
    outputs. *)
Lemma vin_vout_invalid_index_witness :
  GlobalLTransactionView.vin (C:=refC) 2 Sample.tx_view
    = Raise (PSBTError "Invalid input index")
  /\ GlobalLTransactionView.vout (C:=refC) 1 Sample.tx_view
    = Raise (PSBTError "Invalid input index")
  /\ GlobalLTransactionView.vin (C:=refC) 0 Sample.empty_tx_view
    = Raise (PSBTError "Invalid input index")
  /\ GlobalLTransactionView.vout (C:=refC) 0 Sample.empty_tx_view
    = Raise (PSBTError "Invalid input index")
  /\ PSETView.vin (C:=refC) (-1) Sample.pset
    = Raise (PSBTError "Invalid input index")
  /\ PSETView.vout 1 Sample.pset
    = Raise (PSBTError "Invalid output index").
Proof.
  pose proof (@PSETViewFacts.vin_vout_invalid_index refC 2) as (_ & A2 & _).
  pose proof (@PSETViewFacts.vin_vout_invalid_index refC 1) as (_ & _ & _ & B1 & _ & F1).
  pose proof (@PSETViewFacts.vin_vout_invalid_index refC 0) as (_ & A0 & _ & B0 & _).
  pose proof (@PSETViewFacts.vin_vout_invalid_index refC (-1)) as (_ & _ & _ & _ & E & _).
  split; [eapply A2; [vm_compute; reflexivity|lia]|].
  split; [eapply B1; [vm_compute; reflexivity|lia]|].
  split; [eapply A0; [vm_compute; reflexivity|lia]|].
  split; [eapply B0; [vm_compute; reflexivity|lia]|].
  split; [apply E; left; lia|].
  apply F1. right. cbn. lia.
Defined.

(** C4, on the two inputs of the sample transaction: the plain input 0
    at position 6 takes 41 bytes, input 1 with its issuance at position 47
    takes 41 + 64 + 9 + 1 bytes. *)
Lemma skip_input_consumes_witness :
  GlobalLTransactionView._skip_input
    (GlobalLTransactionView.set_stream (mkBytesIO Sample.tx_bytes 6) Sample.tx_view)
  = Ok (41, GlobalLTransactionView.set_stream (mkBytesIO Sample.tx_bytes 47)
              Sample.tx_view)
  /\ GlobalLTransactionView._skip_input
       (GlobalLTransactionView.set_stream (mkBytesIO Sample.tx_bytes 47) Sample.tx_view)
     = Ok (41 + 64 + 9 + 1,
           GlobalLTransactionView.set_stream (mkBytesIO Sample.tx_bytes 162)
             Sample.tx_view).
Proof.
  split.
  - apply (proj1 (@GlobalLTransactionViewFacts.skip_input_consumes
                    (GlobalLTransactionView.set_stream (mkBytesIO Sample.tx_bytes 6)
                       Sample.tx_view)
                    [x01; x00; x00; x00] eq_refl eq_refl)).
    right. reflexivity.
  - apply (proj2 (@GlobalLTransactionViewFacts.skip_input_consumes
                    (GlobalLTransactionView.set_stream (mkBytesIO Sample.tx_bytes 47)
                       Sample.tx_view)
                    [x00; x00; x00; x80] eq_refl eq_refl)
             ltac:(discriminate) eq_refl
             9 (mkBytesIO Sample.tx_bytes 161) 1 (mkBytesIO Sample.tx_bytes 162)
             eq_refl eq_refl).
Defined.

(** C6, on the two-input PSET, whose cache is empty, and on a view whose
    cache holds a byte that is no digest. *)
Lemma hash_issuances_digest_witness :
  (exists self',
     PSETView.hash_issuances Sample.pset = Ok (hashlib.sha256 [x00; x00], self')
     /\ PSETView._hash_issuances self' = Some (hashlib.sha256 [x00; x00])
     /\ PSETView.hash_issuances self' = Ok (hashlib.sha256 [x00; x00], self'))
  /\ PSETView.hash_issuances Sample2.pset_stale = Ok ([x02], Sample2.pset_stale).
Proof.
  split.
  - destruct (@PSETViewFacts.hash_issuances_digest Sample.pset) as (A & _).
    destruct (A (or_introl eq_refl)) as (A1 & A2 & A3 & _).
    eexists. split; [exact A1|]. split; [exact A2|exact A3].
  - destruct (@PSETViewFacts.hash_issuances_digest Sample2.pset_stale)
      as (_ & B & _).
    exact (B [x02] eq_refl).
Defined.

(** C7, on input 1 of the PSET without embedded transaction, whose scope
    has no sequence field. *)
Lemma vin_from_scope_witness :
  PSETView.vin (C:=refC) 1 Sample.pset_v2
  = Ok (LTransactionInput.mk (x99 :: repeat x22 31) 1 0xFFFFFFFF, Sample.pset_v2).
Proof.
  destruct (@PSETViewFacts.vin_from_scope refC Sample.pset_v2 1
              (repeat x22 31 ++ [x99]) [x01; x00; x00; x00] None
              eq_refl ltac:(cbn; lia) eq_refl eq_refl eq_refl)
    as (sequence & A & B & _).
  rewrite A, (B eq_refl). reflexivity.
Defined.

(** C9, on the sample PSET: a run without the [sighash] argument. *)
Lemma sighash_segwit_default_argument_witness :
  exists h self',
    PSETView.sighash_segwit_hasher (C:=refC) 0 Sample.script_pubkey
      (IntValue 10000) None Sample.pset = Ok (h, self')
    /\ PSETView.sighash_segwit (C:=refC) 0 Sample.script_pubkey
         (IntValue 10000) None Sample.pset
       = Ok (hashlib.sha256 (hashlib.sha256 h), self')
    /\ exists prefix s s1 ho hr b_locktime,
         PSETView.hash_outputs s = Ok (ho, s1)
         /\ PSETView.hash_rangeproofs s1 = Ok (hr, self')
         /\ length b_locktime = 4%nat
         /\ h = prefix ++ (hashlib.sha256 ho ++ hashlib.sha256 hr)
                ++ b_locktime ++ [x41; x00; x00; x00].
Proof.
  destruct (PSETView.sighash_segwit_hasher (C:=refC) 0 Sample.script_pubkey
              (IntValue 10000) None Sample.pset) as [[h self']|e] eqn:E;
    [|vm_compute in E; discriminate E].
  exists h, self'. split; [reflexivity|].
  destruct (@PSETViewFacts.sighash_segwit_default_argument refC
              (@SIGHASH_ALL refC) false eq_refl
              ltac:(cbv; discriminate) ltac:(cbv; discriminate)
              Sample.pset 0 Sample.script_pubkey (IntValue 10000))
    as [_ R].
  destruct (R h self' E) as (prefix & s & s1 & ho & hr & b_locktime
                             & Hho & Hhr & Hlen & _ & Hh & Hd).
  split; [exact Hd|].
  exists prefix, s, s1, ho, hr, b_locktime.
  split; [exact Hho|]. split; [exact Hhr|]. split; [exact Hlen|exact Hh].
Defined.

(** C10, on the sample PSET: the decoder rejects the flags 4; with input
    index 5 the index error is raised all the same, with input index 0 the
    decoder's. *)
Lemma sighash_segwit_index_before_flags_witness :
  Reference.check 4 = Raise (CollaboratorError "Invalid SIGHASH type")
  /\ PSETView.sighash_segwit (C:=refC) 5 Sample.script_pubkey (IntValue 10000)
       (Some 4) Sample.pset = Raise (PSBTError "Invalid input index")
  /\ PSETView.sighash_segwit (C:=refC) 0 Sample.script_pubkey (IntValue 10000)
       (Some 4) Sample.pset = Raise (CollaboratorError "Invalid SIGHASH type").
Proof.
  split; [reflexivity|]. split.
  - apply (proj1 (@PSETViewFacts.sighash_segwit_index_before_flags refC
                    Sample.pset 5 Sample.script_pubkey (IntValue 10000) (Some 4))).
    right. cbn. lia.
  - apply (proj2 (@PSETViewFacts.sighash_segwit_index_before_flags refC
                    Sample.pset 0 Sample.script_pubkey (IntValue 10000) (Some 4))).
    + cbn. lia.
    + reflexivity.
Defined.

(** The digest of the sample PSET for input 0 under the default flags,
    as [hashlib] gives it on the same fields. *)
Example sample_sighash_segwit :
  exists self',
    PSETView.sighash_segwit (C:=refC) 0 Sample.script_pubkey (IntValue 10000)
      None Sample.pset
    = Ok ([ xac; xcf; xe8; xe5; x30; x93; x22; x61; x8a; x7e; x19; x5f; x37; xd7;
            xf8; xf9; xdd; x55; xc9; x05; xeb; x36; xc4; x29; x0c; x56; x3e; x63;
            x06; x9c; x2f; x4d ], self').
Proof. eexists. vm_compute. reflexivity. Qed.

(** Changing only the flags, from ALL to ALL | ANYONECANPAY, changes what
    is fed to the hasher. *)
Example sample_flags_change_preimage :
  exists h1 h2 s1 s2,
    PSETView.sighash_segwit_hasher (C:=refC) 0 Sample.script_pubkey (IntValue 10000)
      (Some 0x01) Sample.pset = Ok (h1, s1)
    /\ PSETView.sighash_segwit_hasher (C:=refC) 0 Sample.script_pubkey (IntValue 10000)
      (Some 0x81) Sample.pset = Ok (h2, s2)
    /\ h1 <> h2.
Proof.
  do 4 eexists. split; [vm_compute; reflexivity|].
  split; [vm_compute; reflexivity|]. discriminate.
Qed.
End SampleRuns.

(** ** More on the transaction view *)

Module TransactionViewFacts.
Import GlobalLTransactionView Layout.
Import GlobalLTransactionViewFacts.

Ltac tx_step H a s Hm :=
  apply bind_inv in H; destruct H as (a & s & Hm & H).

Lemma int_from_short_field (field : bytes) :
  (length field < 4)%nat ->
  int_from_bytes_little field <> 0xFFFFFFFF
  /\ Z.testbit (int_from_bytes_little field) 31 = false.
Proof.
  intros Hl. pose proof (int_from_bytes_little_range field) as [H0 H1].
  assert (Hlt : int_from_bytes_little field < 2 ^ 24).
  { eapply Z.lt_le_trans; [exact H1|].
    apply Z.pow_le_mono_r; lia. }
  split; [lia|].
  apply Z.bits_above_log2; [exact H0|].
  destruct (Z.eq_dec (int_from_bytes_little field) 0) as [->|Hne]; [cbn; lia|].
  apply Z.log2_lt_pow2; lia.
Qed.

(** One step over an input without issuance. *)
Lemma skip_plain_input (v : t) :
  plain_input_at (buf (stream v)) (pos (stream v)) = true ->
  _skip_input v
  = Ok (41, set_stream (mkBytesIO (buf (stream v)) (pos (stream v) + 41)) v).
Proof.
  unfold plain_input_at. cbv zeta. intros H.
  apply andb_true_iff in H. destruct H as [Hl Hp].
  apply Nat.eqb_eq in Hl.
  rewrite skip_input_unfold.
  2:{ cbv zeta. intros V. apply valid_bounds in V.
      pose proof Hl as Hin. apply field_inside in Hin; [|lia].
      rewrite Hl. lia. }
  cbv zeta. rewrite Hl.
  replace (pos (stream v) + 32 + 4 + 5)%nat with (pos (stream v) + 41)%nat by lia.
  rewrite land_shiftl_testbit by lia.
  apply orb_true_iff in Hp. destruct Hp as [Hp|Hp].
  - rewrite Hp. reflexivity.
  - apply negb_true_iff in Hp. rewrite Hp.
    now destruct (negb _).
Qed.

(** What is read of a field that ends with the buffer lies inside the
    buffer. *)
Lemma short_field_inside (b : bytes) (p k : nat) :
  (0 < length (firstn k (skipn p b)))%nat ->
  (p + length (firstn k (skipn p b)) <= length b)%nat.
Proof.
  rewrite length_firstn, length_skipn. lia.
Qed.

(** X3. On a stream that ends inside the vout field of an input, or
    before it, [_skip_input] asserts nothing. When the position it moves
    to (37 bytes on, plus the vout bytes that were left) is a position of
    a stream, it returns 41 and stands there; when it is none, the seek
    that would pass the last position raises [OverflowError]. *)
Theorem skip_input_truncated (v : t) :
  let s := stream v in
  let field := firstn 4 (skipn (pos s + 32) (buf s)) in
  (length field < 4)%nat ->
  (Z.of_nat (pos s) + 37 + Z.of_nat (length field) <= PY_SSIZE_T_MAX ->
   _skip_input v
   = Ok (41, set_stream (mkBytesIO (buf s) (pos s + 37 + length field)) v))
  /\ (PY_SSIZE_T_MAX < Z.of_nat (pos s) + 37 + Z.of_nat (length field) ->
      io.valid s = true ->
      _skip_input v = Raise OverflowError).
Proof.
  intros s field Hl. split.
  - intros Hroom. rewrite skip_input_unfold by (intros _; exact Hroom).
    cbv zeta. fold s. fold field.
    destruct (int_from_short_field field Hl) as [Hne Hbit].
    rewrite land_shiftl_testbit by lia. rewrite Hbit.
    apply Z.eqb_neq in Hne. rewrite Hne. cbn [negb].
    unfold ret. do 4 f_equal. clearbody field. clearbody s. lia.
  - intros Hover V. unfold _skip_input.
    destruct (@seek_cur_cases 32 s) as [E|[E _]]; [lia| |].
    2:{ apply bind_raise, on_stream_raise. exact E. }
    erewrite bind_ok by (apply on_stream_ok; exact E).
    erewrite bind_ok by (apply on_stream_ok; reflexivity).
    cbn [stream set_stream buf pos].
    change (4 <? 0) with false. cbv iota.
    change (Z.to_nat 32) with 32%nat. change (Z.to_nat 4) with 4%nat.
    fold s. fold field.
    apply bind_raise, on_stream_raise. cbn [stream set_stream].
    apply seek_cur_overflow; cbn [buf pos]; [lia|lia|].
    pose proof (valid_bounds _ V) as [Vb Vp].
    unfold io.valid. cbn [buf pos]. apply andb_true_iff.
    split; apply Z.leb_le; [exact Vb|].
    destruct (length field) as [|k] eqn:Ek.
    + destruct (Z.le_gt_cases (Z.of_nat (pos s) + 32) PY_SSIZE_T_MAX) as [H|H];
        [lia|].
      exfalso. rewrite (@seek_cur_overflow 32 s) in E by (lia || exact V).
      discriminate E.
    + pose proof (@short_field_inside (buf s) (pos s + 32) 4) as Hin.
      fold field in Hin. rewrite Ek in Hin. lia.
Qed.

Lemma plain_inputs_step (b : bytes) (p k : nat) :
  plain_inputs b p (S k) = true ->
  plain_input_at b p = true /\ plain_inputs b (p + 41) k = true.
Proof. cbn [plain_inputs]. intros H. now apply andb_true_iff in H. Qed.

(** A loop of [_skip_input] over inputs without issuance: every turn
    reports 41 and moves the position by 41. *)
Lemma skip_plain_inputs_loop {A B : Type} (g : A -> Z -> A) (l : list B) :
  forall (a : A) (v : t),
    plain_inputs (buf (stream v)) (pos (stream v)) (length l) = true ->
    for_in l (fun _ a => d <- _skip_input ;; ret (g a d)) a v
    = Ok (fold_left (fun a _ => g a 41) l a,
          set_stream (mkBytesIO (buf (stream v)) (pos (stream v) + 41 * length l)) v).
Proof.
  induction l as [|x r IH]; intros a v H.
  - cbn [length fold_left for_in]. unfold ret.
    replace (pos (stream v) + 41 * 0)%nat with (pos (stream v)) by lia.
    now destruct v as [[b p] ? ? ? ? ? ?].
  - cbn [length] in H. apply plain_inputs_step in H. destruct H as [H1 H2].
    cbn [for_in fold_left].
    erewrite bind_ok
      by (erewrite bind_ok by (apply skip_plain_input; exact H1); reflexivity).
    rewrite IH by exact H2.
    cbn [stream set_stream buf pos]. do 2 f_equal.
    rewrite set_stream_twice. do 2 f_equal. cbn [length]. lia.
Qed.

Lemma fold_add_41 {B : Type} (l : list B) (off : Z) :
  fold_left (fun a _ => a + 41) l off = off + 41 * Z.of_nat (length l).
Proof.
  revert off. induction l as [|x r IH]; intros off; cbn [fold_left length].
  - lia.
  - rewrite IH. lia.
Qed.

Lemma range_length (n : Z) : length (range n) = Z.to_nat n.
Proof. unfold range. now rewrite length_map, length_seq. Qed.

Lemma on_stream_inv {A : Type} (m : M BytesIO A) (v v' : t) (a : A) :
  on_stream m v = Ok (a, v') ->
  exists s', m (stream v) = Ok (a, s') /\ v' = set_stream s' v.
Proof.
  unfold on_stream. destruct (m (stream v)) as [[a' s']|e]; [|discriminate].
  intros [= -> <-]. now exists s'.
Qed.

Lemma skip_commitment_raise_inv (s : BytesIO) (e : exn) :
  skip_commitment s = Raise e -> e = AssertionError.
Proof.
  destruct (nth_error (buf s) (pos s)) as [tag|] eqn:E.
  - rewrite (skip_commitment_tag _ E). discriminate.
  - rewrite (skip_commitment_short _ E). now intros [= <-].
Qed.

(** With or without issuance, a seek of [_skip_input] that would pass
    the last position of a stream raises. *)
Lemma skip_input_overflow (v : t) :
  PY_SSIZE_T_MAX < Z.of_nat (pos (stream v)) + 32 ->
  io.valid (stream v) = true ->
  _skip_input v = Raise OverflowError.
Proof.
  intros Hover V. unfold _skip_input.
  apply bind_raise, on_stream_raise, seek_cur_overflow; [lia|exact Hover|exact V].
Qed.

(** X4. All that [_skip_input] can do. It returns 41, or, behind an
    issuance, a count from 107 to 171 (41 + 64 and two commitments of 1, 9
    or 33 bytes); the buffer and the caches of the view are untouched.
    Or it raises: the assertion of [skip_commitment], on an input whose
    vout is not [0xFFFFFFFF] and has bit 31 set; or [OverflowError] from
    one of its seeks, which takes a position within 41 bytes of the last
    one, or within 105 behind an issuance flag. On any other position
    and without issuance [_skip_input] never raises. *)
Theorem skip_input_outcomes (v : t) :
  let s := stream v in
  let vout := int_from_bytes_little (firstn 4 (skipn (pos s + 32) (buf s))) in
  match _skip_input v with
  | Ok (n, v') =>
      (n = 41 \/ 107 <= n <= 171)
      /\ buf (stream v') = buf s
      /\ v' = set_stream (stream v') v
  | Raise e =>
      (e = AssertionError /\ vout <> 0xFFFFFFFF /\ Z.testbit vout 31 = true)
      \/ (e = OverflowError
          /\ (PY_SSIZE_T_MAX < Z.of_nat (pos s) + 41
              \/ (vout <> 0xFFFFFFFF /\ Z.testbit vout 31 = true
                  /\ PY_SSIZE_T_MAX < Z.of_nat (pos s) + 105)))
  end.
Proof.
  intros s vout.
  set (field := firstn 4 (skipn (pos s + 32) (buf s))) in *.
  assert (Hf : (length field <= 4)%nat) by apply firstn_le_length.
  unfold _skip_input.
  destruct (@seek_cur_cases 32 s) as [E|[E Hov]]; [lia| |].
  2:{ erewrite bind_raise by (apply on_stream_raise; exact E).
      right. split; [reflexivity|left; lia]. }
  erewrite bind_ok by (apply on_stream_ok; exact E).
  erewrite bind_ok by (apply on_stream_ok; reflexivity).
  cbn [stream set_stream buf pos].
  change (4 <? 0) with false. cbv iota.
  change (Z.to_nat 32) with 32%nat. change (Z.to_nat 4) with 4%nat.
  fold s. fold field. fold vout. rewrite set_stream_twice.
  destruct (@seek_cur_cases 5 (mkBytesIO (buf s) (pos s + 32 + length field)))
    as [E5|[E5 Hov]]; [lia| |].
  2:{ erewrite bind_raise by (apply on_stream_raise; exact E5).
      right. split; [reflexivity|left; cbn [pos] in Hov; lia]. }
  erewrite bind_ok by (apply on_stream_ok; exact E5).
  cbn [stream set_stream buf pos]. rewrite set_stream_twice.
  rewrite land_shiftl_testbit by lia.
  destruct (Z.eqb_spec vout 0xFFFFFFFF) as [Heq|Hne]; cbn [negb].
  { split; [now left|]. now split. }
  destruct (Z.testbit vout 31) eqn:Hbit.
  2:{ split; [now left|]. now split. }
  match goal with
  | |- context [on_stream (io.seek_cur (32 + 32))] =>
      destruct (@seek_cur_cases (32 + 32)
                  (mkBytesIO (buf s) (pos s + 32 + length field + Z.to_nat 5)))
        as [E64|[E64 Hov]]; [lia| |]
  end.
  2:{ erewrite bind_raise by (apply on_stream_raise; exact E64).
      right. split; [reflexivity|right]. cbn [pos] in Hov.
      repeat split; [exact Hne|lia]. }
  erewrite bind_ok by (apply on_stream_ok; exact E64).
  cbn [stream set_stream buf pos]. rewrite set_stream_twice.
  set (v0 := set_stream _ v).
  unfold bind at 1. unfold on_stream at 1.
  destruct (skip_commitment (stream v0)) as [[n1 s1]|e1] eqn:E1.
  2:{ apply skip_commitment_raise_inv in E1. left. now subst. }
  unfold bind at 1. unfold on_stream at 1. rewrite stream_set_stream.
  destruct (skip_commitment s1) as [[n2 s2]|e2] eqn:E2.
  2:{ apply skip_commitment_raise_inv in E2. left. now subst. }
  apply skip_commitment_ok_inv in E1, E2.
  destruct E1 as (B1 & _ & N1), E2 as (B2 & _ & N2).
  unfold ret. cbn [stream set_stream]. split; [right; lia|].
  split; [|reflexivity].
  rewrite B2, B1. reflexivity.
Qed.

Section WithCollaborators.
Context {C : Collaborators}.

(** X5. In a transaction whose inputs carry no issuance, the output
    count sits 41 bytes per input after the first input: when
    [vin0_offset] gives [off], [num_vin] then answers [n] without moving
    the stream, and [n] inputs without issuance follow from [off],
    [num_vout_offset] is [off + 41 * n], is cached, and leaves the stream
    at that position. *)
Theorem num_vout_offset_plain (v v1 v2 : t) (off n : Z) (b : bytes) :
  _num_vout_offset v = None ->
  vin0_offset v = Ok (off, v1) ->
  0 <= off -> 0 <= n ->
  num_vin (set_stream (mkBytesIO (buf (stream v1)) (Z.to_nat off)) v1) = Ok (n, v2) ->
  stream v2 = mkBytesIO b (Z.to_nat off) ->
  plain_inputs b (Z.to_nat off) (Z.to_nat n) = true ->
  num_vout_offset v
  = Ok (off + 41 * n,
        set__num_vout_offset (off + 41 * n)
          (set_stream (mkBytesIO b (Z.to_nat (off + 41 * n))) v2)).
Proof.
  intros Hc Hoff H0 Hn0 Hn Hs Hp. unfold num_vout_offset.
  unfold bind at 1. unfold get at 1. rewrite Hc.
  erewrite bind_ok by exact Hoff.
  erewrite bind_ok.
  2:{ apply on_stream_ok. unfold io.seek.
      replace (off <? 0) with false by (symmetry; apply Z.ltb_ge; lia).
      reflexivity. }
  erewrite bind_ok by exact Hn.
  erewrite bind_ok.
  2:{ apply (skip_plain_inputs_loop Z.add).
      rewrite Hs, range_length. exact Hp. }
  rewrite fold_add_41, range_length, Hs. cbn [buf pos].
  rewrite Z2Nat.id by lia. unfold bind, modify, ret.
  replace (Z.to_nat off + 41 * Z.to_nat n)%nat with (Z.to_nat (off + 41 * n))
    by lia.
  reflexivity.
Qed.

(** X6. [vin(i)] behind inputs without issuance: when [num_vin] gives a
    count above [i], [vin0_offset] gives [off] and the [i] inputs from
    [off] on carry no issuance, [vin(i)] is what the input parser returns
    at position [off + 41 * i]. *)
Theorem vin_behind_plain_inputs (i n off : Z) (v v1 v2 : t) :
  0 <= i < n ->
  num_vin v = Ok (n, v1) ->
  vin0_offset v1 = Ok (off, v2) ->
  0 <= off ->
  plain_inputs (buf (stream v2)) (Z.to_nat off) (Z.to_nat i) = true ->
  vin i v
  = on_stream LTransactionInput_read_from
      (set_stream (mkBytesIO (buf (stream v2)) (Z.to_nat (off + 41 * i))) v2).
Proof.
  intros Hi Hn Hoff H0 Hp. unfold vin.
  replace (i <? 0) with false by (symmetry; apply Z.ltb_ge; lia).
  erewrite bind_ok by (erewrite bind_ok by exact Hn; reflexivity).
  replace (i >=? n) with false
    by (symmetry; rewrite Z.geb_leb; apply Z.leb_gt; lia).
  erewrite bind_ok by exact Hoff.
  erewrite bind_ok.
  2:{ apply on_stream_ok. unfold io.seek.
      replace (off <? 0) with false by (symmetry; apply Z.ltb_ge; lia).
      reflexivity. }
  erewrite bind_ok.
  2:{ apply (skip_plain_inputs_loop (fun _ _ => tt)).
      cbn [stream set_stream buf pos]. rewrite range_length. exact Hp. }
  cbn [stream set_stream buf pos]. rewrite set_stream_twice, range_length.
  replace (Z.to_nat off + 41 * Z.to_nat i)%nat with (Z.to_nat (off + 41 * i))
    by lia.
  reflexivity.
Qed.

Lemma read_one_at (b : bytes) (p : nat) (x : byte) :
  nth_error b p = Some x ->
  io.read 1 (mkBytesIO b p) = Ok ([x], mkBytesIO b (p + 1)).
Proof.
  intros H. unfold io.read. cbn [buf pos].
  change (1 <? 0) with false. change (Z.to_nat 1) with 1%nat. cbv zeta.
  now rewrite (read_one_some _ _ H).
Qed.

Lemma value_skip (v : t) (tag : byte) :
  (pos (stream v) <= length (buf (stream v)))%nat ->
  (if negb (bytes_eqb [tag] [x01])
   then on_stream (io.seek_cur 32)
   else on_stream (io.seek_cur 8)) v
  = Ok (Z.of_nat (pos (stream v)) + Z.of_nat (value_payload tag),
        set_stream (mkBytesIO (buf (stream v))
                      (pos (stream v) + value_payload tag)) v).
Proof.
  intros Hin. unfold value_payload.
  destruct (bytes_eqb [tag] [x01]); cbn [negb];
    apply on_stream_ok; now rewrite seek_cur_inside by lia.
Qed.

Lemma ecdh_skip (v : t) (tag : byte) :
  (pos (stream v) <= length (buf (stream v)))%nat ->
  (if negb (bytes_eqb [tag] [x00])
   then _ <- on_stream (io.seek_cur 32) ;; ret tt
   else ret tt) v
  = Ok (tt, set_stream (mkBytesIO (buf (stream v))
                          (pos (stream v) + ecdh_payload tag)) v).
Proof.
  intros Hin. unfold ecdh_payload.
  destruct (bytes_eqb [tag] [x00]); cbn [negb].
  - unfold ret. replace (pos (stream v) + 0)%nat with (pos (stream v)) by lia.
    now destruct v as [[b p] ? ? ? ? ? ?].
  - erewrite bind_ok by (apply on_stream_ok, seek_cur_inside; lia).
    reflexivity.
Qed.

(** The fixed part of an output whose two tag bytes are in the stream:
    [_skip_output] comes to the script length. *)
Lemma skip_output_unfold (v : t) (t1 t2 : byte) :
  let b := buf (stream v) in
  let p := pos (stream v) in
  nth_error b (p + 33) = Some t1 ->
  nth_error b (p + 34 + value_payload t1) = Some t2 ->
  _skip_output v
  = (l <- on_stream compact_read_from ;;
     _ <- on_stream (io.seek_cur l) ;;
     ret tt)
      (set_stream (mkBytesIO b (p + 35 + value_payload t1 + ecdh_payload t2)) v).
Proof.
  intros b p H1 H2. unfold _skip_output.
  pose proof (nth_error_inside _ _ H1) as I1.
  pose proof (nth_error_inside _ _ H2) as I2.
  erewrite bind_ok by (apply on_stream_ok, seek_cur_inside; fold b; fold p; lia).
  fold b. fold p. change (Z.to_nat 33) with 33%nat.
  erewrite bind_ok
    by (apply on_stream_ok; cbn [stream set_stream]; apply read_one_at; exact H1).
  rewrite set_stream_twice.
  erewrite bind_ok by (apply value_skip; cbn [stream set_stream buf pos]; lia).
  cbn [stream set_stream buf pos]. rewrite set_stream_twice.
  replace (p + 33 + 1 + value_payload t1)%nat with (p + 34 + value_payload t1)%nat
    by lia.
  erewrite bind_ok
    by (apply on_stream_ok; cbn [stream set_stream]; apply read_one_at; exact H2).
  rewrite set_stream_twice.
  erewrite bind_ok by (apply ecdh_skip; cbn [stream set_stream buf pos]; lia).
  cbn [stream set_stream buf pos]. rewrite set_stream_twice.
  replace (p + 34 + value_payload t1 + 1 + ecdh_payload t2)%nat
    with (p + 35 + value_payload t1 + ecdh_payload t2)%nat by lia.
  reflexivity.
Qed.

(** X1. [_skip_output] over an output whose two tag bytes are in the
    stream: after the 33 asset bytes, a value tag [0x01] is followed by 8
    bytes and any other by 32; an ecdh tag [0x00] by nothing and any other
    by 32; then comes the script, whose compact length [l] the codec reads.
    When [l] bytes after the place where the codec stopped is a position
    of a stream, [_skip_output] ends there, and nothing but the stream of
    the view changes; when it is none, the seek over the script raises
    [OverflowError]. *)
Theorem skip_output_consumes (v : t) (t1 t2 : byte) (l : Z) (s' : BytesIO) :
  let b := buf (stream v) in
  let p := pos (stream v) in
  nth_error b (p + 33) = Some t1 ->
  nth_error b (p + 34 + value_payload t1) = Some t2 ->
  compact_read_from (mkBytesIO b (p + 35 + value_payload t1 + ecdh_payload t2))
  = Ok (l, s') ->
  0 <= l ->
  (Z.of_nat (pos s') + l <= PY_SSIZE_T_MAX ->
   _skip_output v
   = Ok (tt, set_stream (mkBytesIO (buf s') (pos s' + Z.to_nat l)) v))
  /\ (PY_SSIZE_T_MAX < Z.of_nat (pos s') + l ->
      io.valid s' = true ->
      _skip_output v = Raise OverflowError).
Proof.
  intros b p H1 H2 Hc Hl.
  rewrite (@skip_output_unfold v t1 t2 H1 H2). fold b. fold p.
  erewrite bind_ok by (apply on_stream_ok; cbn [stream set_stream]; exact Hc).
  rewrite set_stream_twice. split.
  - intros Hroom.
    erewrite bind_ok
      by (apply on_stream_ok, seek_cur_forward; cbn [stream set_stream];
          [lia|intros _; exact Hroom]).
    cbn [stream set_stream]. rewrite set_stream_twice. reflexivity.
  - intros Hover V.
    apply bind_raise, on_stream_raise. cbn [stream set_stream].
    now apply seek_cur_overflow.
Qed.

(** *** The offset caches *)

Lemma num_vout_offset_cached (v v' : t) (off : Z) :
  num_vout_offset v = Ok (off, v') -> _num_vout_offset v' = Some off.
Proof.
  unfold num_vout_offset. intros H. tx_step H s0 s0' Hget.
  injection Hget as <- <-.
  destruct (_num_vout_offset v) as [c|] eqn:E.
  - injection H as <- <-. exact E.
  - tx_step H o1 v1 H1. tx_step H o2 v2 H2. tx_step H n v3 H3.
    tx_step H o4 v4 H4. tx_step H u v5 H5.
    injection H5 as _ <-. now injection H as <- <-.
Qed.

Lemma num_vout_cached (v v' : t) (n : Z) :
  num_vout v = Ok (n, v') ->
  _num_vout v' = Some n
  /\ (_num_vout v = None -> exists off, _num_vout_offset v' = Some off).
Proof.
  unfold num_vout. intros H. tx_step H s0 s0' Hget.
  injection Hget as <- <-.
  destruct (_num_vout v) as [c|] eqn:E.
  - injection H as <- <-. split; [exact E|discriminate].
  - tx_step H off v1 H1. apply num_vout_offset_cached in H1.
    tx_step H o2 v2 H2. apply on_stream_inv in H2. destruct H2 as (s2 & _ & ->).
    tx_step H m v3 H3. apply on_stream_inv in H3. destruct H3 as (s3 & _ & ->).
    tx_step H u v4 H4. injection H4 as _ <-. injection H as <- <-.
    split; [reflexivity|]. intros _. now exists off.
Qed.


(** X8. How the three offsets fit together: when [vout0_offset] is not
    cached and returns [x], the view it leaves has the two other values
    cached, and [x] is [num_vout_offset] plus the length of the compact
    encoding of [num_vout]. *)
Theorem vout0_offset_composition (v v' : t) (x : Z) :
  _vout0_offset v = None ->
  vout0_offset v = Ok (x, v') ->
  exists off n enc,
    num_vout_offset v' = Ok (off, v')
    /\ num_vout v' = Ok (n, v')
    /\ compact_to_bytes n = Ok enc
    /\ x = off + Z.of_nat (length enc).
Proof.
  intros E H. unfold vout0_offset in H. tx_step H s0 s0' Hget.
  injection Hget as <- <-. rewrite E in H.
  tx_step H off v1 H1. tx_step H n v2 H2. tx_step H enc v3 H3.
  apply lift_inv in H3. destruct H3 as [H3 ->].
  tx_step H u v4 H4. injection H4 as _ <-. injection H as <- <-.
  pose proof (num_vout_offset_cached _ H1) as C1.
  assert (C2 : _num_vout v2 = Some n /\ _num_vout_offset v2 = Some off).
  { pose proof (num_vout_cached _ H2) as [A B]. split; [exact A|].
    unfold num_vout in H2. tx_step H2 sa sa' Hget. injection Hget as <- <-.
    destruct (_num_vout v1) as [c|].
    - injection H2 as _ <-. exact C1.
    - tx_step H2 off' v5 H5.
      unfold num_vout_offset, bind, get in H5. rewrite C1 in H5.
      injection H5 as <- <-.
      tx_step H2 o2 v6 H6. apply on_stream_inv in H6. destruct H6 as (s6 & _ & ->).
      tx_step H2 m v7 H7. apply on_stream_inv in H7. destruct H7 as (s7 & _ & ->).
      tx_step H2 u8 v8 H8. injection H8 as _ <-. injection H2 as _ <-.
      exact C1. }
  destruct C2 as [Cn Co].
  exists off, n, enc. repeat split.
  - unfold num_vout_offset, bind, get. cbn [_num_vout_offset set__vout0_offset].
    now rewrite Co.
  - unfold num_vout, bind, get. cbn [_num_vout set__vout0_offset].
    now rewrite Cn.
  - exact H3.
Qed.

Lemma seek_cur_raise_inv (n : Z) (s : BytesIO) (e : exn) :
  io.seek_cur n s = Raise e ->
  e = OverflowError
  /\ (n < PY_SSIZE_T_MIN \/ PY_SSIZE_T_MAX - Z.of_nat (pos s) < n).
Proof.
  unfold io.seek_cur. cbv zeta.
  destruct (Z.ltb_spec n PY_SSIZE_T_MIN) as [Hlow|_]; cbn [orb].
  { intros [= <-]. split; [reflexivity|now left]. }
  destruct (Z.ltb_spec PY_SSIZE_T_MAX n) as [Hbig|_].
  { intros [= <-]. split; [reflexivity|right; lia]. }
  destruct (Z.ltb_spec (PY_SSIZE_T_MAX - Z.of_nat (pos s)) n) as [Hover|_];
    [|discriminate].
  destruct (io.valid s); [|discriminate].
  intros [= <-]. split; [reflexivity|now right].
Qed.

(** The fixed part of any output: [_skip_output] comes to the script
    length within 99 bytes, unless one of its seeks passes the last
    position. *)
Lemma skip_output_head (v : t) :
  let s := stream v in
  (_skip_output v = Raise OverflowError
   /\ PY_SSIZE_T_MAX < Z.of_nat (pos s) + 99)
  \/ exists k : nat,
       (33 <= k <= 99)%nat
       /\ _skip_output v
          = (l <- on_stream compact_read_from ;;
             _ <- on_stream (io.seek_cur l) ;;
             ret tt)
              (set_stream (mkBytesIO (buf s) (pos s + k)) v).
Proof.
  intros s. unfold _skip_output.
  destruct (@seek_cur_cases 33 s) as [E|[E Hov]]; [lia| |].
  2:{ left. split; [|lia]. apply bind_raise, on_stream_raise. exact E. }
  erewrite bind_ok by (apply on_stream_ok; exact E).
  erewrite bind_ok by (apply on_stream_ok; reflexivity).
  cbn [stream set_stream buf pos]. fold s.
  change (1 <? 0) with false. cbv iota.
  change (Z.to_nat 33) with 33%nat. change (Z.to_nat 1) with 1%nat.
  rewrite set_stream_twice.
  set (c1 := firstn 1 (skipn (pos s + 33) (buf s))).
  assert (L1 : (length c1 <= 1)%nat) by apply firstn_le_length.
  set (n1 := if negb (bytes_eqb c1 [x01]) then 32 else 8).
  assert (N1 : 0 <= n1 <= 32) by (unfold n1; destruct (negb _); lia).
  set (s1 := mkBytesIO (buf s) (pos s + 33 + length c1)).
  assert (S1 : (if negb (bytes_eqb c1 [x01])
                then on_stream (io.seek_cur 32)
                else on_stream (io.seek_cur 8))
               = on_stream (io.seek_cur n1))
    by (unfold n1; now destruct (negb _)).
  rewrite S1.
  destruct (@seek_cur_cases n1 s1) as [E1|[E1 Hov]]; [lia| |].
  2:{ left. split; [|cbn [pos s1] in Hov; lia].
      apply bind_raise, on_stream_raise. exact E1. }
  erewrite bind_ok by (apply on_stream_ok; exact E1).
  erewrite bind_ok by (apply on_stream_ok; reflexivity).
  cbn [stream set_stream buf pos s1].
  change (1 <? 0) with false. cbv iota. change (Z.to_nat 1) with 1%nat.
  rewrite !set_stream_twice.
  set (p2 := (pos s + 33 + length c1 + Z.to_nat n1)%nat).
  set (c2 := firstn 1 (skipn p2 (buf s))).
  assert (L2 : (length c2 <= 1)%nat) by apply firstn_le_length.
  destruct (negb (bytes_eqb c2 [x00])).
  - destruct (@seek_cur_cases 32 (mkBytesIO (buf s) (p2 + length c2)))
      as [E2|[E2 Hov]]; [lia| |].
    2:{ left. split; [|cbn [pos] in Hov; unfold p2 in Hov; lia].
        apply bind_raise, bind_raise, on_stream_raise. exact E2. }
    right. exists (33 + length c1 + Z.to_nat n1 + length c2 + 32)%nat.
    split; [lia|].
    erewrite bind_ok
      by (erewrite bind_ok by (apply on_stream_ok; exact E2); reflexivity).
    cbn [stream set_stream buf pos]. rewrite set_stream_twice.
    change (Z.to_nat 32) with 32%nat.
    replace (p2 + length c2 + 32)%nat
      with (pos s + (33 + length c1 + Z.to_nat n1 + length c2 + 32))%nat
      by (unfold p2; lia).
    reflexivity.
  - right. exists (33 + length c1 + Z.to_nat n1 + length c2)%nat.
    split; [lia|].
    erewrite bind_ok by reflexivity.
    replace (p2 + length c2)%nat
      with (pos s + (33 + length c1 + Z.to_nat n1 + length c2))%nat
      by (unfold p2; lia).
    reflexivity.
Qed.

(** X2. [_skip_output] checks nothing by itself: it asserts no length and
    takes a tag byte it could not read for the tag of a 32-byte field.
    When it raises, the exception is the one the compact-size codec raised
    while reading the script length from the stream of the view, or it is
    the [OverflowError] of a seek: of the seek over the script, when the
    length the codec returned is no offset or leads past the last
    position, or of a seek over a fixed part, from a position within 99
    bytes of the last one. The codec reads 33 to 99 bytes after the place
    where the output starts. *)
Theorem skip_output_raises_with_codec (v : t) (e : exn) :
  _skip_output v = Raise e ->
  (e = OverflowError
   /\ PY_SSIZE_T_MAX < Z.of_nat (pos (stream v)) + 99)
  \/ exists s,
       buf s = buf (stream v)
       /\ (pos (stream v) + 33 <= pos s <= pos (stream v) + 99)%nat
       /\ (compact_read_from s = Raise e
           \/ (e = OverflowError
               /\ exists l s',
                    compact_read_from s = Ok (l, s')
                    /\ (l < PY_SSIZE_T_MIN
                        \/ PY_SSIZE_T_MAX - Z.of_nat (pos s') < l))).
Proof.
  intros H. destruct (skip_output_head v) as [[E Hov]|(k & Hk & E)].
  - left. rewrite E in H. injection H as <-. now split.
  - right. rewrite E in H. clear E.
    exists (mkBytesIO (buf (stream v)) (pos (stream v) + k)).
    split; [reflexivity|]. split; [cbn [pos]; lia|].
    unfold bind at 1 in H. unfold on_stream at 1 in H.
    cbn [stream set_stream] in H.
    destruct (compact_read_from _) as [[l s']|e'] eqn:Ec.
    + right. unfold bind at 1 in H. unfold on_stream at 1 in H.
      cbn [stream set_stream] in H.
      destruct (io.seek_cur l s') as [[x s2]|e2] eqn:Es; [discriminate H|].
      injection H as <-. apply seek_cur_raise_inv in Es.
      destruct Es as [-> Hl]. split; [reflexivity|].
      now exists l, s'.
    + left. now injection H as <-.
Qed.

End WithCollaborators.
End TransactionViewFacts.

(** ** More on the PSET view *)

Module PSETViewMore.
Import PSETView.
Import PSETViewFacts.

Ltac pv_step H a s Hm :=
  apply bind_inv in H; destruct H as (a & s & Hm & H).

Lemma range_in_bounds (n : Z) : Forall (fun i => 0 <= i < n) (range n).
Proof.
  unfold range. apply Forall_forall. intros i Hi.
  apply in_map_iff in Hi. destruct Hi as (k & <- & Hk).
  apply in_seq in Hk. lia.
Qed.

Lemma range_split (n k : Z) :
  0 <= k < n ->
  exists rest, range n = range k ++ k :: rest.
Proof.
  intros H. unfold range.
  replace (Z.to_nat n) with (Z.to_nat k + S (Z.to_nat n - S (Z.to_nat k)))%nat
    by lia.
  rewrite seq_app, map_app. cbn [seq map]. rewrite Nat.add_0_l, Z2Nat.id by lia.
  eexists. reflexivity.
Qed.

Lemma blinded_vout_ok (i : Z) (self : t) (o : LOutputScope.t) :
  0 <= i < num_outputs self ->
  output_scope self i = Ok o ->
  blinded_vout i self = Ok (LOutputScope.blinded_vout o, self).
Proof.
  intros Hi Ho. unfold blinded_vout, output, bind, get.
  rewrite (in_range Hi). now rewrite (call_ok (fun s => output_scope s i) self Ho).
Qed.

Lemma blinded_vout_raise (i : Z) (self : t) (e : exn) :
  0 <= i < num_outputs self ->
  output_scope self i = Raise e ->
  blinded_vout i self = Raise e.
Proof.
  intros Hi Ho. unfold blinded_vout, output, bind, get.
  rewrite (in_range Hi). unfold call, lift. now rewrite Ho.
Qed.

(** A loop over outputs whose body feeds [f out] to the hasher. *)
Lemma outputs_loop (f : BlindedLTransactionOutput.t -> bytes)
    (g : hashlib.hasher -> BlindedLTransactionOutput.t -> hashlib.hasher)
    (self : t) :
  (forall h out, g h out = h ++ f out) ->
  forall (l : list Z) (outs : list LOutputScope.t) (h : hashlib.hasher),
    Forall (fun i => 0 <= i < num_outputs self) l ->
    map (output_scope self) l = map Ok outs ->
    for_in l (fun i h => out <- blinded_vout i ;; ret (g h out)) h self
    = Ok (h ++ concat (map (fun o => f (LOutputScope.blinded_vout o)) outs), self).
Proof.
  intros Hg. induction l as [|i r IH]; intros outs h Hb Hm.
  - destruct outs; [|discriminate]. cbn. unfold ret. now rewrite app_nil_r.
  - destruct outs as [|o outs]; [discriminate|].
    cbn [map] in Hm. injection Hm as Ho Hr.
    apply Forall_cons_iff in Hb. destruct Hb as [Hi Hb].
    cbn [for_in].
    erewrite bind_ok
      by (erewrite bind_ok by (apply blinded_vout_ok; eassumption); reflexivity).
    rewrite (IH outs _ Hb Hr), Hg. cbn [map concat].
    now rewrite <- app_assoc.
Qed.

Lemma outputs_loop_raise
    (g : hashlib.hasher -> BlindedLTransactionOutput.t -> hashlib.hasher)
    (self : t) (k : Z) (e : exn) :
  forall (l rest : list Z) (outs : list LOutputScope.t) (h : hashlib.hasher),
    Forall (fun i => 0 <= i < num_outputs self) l ->
    map (output_scope self) l = map Ok outs ->
    0 <= k < num_outputs self ->
    output_scope self k = Raise e ->
    for_in (l ++ k :: rest)
      (fun i h => out <- blinded_vout i ;; ret (g h out)) h self
    = Raise e.
Proof.
  induction l as [|i r IH]; intros rest outs h Hb Hm Hk He.
  - cbn [app for_in]. apply bind_raise. apply bind_raise.
    now apply blinded_vout_raise.
  - destruct outs as [|o outs]; [discriminate|].
    cbn [map] in Hm. injection Hm as Ho Hr.
    apply Forall_cons_iff in Hb. destruct Hb as [Hi Hb].
    cbn [app for_in].
    erewrite bind_ok
      by (erewrite bind_ok by (apply blinded_vout_ok; eassumption); reflexivity).
    now apply (IH rest outs).
Qed.

(** X9. [hash_outputs] on an empty cache, when every output of the PSET
    can be read: the digest is the SHA-256 of the serialized outputs
    concatenated in index order, and it is stored in the cache; nothing
    else of the view changes. *)
Theorem hash_outputs_digest (self : t) (outs : list LOutputScope.t) :
  _hash_outputs self = None ->
  map (output_scope self) (range (num_outputs self)) = map Ok outs ->
  let d := hashlib.sha256 (concat (map serialized_output outs)) in
  hash_outputs self = Ok (d, set__hash_outputs (Some d) self).
Proof.
  intros Hc Hm d. unfold hash_outputs, bind at 1, get at 1. rewrite Hc.
  erewrite bind_ok
    by (apply outputs_loop with (f := BlindedLTransactionOutput.serialize);
        [reflexivity|apply range_in_bounds|exact Hm]).
  reflexivity.
Qed.

(** X10. [hash_rangeproofs] on an empty cache, when every output of the
    PSET can be read: the digest is the SHA-256 of the concatenation, in
    index order, of each output's serialized range proof followed by its
    serialized surjection proof, and it is stored in the cache. *)
Theorem hash_rangeproofs_digest (self : t) (outs : list LOutputScope.t) :
  _hash_rangeproofs self = None ->
  map (output_scope self) (range (num_outputs self)) = map Ok outs ->
  let d := hashlib.sha256 (concat (map serialized_proofs outs)) in
  hash_rangeproofs self = Ok (d, set__hash_rangeproofs (Some d) self).
Proof.
  intros Hc Hm d. unfold hash_rangeproofs, bind at 1, get at 1. rewrite Hc.
  erewrite bind_ok.
  2:{ apply outputs_loop
        with (f := fun out =>
                     RangeProof.serialize
                       (TxOutWitness.range_proof (BlindedLTransactionOutput.witness out))
                     ++ SurjectionProof.serialize
                          (TxOutWitness.surjection_proof
                             (BlindedLTransactionOutput.witness out))).
      - intros h out. unfold hashlib.update. now rewrite <- app_assoc.
      - apply range_in_bounds.
      - exact Hm. }
  reflexivity.
Qed.

(** X11. An output that cannot be read stops both digests: when output
    [k] raises and the outputs before it can be read, [hash_outputs] and
    [hash_rangeproofs] on an empty cache raise the exception of output
    [k]; no digest of the readable outputs is returned. *)
Theorem output_digests_propagate (self : t) (k : Z) (e : exn)
    (outs : list LOutputScope.t) :
  0 <= k < num_outputs self ->
  map (output_scope self) (range k) = map Ok outs ->
  output_scope self k = Raise e ->
  (_hash_outputs self = None -> hash_outputs self = Raise e)
  /\ (_hash_rangeproofs self = None -> hash_rangeproofs self = Raise e).
Proof.
  intros Hk Hm He.
  destruct (range_split Hk) as (rest & Hr).
  assert (Hb : Forall (fun i => 0 <= i < num_outputs self) (range k)).
  { eapply Forall_impl; [|apply range_in_bounds]. cbv beta. lia. }
  split; intros Hc.
  - unfold hash_outputs, bind at 1, get at 1. rewrite Hc, Hr.
    apply bind_raise.
    now apply outputs_loop_raise with (outs := outs).
  - unfold hash_rangeproofs, bind at 1, get at 1. rewrite Hc, Hr.
    apply bind_raise.
    now apply outputs_loop_raise with (outs := outs).
Qed.

(** *** The digest caches *)

Lemma hash_outputs_cached (s s' : t) (d : bytes) :
  hash_outputs s = Ok (d, s') ->
  _hash_outputs s' = Some d /\ _hash_rangeproofs s' = _hash_rangeproofs s.
Proof.
  unfold hash_outputs. intros H. pv_step H s0 s0' Hget.
  injection Hget as <- <-. destruct (_hash_outputs s) as [c|] eqn:E.
  - injection H as <- <-. now split.
  - pv_step H h s1 Hloop. apply for_in_pure in Hloop.
    + subst s1. pv_step H u s2 Hm. injection Hm as _ <-.
      injection H as <- <-. now split.
    + intros x a s2 a' s2' Hb. pv_step Hb out s3 Hout.
      apply blinded_vout_pure in Hout. subst s3. now injection Hb as _ <-.
Qed.

Lemma hash_rangeproofs_cached (s s' : t) (d : bytes) :
  hash_rangeproofs s = Ok (d, s') ->
  _hash_rangeproofs s' = Some d /\ _hash_outputs s' = _hash_outputs s.
Proof.
  unfold hash_rangeproofs. intros H. pv_step H s0 s0' Hget.
  injection Hget as <- <-. destruct (_hash_rangeproofs s) as [c|] eqn:E.
  - injection H as <- <-. now split.
  - pv_step H h s1 Hloop. apply for_in_pure in Hloop.
    + subst s1. pv_step H u s2 Hm. injection Hm as _ <-.
      injection H as <- <-. now split.
    + intros x a s2 a' s2' Hb. pv_step Hb out s3 Hout.
      apply blinded_vout_pure in Hout. subst s3. now injection Hb as _ <-.
Qed.

Lemma hash_outputs_hit (s : t) (d : bytes) :
  _hash_outputs s = Some d -> hash_outputs s = Ok (d, s).
Proof. intros H. unfold hash_outputs, bind, get. now rewrite H. Qed.

Lemma hash_rangeproofs_hit (s : t) (d : bytes) :
  _hash_rangeproofs s = Some d -> hash_rangeproofs s = Ok (d, s).
Proof. intros H. unfold hash_rangeproofs, bind, get. now rewrite H. Qed.

(** X12. The two output digests are memoized and do not disturb each
    other. A cache that holds [c] answers [c], whatever [c] is and
    whatever the outputs are, and the view stays as it is: no output is
    read. A digest that was returned is in its cache afterwards, and the
    other method leaves it there: once [hash_outputs] and then
    [hash_rangeproofs] have returned, each of them, called again, returns
    the digest it returned before and leaves the view as it is. *)
Theorem output_digests_memoized (s s1 s2 : t) (d r : bytes) :
  (forall c, _hash_outputs s = Some c -> hash_outputs s = Ok (c, s))
  /\ (forall c, _hash_rangeproofs s = Some c -> hash_rangeproofs s = Ok (c, s))
  /\ (hash_outputs s = Ok (d, s1) ->
      hash_rangeproofs s1 = Ok (r, s2) ->
      _hash_outputs s1 = Some d
      /\ _hash_outputs s2 = Some d
      /\ _hash_rangeproofs s2 = Some r
      /\ hash_outputs s1 = Ok (d, s1)
      /\ hash_outputs s2 = Ok (d, s2)
      /\ hash_rangeproofs s2 = Ok (r, s2)).
Proof.
  split; [intros c; apply hash_outputs_hit|].
  split; [intros c; apply hash_rangeproofs_hit|].
  intros Ho Hr.
  apply hash_outputs_cached in Ho. destruct Ho as [Ho _].
  apply hash_rangeproofs_cached in Hr. destruct Hr as [Hr Hk].
  assert (Ho2 : _hash_outputs s2 = Some d) by congruence.
  split; [exact Ho|]. split; [exact Ho2|]. split; [exact Hr|].
  split; [now apply hash_outputs_hit|].
  split; [now apply hash_outputs_hit|now apply hash_rangeproofs_hit].
Qed.

(** X13. [clear_cache] makes the three digests start over: whatever the
    caches held, after [clear_cache] the digests are computed from the
    document again, [hash_issuances] from [num_inputs] and the two output
    digests from the outputs, in this order or any other. *)
Theorem clear_cache_recomputes (s : t) (outs : list LOutputScope.t) :
  map (output_scope s) (range (num_outputs s)) = map Ok outs ->
  exists s0,
    clear_cache s = Ok (tt, s0)
    /\ same_document s s0
    /\ (exists s1, hash_issuances s0
          = Ok (hashlib.sha256 (repeat x00 (Z.to_nat (num_inputs s))), s1))
    /\ (exists s1, hash_outputs s0
          = Ok (hashlib.sha256 (concat (map serialized_output outs)), s1))
    /\ (exists s1, hash_rangeproofs s0
          = Ok (hashlib.sha256 (concat (map serialized_proofs outs)), s1)).
Proof.
  intros Hm.
  exists (set__hash_issuances None
            (set__hash_rangeproofs None (set__hash_outputs None s))).
  split; [reflexivity|]. split; [now repeat split|].
  split; [|split].
  - eexists. rewrite hash_issuances_run by now left.
    cbn [num_inputs set__hash_issuances set__hash_rangeproofs set__hash_outputs].
    now rewrite bytes_mul_zero_repeat.
  - eexists. unfold hash_outputs, bind at 1, get at 1.
    cbn [_hash_outputs set__hash_issuances set__hash_rangeproofs set__hash_outputs].
    erewrite bind_ok
      by (apply outputs_loop with (f := BlindedLTransactionOutput.serialize);
          [reflexivity|apply range_in_bounds|exact Hm]).
    reflexivity.
  - eexists. unfold hash_rangeproofs, bind at 1, get at 1.
    cbn [_hash_rangeproofs set__hash_issuances set__hash_rangeproofs set__hash_outputs].
    erewrite bind_ok.
    2:{ apply outputs_loop
          with (f := fun out =>
                       RangeProof.serialize
                         (TxOutWitness.range_proof (BlindedLTransactionOutput.witness out))
                       ++ SurjectionProof.serialize
                            (TxOutWitness.surjection_proof
                               (BlindedLTransactionOutput.witness out))).
        - intros h out. unfold hashlib.update. now rewrite <- app_assoc.
        - apply range_in_bounds.
        - exact Hm. }
    reflexivity.
Qed.

Section WithCollaborators.
Context {C : Collaborators}.

(** *** Fields missing from the per-input scope *)

(** X14. [vin] without attached transaction view, index in range: the
    txid and vout fields are needed, and a scope without one of them makes
    [vin] raise [TypeError]; an exception of the scope lookup is passed
    on; a sequence field that is there but empty counts as absent and
    gives [0xFFFFFFFF]. *)
Theorem vin_missing_fields (self : t) (i : Z) :
  tx self = None ->
  0 <= i < num_inputs self ->
  (scope_value self i [x0e] = Ok None -> vin i self = Raise TypeError)
  /\ (forall e, scope_value self i [x0e] = Raise e -> vin i self = Raise e)
  /\ (forall txid, scope_value self i [x0e] = Ok (Some txid) ->
       scope_value self i [x0f] = Ok None -> vin i self = Raise TypeError)
  /\ (forall txid vout, scope_value self i [x0e] = Ok (Some txid) ->
       scope_value self i [x0f] = Ok (Some vout) ->
       scope_value self i [x10] = Ok (Some []) ->
       vin i self
       = Ok (LTransactionInput.mk (rev txid) (int_from_bytes_little vout)
               0xFFFFFFFF, self)).
Proof.
  intros Htx Hi.
  assert (U : vin i self
              = (v <- call (fun self => scope_value self i [x0e]) ;;
                 txid <- lift (bytes_reversed v) ;;
                 v <- call (fun self => scope_value self i [x0f]) ;;
                 vout <- lift (int_from_value v) ;;
                 v <- call (fun self => scope_value self i [x10]) ;;
                 ret (LTransactionInput.mk txid vout
                        (int_from_bytes_little (or_bytes v [xff; xff; xff; xff]))))
                  self).
  { unfold vin. unfold bind at 1. unfold get at 1.
    now rewrite (in_range Hi), Htx. }
  rewrite U. clear U. split; [|split; [|split]].
  - intros H. erewrite bind_ok by (apply call_ok; exact H). reflexivity.
  - intros e H. apply bind_raise. unfold call, lift. now rewrite H.
  - intros txid H1 H2. erewrite bind_ok by (apply call_ok; exact H1).
    cbn [bytes_reversed]. erewrite bind_ok by reflexivity.
    erewrite bind_ok by (apply call_ok; exact H2). reflexivity.
  - intros txid vout H1 H2 H3. erewrite bind_ok by (apply call_ok; exact H1).
    cbn [bytes_reversed]. erewrite bind_ok by reflexivity.
    erewrite bind_ok by (apply call_ok; exact H2).
    cbn [int_from_value]. erewrite bind_ok by reflexivity.
    erewrite bind_ok by (apply call_ok; exact H3). reflexivity.
Qed.

(** *** What the methods leave alone *)

Lemma same_document_refl (s : t) : same_document s s.
Proof. now repeat split. Qed.

Lemma same_document_trans (s1 s2 s3 : t) :
  same_document s1 s2 -> same_document s2 s3 -> same_document s1 s3.
Proof.
  intros (A1 & A2 & A3 & A4 & A5 & A6 & A7 & A8)
         (B1 & B2 & B3 & B4 & B5 & B6 & B7 & B8).
  repeat split; congruence.
Qed.

Lemma on_tx_document {A : Type} (m : M GlobalLTransactionView.t A) (s s' : t) (a : A) :
  on_tx m s = Ok (a, s') -> same_document s s' /\ (tx s' <> None).
Proof.
  unfold on_tx. destruct (tx s) as [v|]; [|discriminate].
  destruct (m v) as [[a' v']|e]; [|discriminate].
  intros [= _ <-]. split; [now repeat split|discriminate].
Qed.

Lemma vin_document (i : Z) (s s' : t) (inp : LTransactionInput.t) :
  vin i s = Ok (inp, s') ->
  same_document s s' /\ (tx s = None -> s' = s).
Proof.
  unfold vin. intros H. pv_step H s0 s0' Hget. injection Hget as <- <-.
  destruct (_ || _); [discriminate|].
  destruct (tx s) eqn:E.
  - apply on_tx_document in H. split; [apply H|discriminate].
  - pv_step H v1 sa H1. apply call_inv in H1. destruct H1 as [_ ->].
    pv_step H txid sb H2. apply lift_inv in H2. destruct H2 as [_ ->].
    pv_step H v2 sc H3. apply call_inv in H3. destruct H3 as [_ ->].
    pv_step H vo sd H4. apply lift_inv in H4. destruct H4 as [_ ->].
    pv_step H v3 se H5. apply call_inv in H5. destruct H5 as [_ ->].
    injection H as _ <-. split; [apply same_document_refl|reflexivity].
Qed.

Lemma hash_issuances_document (s s' : t) (d : bytes) :
  hash_issuances s = Ok (d, s') -> same_document s s' /\ tx s' = tx s.
Proof.
  unfold hash_issuances, bind, get. destruct (_hash_issuances s).
  - intros [= _ <-]. split; [apply same_document_refl|reflexivity].
  - intros [= _ <-]. split; [now repeat split|reflexivity].
Qed.

Lemma hash_outputs_document (s s' : t) (d : bytes) :
  hash_outputs s = Ok (d, s') -> same_document s s' /\ tx s' = tx s.
Proof.
  unfold hash_outputs. intros H. pv_step H s0 s0' Hget.
  injection Hget as <- <-. destruct (_hash_outputs s).
  - injection H as _ <-. split; [apply same_document_refl|reflexivity].
  - pv_step H h s1 Hloop. apply for_in_pure in Hloop.
    + subst s1. pv_step H u s2 Hm. injection Hm as _ <-.
      injection H as _ <-. split; [now repeat split|reflexivity].
    + intros x a s2 a' s2' Hb. pv_step Hb out s3 Hout.
      apply blinded_vout_pure in Hout. subst s3. now injection Hb as _ <-.
Qed.

Lemma hash_rangeproofs_document (s s' : t) (d : bytes) :
  hash_rangeproofs s = Ok (d, s') -> same_document s s' /\ tx s' = tx s.
Proof.
  unfold hash_rangeproofs. intros H. pv_step H s0 s0' Hget.
  injection Hget as <- <-. destruct (_hash_rangeproofs s).
  - injection H as _ <-. split; [apply same_document_refl|reflexivity].
  - pv_step H h s1 Hloop. apply for_in_pure in Hloop.
    + subst s1. pv_step H u s2 Hm. injection Hm as _ <-.
      injection H as _ <-. split; [now repeat split|reflexivity].
    + intros x a s2 a' s2' Hb. pv_step Hb out s3 Hout.
      apply blinded_vout_pure in Hout. subst s3. now injection Hb as _ <-.
Qed.

Lemma sighash_outputs_term_document (s s' : t) (sh : Z) (rangeproof : bool)
    (input_index : Z) (term : bytes) :
  sighash_outputs_term sh rangeproof input_index s = Ok (term, s') ->
  same_document s s' /\ tx s' = tx s.
Proof.
  unfold sighash_outputs_term. intros H. pv_step H s0 s0' Hget.
  injection Hget as <- <-. destruct (negb (in_none_single sh)).
  - pv_step H ho s1 Hho. apply hash_outputs_document in Hho.
    destruct rangeproof.
    + pv_step H hr s2 Hhr. apply hash_rangeproofs_document in Hhr.
      injection H as _ <-. destruct Hho as [A B], Hhr as [A' B'].
      split; [eapply same_document_trans; eassumption|congruence].
    + now injection H as _ <-.
  - destruct (_ && _).
    + pv_step H out s1 Hout. apply blinded_vout_pure in Hout. subst s1.
      destruct rangeproof.
      * pv_step H out2 s2 Hout2. apply blinded_vout_pure in Hout2. subst s2.
        injection H as _ <-. split; [apply same_document_refl|reflexivity].
      * injection H as _ <-. split; [apply same_document_refl|reflexivity].
    + injection H as _ <-. split; [apply same_document_refl|reflexivity].
Qed.

(** *** The head of the data fed to the hasher *)

Lemma firstn_app_exact {A : Type} (n : nat) (a b : list A) :
  length a = n -> firstn n (a ++ b) = a.
Proof.
  intros <-. rewrite firstn_app, Nat.sub_diag, firstn_all. cbn.
  now rewrite app_nil_r.
Qed.

Lemma skipn_app_exact {A : Type} (n : nat) (a b : list A) :
  length a = n -> skipn n (a ++ b) = b.
Proof.
  intros <-. rewrite skipn_app, Nat.sub_diag, skipn_all. reflexivity.
Qed.

Lemma int_to_bytes_little_inv (n : Z) (len : nat) (b : bytes) :
  int_to_bytes n len little = Ok b -> b = le_digits len n.
Proof.
  unfold int_to_bytes. destruct (_ || _); [discriminate|]. now intros [= <-].
Qed.

Lemma zero_length : length zero = 32%nat.
Proof. reflexivity. Qed.

(** X16. The first hundred bytes fed to the hasher by [sighash_segwit].
    Bytes 0-3 are the transaction version, little-endian. With
    ANYONECANPAY the next 64 bytes are zero, and neither [hash_prevouts]
    nor [hash_sequence] enters the digest. Without it, bytes 4-35 are the
    SHA-256 of [hash_prevouts()], and bytes 36-67 are zero for the base
    types NONE and SINGLE and the SHA-256 of [hash_sequence()] otherwise.
    Bytes 68-99 are the SHA-256 of the issuance digest, whatever the
    flags. *)
Theorem sighash_segwit_head (self self' : t) (input_index : Z)
    (script_pubkey : Script.t) (value : amount) (sighash : option Z)
    (h : hashlib.hasher) (sh : Z) (anyonecanpay rangeproof : bool) :
  issuances_cache_ok self ->
  sighash_segwit_hasher input_index script_pubkey value sighash self = Ok (h, self') ->
  LSIGHASH_check (match sighash with
                  | Some s => s
                  | None => sighash_segwit_default
                  end) = Ok (sh, anyonecanpay, rangeproof) ->
  (exists ver, tx_version self = Ok ver /\ firstn 4 h = le_digits 4 ver)
  /\ (anyonecanpay = true -> firstn 64 (skipn 4 h) = repeat x00 64)
  /\ (anyonecanpay = false ->
      exists hp, hash_prevouts self = Ok hp
                 /\ firstn 32 (skipn 4 h) = hashlib.sha256 hp)
  /\ (anyonecanpay = false -> in_none_single sh = true ->
      firstn 32 (skipn 36 h) = repeat x00 32)
  /\ (anyonecanpay = false -> in_none_single sh = false ->
      exists hs, hash_sequence self = Ok hs
                 /\ firstn 32 (skipn 36 h) = hashlib.sha256 hs)
  /\ firstn 32 (skipn 68 h)
     = hashlib.sha256 (hashlib.sha256 (repeat x00 (Z.to_nat (num_inputs self)))).
Proof.
  intros Hinv H Hcheck.
  apply sighash_segwit_hasher_fed in H. cbv zeta in H.
  destruct H as (sh' & acp & rp & inp & s1 & s2 & b_version & t_prevouts
                 & t_sequence & hi & b_vout & b_value & b_sequence & t_outputs
                 & b_locktime & b_flags & _ & Hcheck' & Hvin & (ver & Hver & Hbver)
                 & Hprev & Hseq & Hhi & _ & _ & _ & _ & _ & _ & ->).
  rewrite Hcheck in Hcheck'. injection Hcheck' as <- <- <-.
  pose proof (vin_document _ _ Hvin) as [(D1 & D2 & D3 & D4 & D5 & D6 & D7 & D8) _].
  pose proof (same_issuances_cache_ok (vin_same _ _ Hvin) Hinv) as Hinv1.
  rewrite (hash_issuances_run Hinv1) in Hhi. injection Hhi as <- _.
  rewrite D1, bytes_mul_zero_repeat.
  pose proof (int_to_bytes_length _ _ _ Hbver) as Lv.
  assert (Lp : length t_prevouts = 32%nat).
  { destruct anyonecanpay; [now subst|].
    destruct Hprev as (hp & _ & ->). apply hashlibFacts.sha256_length. }
  assert (Ls : length t_sequence = 32%nat).
  { destruct (anyonecanpay || in_none_single sh); [now subst|].
    destruct Hseq as (hs & _ & ->). apply hashlibFacts.sha256_length. }
  set (tail := rev (LTransactionInput.txid inp) ++ _).
  set (iss := hashlib.sha256
                (hashlib.sha256 (repeat x00 (Z.to_nat (num_inputs self))))).
  assert (Li : length iss = 32%nat) by apply hashlibFacts.sha256_length.
  assert (S4 : skipn 4 (b_version ++ t_prevouts ++ t_sequence ++ iss ++ tail)
               = t_prevouts ++ t_sequence ++ iss ++ tail)
    by now apply skipn_app_exact.
  assert (S36 : skipn 36 (b_version ++ t_prevouts ++ t_sequence ++ iss ++ tail)
                = t_sequence ++ iss ++ tail).
  { rewrite (app_assoc b_version). apply skipn_app_exact.
    rewrite length_app. lia. }
  assert (S68 : skipn 68 (b_version ++ t_prevouts ++ t_sequence ++ iss ++ tail)
                = iss ++ tail).
  { rewrite (app_assoc t_prevouts), (app_assoc b_version). apply skipn_app_exact.
    rewrite !length_app. lia. }
  split; [|split; [|split; [|split; [|split]]]].
  - exists ver. rewrite <- D5. split; [exact Hver|].
    rewrite (firstn_app_exact _ _ Lv). now apply int_to_bytes_little_inv.
  - intros ->. cbn [orb] in Hseq. subst t_prevouts t_sequence.
    rewrite S4, app_assoc. now apply firstn_app_exact.
  - intros ->. destruct Hprev as (hp & Hhp & ->). exists hp.
    rewrite <- D7. split; [exact Hhp|]. rewrite S4. now apply firstn_app_exact.
  - intros -> Hns. cbn [orb] in Hseq. rewrite Hns in Hseq. subst t_sequence.
    rewrite S36. now apply firstn_app_exact.
  - intros -> Hns. cbn [orb] in Hseq. rewrite Hns in Hseq.
    destruct Hseq as (hs & Hhs & ->). exists hs.
    rewrite <- D8. split; [exact Hhs|]. rewrite S36. now apply firstn_app_exact.
  - rewrite S68. now apply firstn_app_exact.
Qed.

(** *** When [sighash_segwit] returns, and what *)

Lemma sighash_fields_run (self self' : t) (input_index : Z)
    (script_pubkey : Script.t) (value : amount) (sighash : option Z)
    (h : hashlib.hasher) :
  sighash_fields self self' input_index script_pubkey value
    (match sighash with
     | Some s => s
     | None => sighash_segwit_default
     end) h ->
  sighash_segwit_hasher input_index script_pubkey value sighash self = Ok (h, self').
Proof.
  intros (sh & acp & rp & inp & s1 & s2 & b_version & t_prevouts
          & t_sequence & hi & b_vout & b_value & b_sequence & t_outputs
          & b_locktime & b_flags & Hi & Hcheck & Hvin & (ver & Hver & Hbver)
          & Hprev & Hseq & Hhi & Hbvout & Hbval & Hbseq & Hterm
          & (lock & Hlock & Hblock) & Hbflags & ->).
  unfold sighash_segwit_hasher.
  unfold bind at 1. unfold get at 1.
  rewrite (in_range Hi).
  erewrite bind_ok by (apply lift_ok; exact Hcheck).
  cbv beta iota.
  erewrite bind_ok by exact Hvin.
  erewrite bind_ok by (apply call_ok; exact Hver).
  erewrite bind_ok by (apply lift_ok; exact Hbver).
  erewrite (@bind_ok _ _ _ _ _ s1 s1 (b_version ++ t_prevouts)).
  2:{ destruct acp; [now subst|].
      destruct Hprev as (hp & Hhp & ->).
      erewrite bind_ok by (apply call_ok; exact Hhp). reflexivity. }
  erewrite (@bind_ok _ _ _ _ _ s1 s1 ((b_version ++ t_prevouts) ++ t_sequence)).
  2:{ destruct (acp || in_none_single sh); [now subst|].
      destruct Hseq as (hs & Hhs & ->).
      erewrite bind_ok by (apply call_ok; exact Hhs). reflexivity. }
  erewrite bind_ok by exact Hhi.
  erewrite bind_ok by (apply lift_ok; exact Hbvout).
  erewrite bind_ok by (apply lift_ok; exact Hbval).
  erewrite bind_ok by (apply lift_ok; exact Hbseq).
  erewrite bind_ok by exact Hterm.
  erewrite bind_ok by (apply call_ok; exact Hlock).
  erewrite bind_ok by (apply lift_ok; exact Hblock).
  erewrite bind_ok by (apply lift_ok; exact Hbflags).
  unfold ret, hashlib.update, hashlib.new. cbn [app].
  now rewrite <- !app_assoc.
Qed.

(** X17. [sighash_segwit] returns exactly when its index is in range,
    the flags decode, the input, the version, the digests it needs, the
    output term and the locktime can be had and the integers fit their
    fields; what it returns is then the double SHA-256 of the twelve
    fields in the order of [sighash_fields]: version, prevouts term,
    sequence term, issuance term, txid in wire order, vout, script, value
    term, sequence, outputs term, locktime, flags. *)
Theorem sighash_segwit_characterised (self self' : t) (input_index : Z)
    (script_pubkey : Script.t) (value : amount) (sighash : option Z) (d : bytes) :
  sighash_segwit input_index script_pubkey value sighash self = Ok (d, self')
  <->
  exists h,
    sighash_fields self self' input_index script_pubkey value
      (match sighash with
       | Some s => s
       | None => sighash_segwit_default
       end) h
    /\ d = hashlib.sha256 (hashlib.sha256 h).
Proof.
  split.
  - intros H. unfold sighash_segwit in H. pv_step H h s1 Hh.
    injection H as <- <-. exists h. split; [|reflexivity].
    apply sighash_segwit_hasher_fed in Hh. exact Hh.
  - intros (h & Hf & ->). unfold sighash_segwit.
    erewrite bind_ok by (apply sighash_fields_run; exact Hf).
    reflexivity.
Qed.

(** *** Calling [sighash_segwit] again *)

Lemma vin_replay (i : Z) (s s' : t) (inp : LTransactionInput.t) :
  same_document s s' -> tx s = None -> tx s' = None ->
  vin i s = Ok (inp, s) -> vin i s' = Ok (inp, s').
Proof.
  intros (D1 & _ & D3 & _) E E' H.
  unfold vin, bind, get, call, lift in *. cbv beta in *.
  rewrite E in H. rewrite E', D1.
  destruct (_ || _); [discriminate|]. cbv beta in *. rewrite D3.
  destruct (scope_value s i [x0e]) as [[b1|]|e1]; try discriminate H.
  cbn [bytes_reversed] in *. cbv beta iota in *. rewrite ?D3.
  destruct (scope_value s i [x0f]) as [[b2|]|e2]; try discriminate H.
  cbn [int_from_value] in *. cbv beta iota in *. rewrite ?D3.
  destruct (scope_value s i [x10]) as [b3|e3]; try discriminate H.
  unfold ret in *. injection H as Hinp. rewrite <- Hinp. reflexivity.
Qed.

Lemma hash_issuances_hit (s s' : t) (d : bytes) :
  hash_issuances s = Ok (d, s') -> _hash_issuances s' = Some d.
Proof.
  unfold hash_issuances, bind, get. destruct (_hash_issuances s) eqn:E.
  - now intros [= <- <-].
  - now intros [= <- <-].
Qed.

Lemma sighash_outputs_term_again (s s' : t) (sh : Z) (rangeproof : bool)
    (input_index : Z) (term : bytes) :
  sighash_outputs_term sh rangeproof input_index s = Ok (term, s') ->
  sighash_outputs_term sh rangeproof input_index s' = Ok (term, s').
Proof.
  intros H. pose proof H as HD. apply sighash_outputs_term_document in HD.
  destruct HD as [(_ & D2 & _) _].
  unfold sighash_outputs_term in *.
  unfold bind at 1 in H. unfold get at 1 in H.
  unfold bind at 1. unfold get at 1. rewrite D2.
  destruct (negb (in_none_single sh)).
  - pv_step H ho s1 Hho. apply hash_outputs_cached in Hho.
    destruct Hho as [Hho _]. destruct rangeproof.
    + pv_step H hr s2 Hhr. apply hash_rangeproofs_cached in Hhr.
      destruct Hhr as [Hhr Hk]. injection H as <- <-.
      erewrite bind_ok by (apply hash_outputs_hit; rewrite Hk; exact Hho).
      erewrite bind_ok by (apply hash_rangeproofs_hit; exact Hhr).
      reflexivity.
    + injection H as <- <-.
      erewrite bind_ok by (apply hash_outputs_hit; exact Hho). reflexivity.
  - destruct (_ && _).
    + pv_step H out s1 Hout. pose proof Hout as HP. apply blinded_vout_pure in HP.
      subst s1.
      destruct rangeproof.
      * pv_step H out2 s2 Hout2. pose proof Hout2 as HP2.
        apply blinded_vout_pure in HP2. subst s2.
        injection H as <- <-.
        erewrite bind_ok by exact Hout. erewrite bind_ok by exact Hout2.
        reflexivity.
      * injection H as <- <-. erewrite bind_ok by exact Hout. reflexivity.
    + injection H as <- <-. reflexivity.
Qed.

(** X18. On a view without attached transaction view, [sighash_segwit]
    can be called again: after a call that returned a digest, the same
    call on the view it left returns the same digest and changes nothing
    any more, the digests of issuances, outputs and proofs now coming from
    the caches. *)
Theorem sighash_segwit_again (s s' : t) (input_index : Z)
    (script_pubkey : Script.t) (value : amount) (sighash : option Z) (d : bytes) :
  tx s = None ->
  sighash_segwit input_index script_pubkey value sighash s = Ok (d, s') ->
  sighash_segwit input_index script_pubkey value sighash s' = Ok (d, s').
Proof.
  intros E H. unfold sighash_segwit in *. pv_step H h s1 Hh.
  injection H as <- <-.
  erewrite bind_ok; [reflexivity|].
  apply sighash_fields_run.
  apply sighash_segwit_hasher_fed in Hh. cbv zeta in Hh.
  destruct Hh as (sh & acp & rp & inp & sa & sb & b_version & t_prevouts
                  & t_sequence & hi & b_vout & b_value & b_sequence & t_outputs
                  & b_locktime & b_flags & Hi & Hcheck & Hvin & Hver
                  & Hprev & Hseq & Hhi & Hbvout & Hbval & Hbseq & Hterm
                  & Hlock & Hbflags & ->).
  pose proof Hvin as HD1. apply vin_document in HD1.
  destruct HD1 as [_ Hs]. specialize (Hs E). subst sa.
  pose proof Hhi as HD2. apply hash_issuances_document in HD2.
  destruct HD2 as [A2 B2].
  pose proof Hterm as HD. apply sighash_outputs_term_document in HD.
  destruct HD as [A3 B3].
  assert (D : same_document s s1)
    by (eapply same_document_trans; eassumption).
  assert (E' : tx s1 = None) by congruence.
  pose proof D as (D1 & D2 & D3 & D4 & D5 & D6 & D7 & D8).
  exists sh, acp, rp, inp, s1, s1, b_version, t_prevouts, t_sequence, hi,
    b_vout, b_value, b_sequence, t_outputs, b_locktime, b_flags.
  split; [now rewrite D1|]. split; [exact Hcheck|].
  split; [apply vin_replay with (s := s); assumption|].
  split; [now rewrite D5|].
  split; [destruct acp; [exact Hprev|now rewrite D7]|].
  split; [destruct (acp || in_none_single sh); [exact Hseq|now rewrite D8]|].
  split.
  { apply hash_issuances_hit in Hhi.
    pose proof Hterm as HK. apply sighash_outputs_term_same in HK.
    destruct HK as [_ K].
    unfold hash_issuances, bind, get. now rewrite K, Hhi. }
  split; [exact Hbvout|]. split; [exact Hbval|]. split; [exact Hbseq|].
  split; [apply sighash_outputs_term_again with (s := sb); exact Hterm|].
  split; [exact Hlock|]. split; [exact Hbflags|reflexivity].
Qed.

End WithCollaborators.
End PSETViewMore.

(** ** More runs on sample documents *)

Module MoreRuns.

Abbreviation refC := Reference.collaborators.

(** X1 on output 0 of the sample transaction, from position 163 to 209,
    and on the output whose script announces [2^64 - 1] bytes. *)
Lemma skip_output_consumes_witness :
  GlobalLTransactionView._skip_output (C:=refC)
    (GlobalLTransactionView.set_stream (mkBytesIO Sample.tx_bytes 163) Sample.tx_view)
  = Ok (tt, GlobalLTransactionView.set_stream (mkBytesIO Sample.tx_bytes 209)
              Sample.tx_view)
  /\ GlobalLTransactionView._skip_output (C:=refC) Sample2.long_script_view
     = Raise OverflowError.
Proof.
  split.
  - apply (proj1 (@TransactionViewFacts.skip_output_consumes refC
                    (GlobalLTransactionView.set_stream
                       (mkBytesIO Sample.tx_bytes 163) Sample.tx_view)
                    x01 x00 2 (mkBytesIO Sample.tx_bytes 207)
                    eq_refl eq_refl eq_refl ltac:(lia))).
    unfold PY_SSIZE_T_MAX. cbn [pos]. lia.
  - apply (proj2 (@TransactionViewFacts.skip_output_consumes refC
                    Sample2.long_script_view
                    x01 x00 (2 ^ 64 - 1) (mkBytesIO Sample2.long_script_output 52)
                    eq_refl eq_refl eq_refl ltac:(lia))).
    + unfold PY_SSIZE_T_MAX. cbn [pos]. lia.
    + reflexivity.
Defined.

(** X3 on a stream of 34 bytes: 41 reported, position 39; and on an
    empty stream ten bytes before the last position. *)
Lemma skip_input_truncated_witness :
  GlobalLTransactionView._skip_input Sample2.truncated_view
  = Ok (41, GlobalLTransactionView.set_stream
              (mkBytesIO (repeat x11 32 ++ [x01; x00]) 39) Sample2.truncated_view)
  /\ GlobalLTransactionView._skip_input Sample2.far_view = Raise OverflowError.
Proof.
  split.
  - apply (proj1 (@TransactionViewFacts.skip_input_truncated
                    Sample2.truncated_view ltac:(cbn; lia))).
    unfold PY_SSIZE_T_MAX. cbn. lia.
  - assert (P : Z.of_nat Sample2.far_position = PY_SSIZE_T_MAX - 10).
    { unfold Sample2.far_position. apply Z2Nat.id. unfold PY_SSIZE_T_MAX. lia. }
    assert (F : firstn 4 (skipn (Sample2.far_position + 32) (@nil byte)) = []).
    { now rewrite skipn_nil. }
    refine (proj2 (@TransactionViewFacts.skip_input_truncated Sample2.far_view _) _ _).
    + change (length (firstn 4 (skipn (Sample2.far_position + 32) (@nil byte))) < 4)%nat.
      rewrite F. cbn [length]. lia.
    + change (PY_SSIZE_T_MAX
              < Z.of_nat Sample2.far_position + 37
                + Z.of_nat (length (firstn 4 (skipn (Sample2.far_position + 32)
                                                (@nil byte))))).
      rewrite F, P. cbn [length]. lia.
    + change (((Z.of_nat (@length byte []) <=? PY_SSIZE_T_MAX - 33)
               && (Z.of_nat Sample2.far_position <=? PY_SSIZE_T_MAX)) = true).
      rewrite P. reflexivity.
Defined.

(** X5 on the transaction of two plain inputs: the output count is at
    6 + 2 * 41. *)
Lemma num_vout_offset_plain_witness :
  exists v,
    GlobalLTransactionView.num_vout_offset (C:=refC) Sample2.plain_tx_view
    = Ok (88, v).
Proof.
  eexists.
  eapply (@TransactionViewFacts.num_vout_offset_plain refC
            Sample2.plain_tx_view _ _ 6 2 Sample2.plain_tx_bytes).
  - reflexivity.
  - vm_compute. reflexivity.
  - lia.
  - lia.
  - vm_compute. reflexivity.
  - reflexivity.
  - vm_compute. reflexivity.
Defined.

(** X6 on the same transaction: input 1 is parsed at 6 + 41. *)
Lemma vin_behind_plain_inputs_witness :
  exists v,
    GlobalLTransactionView.vin (C:=refC) 1 Sample2.plain_tx_view
    = Ok (LTransactionInput.mk (repeat x66 32) 0xFFFFFFFF 0xFFFFFFFF, v).
Proof.
  eexists.
  etransitivity.
  - eapply (@TransactionViewFacts.vin_behind_plain_inputs refC 1 2 6
              Sample2.plain_tx_view).
    + lia.
    + vm_compute. reflexivity.
    + vm_compute. reflexivity.
    + lia.
    + vm_compute. reflexivity.
  - vm_compute. reflexivity.
Defined.


(** X8 on the sample transaction: 163 = 162 + 1. *)
Lemma vout0_offset_composition_witness :
  exists v' off n enc,
    GlobalLTransactionView.vout0_offset (C:=refC) Sample.tx_view = Ok (163, v')
    /\ GlobalLTransactionView.num_vout_offset (C:=refC) v' = Ok (off, v')
    /\ GlobalLTransactionView.num_vout (C:=refC) v' = Ok (n, v')
    /\ @compact_to_bytes refC n = Ok enc
    /\ 163 = off + Z.of_nat (length enc).
Proof.
  eassert (E : GlobalLTransactionView.vout0_offset (C:=refC) Sample.tx_view
               = Ok (163, _))
    by (vm_compute; reflexivity).
  destruct (@TransactionViewFacts.vout0_offset_composition refC
              Sample.tx_view _ 163 eq_refl E) as (off & n & enc & A & B & K & L).
  eexists. exists off, n, enc.
  split; [exact E|]. split; [exact A|]. split; [exact B|]. split; [exact K|exact L].
Defined.

(** X9 on the sample PSET with its one output. *)
Lemma hash_outputs_digest_witness :
  exists self',
    PSETView.hash_outputs Sample.pset = Ok (hashlib.sha256 Sample.output0, self').
Proof.
  eexists.
  rewrite (@PSETViewMore.hash_outputs_digest Sample.pset
             [LOutputScope.mk (LTransactionOutput.mk Sample.output0)
                Sample.blinded_output0] eq_refl eq_refl).
  reflexivity.
Defined.

(** X10 on the sample PSET: the range proof and the surjection proof of
    its one output, each serialized by its own codec. *)
Lemma hash_rangeproofs_digest_witness :
  exists self',
    PSETView.hash_rangeproofs Sample.pset
    = Ok (hashlib.sha256 [x01; xc0; x01; xd0], self').
Proof.
  eexists.
  rewrite (@PSETViewMore.hash_rangeproofs_digest Sample.pset
             [LOutputScope.mk (LTransactionOutput.mk Sample.output0)
                Sample.blinded_output0] eq_refl eq_refl).
  reflexivity.
Defined.

(** X11 on the PSET whose second output cannot be read. *)
Lemma output_digests_propagate_witness :
  PSETView.hash_outputs Sample2.pset_unreadable
    = Raise (CollaboratorError "unreadable output")
  /\ PSETView.hash_rangeproofs Sample2.pset_unreadable
    = Raise (CollaboratorError "unreadable output").
Proof.
  destruct (@PSETViewMore.output_digests_propagate Sample2.pset_unreadable 1
              (CollaboratorError "unreadable output")
              [LOutputScope.mk (LTransactionOutput.mk Sample.output0)
                 Sample.blinded_output0]
              ltac:(cbn; lia) eq_refl eq_refl) as [A B].
  split; [apply A|apply B]; reflexivity.
Defined.

(** X12 on the sample PSET, whose caches are empty, and on a view whose
    second output cannot be read and whose cache holds a byte: the byte is
    the answer. *)
Lemma output_digests_memoized_witness :
  (exists s1 s2 d r,
     PSETView.hash_outputs Sample.pset = Ok (d, s1)
     /\ PSETView.hash_rangeproofs s1 = Ok (r, s2)
     /\ PSETView._hash_outputs s2 = Some d
     /\ PSETView._hash_rangeproofs s2 = Some r
     /\ PSETView.hash_outputs s2 = Ok (d, s2)
     /\ PSETView.hash_rangeproofs s2 = Ok (r, s2))
  /\ PSETView.hash_outputs Sample2.pset_unreadable_cached
     = Ok ([x07], Sample2.pset_unreadable_cached).
Proof.
  split.
  - eassert (E1 : PSETView.hash_outputs Sample.pset = Ok (_, _))
      by (vm_compute; reflexivity).
    match type of E1 with
    | _ = Ok (_, ?s1) =>
        eassert (E2 : PSETView.hash_rangeproofs s1 = Ok (_, _))
          by (vm_compute; reflexivity)
    end.
    destruct (proj2 (proj2 (@PSETViewMore.output_digests_memoized
                              Sample.pset _ _ _ _)) E1 E2)
      as (_ & A1 & A2 & _ & A3 & A4).
    do 4 eexists. split; [exact E1|]. split; [exact E2|].
    split; [exact A1|]. split; [exact A2|]. split; [exact A3|exact A4].
  - destruct (@PSETViewMore.output_digests_memoized
                Sample2.pset_unreadable_cached Sample2.pset_unreadable_cached
                Sample2.pset_unreadable_cached [] []) as (A & _).
    exact (A [x07] eq_refl).
Defined.

(** X13 on a view with stale digests in its caches. *)
Lemma clear_cache_recomputes_witness :
  exists s0 s1 s2,
    PSETView.clear_cache Sample2.pset_stale = Ok (tt, s0)
    /\ PSETView.hash_issuances s0 = Ok (hashlib.sha256 [x00; x00], s1)
    /\ PSETView.hash_outputs s0 = Ok (hashlib.sha256 Sample.output0, s2).
Proof.
  destruct (@PSETViewMore.clear_cache_recomputes Sample2.pset_stale
              [LOutputScope.mk (LTransactionOutput.mk Sample.output0)
                 Sample.blinded_output0] eq_refl)
    as (s0 & A & _ & (s1 & B) & (s2 & K) & _).
  exists s0, s1, s2. split; [exact A|]. split; [exact B|].
  rewrite K. reflexivity.
Defined.

(** X14 on a scope without fields and on a scope with an empty sequence
    field. *)
Lemma vin_missing_fields_witness :
  PSETView.vin (C:=refC) 0 Sample2.pset_no_fields = Raise TypeError
  /\ PSETView.vin (C:=refC) 0 Sample2.pset_empty_sequence
     = Ok (LTransactionInput.mk (repeat x11 32) 1 0xFFFFFFFF,
           Sample2.pset_empty_sequence).
Proof.
  split.
  - apply (proj1 (@PSETViewMore.vin_missing_fields refC Sample2.pset_no_fields 0
                    eq_refl ltac:(cbn; lia))).
    reflexivity.
  - destruct (@PSETViewMore.vin_missing_fields refC Sample2.pset_empty_sequence 0
                eq_refl ltac:(cbn; lia)) as (_ & _ & _ & A).
    rewrite (A (repeat x11 32) [x01; x00; x00; x00] eq_refl eq_refl eq_refl).
    reflexivity.
Defined.

(** X16 on the sample PSET with the flags ALL | ANYONECANPAY. *)
Lemma sighash_segwit_head_witness :
  exists h s',
    PSETView.sighash_segwit_hasher (C:=refC) 0 Sample.script_pubkey
      (IntValue 10000) (Some 0x81) Sample.pset = Ok (h, s')
    /\ firstn 4 h = [x02; x00; x00; x00]
    /\ firstn 64 (skipn 4 h) = repeat x00 64
    /\ firstn 32 (skipn 68 h) = hashlib.sha256 (hashlib.sha256 [x00; x00]).
Proof.
  eassert (E : PSETView.sighash_segwit_hasher (C:=refC) 0 Sample.script_pubkey
                 (IntValue 10000) (Some 0x81) Sample.pset = Ok (_, _))
    by (vm_compute; reflexivity).
  do 2 eexists. split; [exact E|].
  destruct (@PSETViewMore.sighash_segwit_head refC Sample.pset _ 0
              Sample.script_pubkey (IntValue 10000) (Some 0x81) _
              1 true false (or_introl eq_refl) E eq_refl)
    as ((ver & Hver & A) & B & _ & _ & _ & K).
  split; [|split; [exact (B eq_refl)|exact K]].
  rewrite A. cbn in Hver. injection Hver as <-. reflexivity.
Defined.

(** X17 on the sample PSET: the fields of a run that returned. *)
Lemma sighash_segwit_characterised_witness :
  exists d s' h,
    PSETView.sighash_segwit (C:=refC) 0 Sample.script_pubkey (IntValue 10000)
      None Sample.pset = Ok (d, s')
    /\ sighash_fields (C:=refC) Sample.pset s' 0 Sample.script_pubkey
         (IntValue 10000) 0x41 h
    /\ d = hashlib.sha256 (hashlib.sha256 h).
Proof.
  eassert (E : PSETView.sighash_segwit (C:=refC) 0 Sample.script_pubkey
                 (IntValue 10000) None Sample.pset = Ok (_, _))
    by (vm_compute; reflexivity).
  destruct (proj1 (@PSETViewMore.sighash_segwit_characterised refC Sample.pset _
                     0 Sample.script_pubkey (IntValue 10000) None _) E)
    as (h & A & B).
  do 2 eexists. exists h. split; [exact E|]. split; [exact A|exact B].
Defined.

(** X18 on the PSET without embedded transaction. *)
Lemma sighash_segwit_again_witness :
  exists d s',
    PSETView.sighash_segwit (C:=refC) 1 Sample.script_pubkey (IntValue 10000)
      None Sample.pset_v2 = Ok (d, s')
    /\ PSETView.sighash_segwit (C:=refC) 1 Sample.script_pubkey (IntValue 10000)
      None s' = Ok (d, s').
Proof.
  eassert (E : PSETView.sighash_segwit (C:=refC) 1 Sample.script_pubkey
                 (IntValue 10000) None Sample.pset_v2 = Ok (_, _))
    by (vm_compute; reflexivity).
  do 2 eexists. split; [exact E|].
  exact (@PSETViewMore.sighash_segwit_again refC Sample.pset_v2 _ 1
           Sample.script_pubkey (IntValue 10000) None _ eq_refl E).
Defined.

(** X2 on an empty stream: the codec's short read. *)
Lemma skip_output_raises_with_codec_witness :
  exists s,
    @compact_read_from refC s = Raise Reference.short_read
    /\ buf s = [] /\ (33 <= pos s <= 99)%nat.
Proof.
  destruct (@TransactionViewFacts.skip_output_raises_with_codec refC
              (GlobalLTransactionView.init (mkBytesIO [] 0) 0)
              Reference.short_read eq_refl)
    as [[E _]|(s & B & P & [E|[E _]])]; try discriminate E.
  exists s. split; [exact E|]. split; [exact B|exact P].
Defined.

(** X19 on a run of [sighash_segwit] on the sample PSET. *)
Lemma sighash_segwit_cache_ok_witness :
  exists d s',
    PSETView.sighash_segwit (C:=refC) 0 Sample.script_pubkey (IntValue 10000)
      None Sample.pset = Ok (d, s')
    /\ PSETView.issuances_cache_ok s'.
Proof.
  eassert (E : PSETView.sighash_segwit (C:=refC) 0 Sample.script_pubkey
                 (IntValue 10000) None Sample.pset = Ok (_, _))
    by (vm_compute; reflexivity).
  do 2 eexists. split; [exact E|].
  exact (@PSETViewFacts.sighash_segwit_cache_ok refC Sample.pset _ 0
           Sample.script_pubkey (IntValue 10000) None _ (or_introl eq_refl) E).
Defined.
End MoreRuns.
